(** * Arque: an event-sourcing runtime

    A shallow embedding of the runtime core of the repository: the Postgres
    store adapter (events, snapshots, projection checkpoints, finality), the
    config adapters with their LRU cache, the broker, the projection runtime
    and the wire codec of the stream adapter.

    Asynchronous code is modelled sequentially: every [await] is a step of a
    state-and-error monad.  Numbers that the code uses as integers (versions,
    event types, milliseconds) are [Z]; buffers are lists of bytes. *)

From stdpp Require Import base list strings gmap sorting.
From Stdlib Require Import ZArith Lia DecimalString DecimalZ DecimalPos.
From Stdlib.Strings Require Import Byte.

#[global] Instance byte_eq_dec : EqDecision byte := Byte.byte_eq_dec.

(** A Node.js [Buffer]. *)
Abbreviation Buffer := (list byte).

(** ** JavaScript values

    The values carried in event bodies, metadata and snapshot states, and
    the JSON documents made of them.  An object is the finite map of its own
    properties: the order in which a program would enumerate them is not
    part of the model. *)

#[warnings="-register-all"]
Inductive Value :=
| VNull
| VNumber (n : Z)
| VString (s : string)
| VBoolean (b : bool)
| VBuffer (b : Buffer)
| VDate (ms : Z)
| VArray (items : list Value)
| VObject (fields : gmap string Value).

(** A plain JS object with string keys. *)
Abbreviation JsObject := (gmap string Value).

(** [{ ...a, ...b }]: the keys of [b] override those of [a]. *)
Definition spread (a b : JsObject) : JsObject := b ∪ a.

(** [{ ...a, ...b }] where [b] may be [undefined]. *)
Definition spread_opt (a : JsObject) (b : option JsObject) : JsObject :=
  match b with Some b' => spread a b' | None => a end.

(** [o[k]]: the value under the key, [undefined] without one. *)
Definition obj_get (k : string) (o : JsObject) : option Value := o !! k.

(** ** joser

    The package [@scaleforge/joser] is a dependency whose code is not part
    of the repository: what an adapter's [Joser] instance does to a value is
    a parameter of the model.  [joser_serialize v] stands for
    [joser.serialize(v)] as the JSON document [JSON.stringify] writes for
    it, [joser_deserialize d] for [joser.deserialize(d)] of a parsed
    document. *)
Class Joser := {
  joser_serialize : Value → Value;
  joser_deserialize : Value → Value
}.

(** A [Joser] that leaves every value as it is. *)
Definition plain_joser : Joser :=
  {| joser_serialize := λ v, v; joser_deserialize := λ v, v |}.

(** ** Errors *)

Inductive Error :=
| AssertionError (message : string)
| AggregateIsFinalError (id : Buffer)
| AggregateVersionConflictError (id : Buffer) (version : Z)
| DatabaseError (code : string)
| JsError (message : string).

(** [err.code] as the adapters read it: only driver errors carry an
    SQLSTATE code. *)
Definition error_code (err : Error) : option string :=
  match err with
  | DatabaseError code => Some code
  | _ => None
  end.

(** ** The state-and-error monad of asynchronous operations *)

Definition M (St A : Type) : Type := St → St * (Error + A).

Definition ret {St A} (a : A) : M St A := λ s, (s, inr a).

Definition throw {St A} (e : Error) : M St A := λ s, (s, inl e).

Definition bind {St A B} (m : M St A) (k : A → M St B) : M St B :=
  λ s, match m s with
       | (s', inr a) => k a s'
       | (s', inl e) => (s', inl e)
       end.

(** [try { m } catch (err) { h err }] *)
Definition try_catch {St A} (m : M St A) (h : Error → M St A) : M St A :=
  λ s, match m s with
       | (s', inl e) => h e s'
       | (s', inr a) => (s', inr a)
       end.

(** A state change without a result. *)
Definition modify {St} (f : St → St) : M St unit := λ s, (f s, inr tt).

Declare Scope am_scope.
Delimit Scope am_scope with am.
Notation "'let!' x ':=' m 'in' k" := (bind m (λ x, k))
  (at level 10, x name, m at level 100, k at level 200) : am_scope.
Notation "'run!' m 'in' k" := (bind m (λ _, k))
  (at level 10, m at level 100, k at level 200) : am_scope.

(** ** Core data *)

Module EventId.
(** Modelled from the spec: the class [EventId] of the core is not part of
    the sources at hand; the spec describes an opaque identifier that
    round-trips through its bytes, so it is a wrapper of its buffer. *)
Record t := mk { buffer : Buffer }.
Definition from (b : Buffer) : t := mk b.
End EventId.

Module Aggregate.
(** [{ id: Buffer; version: number }] *)
Record t := mk { id : Buffer; version : Z }.
End Aggregate.

Module Event.
(** An event whose body, when it is not [null], is a [B]: a structured
    record for the core and the store, a buffer on a raw stream. *)
Record t (B : Type) := mk {
  id : EventId.t;
  type : Z;
  aggregate : Aggregate.t;
  body : option B;
  meta : JsObject;
  timestamp : Z
}.
Arguments mk {B}.
Arguments id {B}.
Arguments type {B}.
Arguments aggregate {B}.
Arguments body {B}.
Arguments meta {B}.
Arguments timestamp {B}.
End Event.

Module Snapshot.
Record t := mk { aggregate : Aggregate.t; state : Value; timestamp : Z }.
End Snapshot.

(** ** exponential-backoff

    The retry loop of the npm package the adapters call as [backOff], with
    jitter "none": the request is tried up to [numOfAttempts] times (at least
    once), a failed attempt is followed by another one only when [retry]
    accepts the error and attempts remain, and every attempt but the first
    waits [min (startingDelay * timeMultiple ^ k) maxDelay]. *)
Module ExponentialBackoff.

Record Options := mkOptions {
  delayFirstAttempt : bool;
  maxDelay : option Z;            (* [None] is Infinity *)
  numOfAttempts : Z;
  startingDelay : Z;
  timeMultiple : Z;
  retry : Error → bool
}.

Definition defaults : Options :=
  {| delayFirstAttempt := false; maxDelay := None; numOfAttempts := 10;
     startingDelay := 100; timeMultiple := 2; retry := λ _, true |}.

Definition sanitize (o : Options) : Options :=
  if (numOfAttempts o <? 1)%Z
  then mkOptions (delayFirstAttempt o) (maxDelay o) 1 (startingDelay o)
                 (timeMultiple o) (retry o)
  else o.

Definition capped (o : Options) (d : Z) : Z :=
  match maxDelay o with Some m => Z.min d m | None => d end.

(** The delay applied before attempt number [attempt] (counted from 0). *)
Definition delay (o : Options) (attempt : nat) : option Z :=
  if delayFirstAttempt o
  then Some (capped o (startingDelay o * timeMultiple o ^ Z.of_nat attempt))
  else match attempt with
       | O => None
       | S k => Some (capped o (startingDelay o * timeMultiple o ^ Z.of_nat k))
       end.

Section execute.
Context {St A : Type}.
(** How the surrounding state records a wait of [d] milliseconds. *)
Variable sleep : Z → St → St.
Variable o : Options.
Variable request : M St A.

Definition applyDelay (attempt : nat) (s : St) : St :=
  match delay o attempt with Some d => sleep d s | None => s end.

Fixpoint execute (remaining attemptNumber : nat) : M St A :=
  match remaining with
  | O => throw (JsError "Something went wrong.")
  | S k =>
      λ s, match request (applyDelay attemptNumber s) with
           | (s', inr a) => (s', inr a)
           | (s', inl e) =>
               if retry o e && negb (Nat.eqb k 0)
               then execute k (S attemptNumber) s'
               else (s', inl e)
           end
  end.
End execute.

Definition backOff {St A} (sleep : Z → St → St) (request : M St A) (o : Options)
  : M St A :=
  let o' := sanitize o in
  execute sleep o' request (Z.to_nat (numOfAttempts o')) 0.

End ExponentialBackoff.

(** ** The Postgres schema ([createTables])

    A table is the list of its rows in insertion order; the constraints of
    the schema are checked by the statements that insert. *)

Module aggregates.
Record row := mk { id : Buffer; version : Z; timestamp : Z; final : bool }.
End aggregates.

Module events.
Record row := mk {
  id : Buffer;
  type : Z;
  aggregate_id : Buffer;
  aggregate_version : Z;
  body : Value;      (* JSONB *)
  meta : Value;      (* JSONB *)
  timestamp : Z;
  final : bool
}.
End events.

Module snapshots.
Record row := mk {
  aggregate_id : Buffer;
  aggregate_version : Z;
  state : Value;     (* JSONB *)
  timestamp : Z
}.
End snapshots.

Module projection_checkpoints.
Record row := mk {
  projection : string;
  aggregate_id : Buffer;
  aggregate_version : Z;
  timestamp : Z
}.
End projection_checkpoints.

Record Db := mkDb {
  t_aggregates : list aggregates.row;
  t_events : list events.row;
  t_snapshots : list snapshots.row;
  t_projection_checkpoints : list projection_checkpoints.row
}.

Definition empty_db : Db := mkDb [] [] [] [].

(** SQLSTATE codes the code or the schema refers to. *)
Definition unique_violation : string := "23505".
Definition foreign_key_violation : string := "23503".
Definition serialization_failure : string := "40001".
Definition deadlock_detected : string := "40P01".

(** A statement either fails with a driver error and changes nothing, or
    yields the new tables and its result. *)
Definition Statement (A : Type) : Type := Db → Error + (Db * A).

Module Sql.
Local Open Scope Z_scope.

(** [SELECT final FROM aggregates WHERE id = $1] *)
Definition select_final (id : Buffer) : Statement (list bool) :=
  λ d, inr (d, aggregates.final <$>
                 filter (λ r, aggregates.id r = id) (t_aggregates d)).

(** [INSERT INTO aggregates (id, version, timestamp) VALUES ($1, $2, $3)];
    [id] is the primary key and [final] defaults to false. *)
Definition insert_aggregate (id : Buffer) (version timestamp : Z)
  : Statement unit :=
  λ d, if bool_decide (Exists (λ r, aggregates.id r = id) (t_aggregates d))
       then inl (DatabaseError unique_violation)
       else inr (mkDb (t_aggregates d ++ [aggregates.mk id version timestamp false])
                      (t_events d) (t_snapshots d) (t_projection_checkpoints d),
                 tt).

(** The rows matched by
    [WHERE id = $3 AND version = $4 AND final IS NOT TRUE]. *)
Definition update_matches (id : Buffer) (expected : Z) (r : aggregates.row)
  : bool :=
  bool_decide (aggregates.id r = id) && (aggregates.version r =? expected)
  && negb (aggregates.final r).

(** [UPDATE aggregates SET version = $1, timestamp = $2
     WHERE id = $3 AND version = $4 AND final IS NOT TRUE]; yields the
    row count. *)
Definition update_aggregate (version timestamp : Z) (id : Buffer) (expected : Z)
  : Statement Z :=
  λ d, inr (mkDb ((λ r, if update_matches id expected r
                        then aggregates.mk (aggregates.id r) version timestamp
                                           (aggregates.final r)
                        else r) <$> t_aggregates d)
                 (t_events d) (t_snapshots d) (t_projection_checkpoints d),
            Z.of_nat (length (filter (λ r, update_matches id expected r = true)
                                     (t_aggregates d)))).

(** [INSERT INTO events (id, type, aggregate_id, aggregate_version, body,
    meta, timestamp) VALUES (...)]: [id] is the primary key,
    [(aggregate_id, aggregate_version)] is unique, [aggregate_id] references
    [aggregates(id)], and [final] defaults to false. *)
Definition insert_event (r : events.row) : Statement unit :=
  λ d, if bool_decide (Exists (λ r', events.id r' = events.id r) (t_events d))
       then inl (DatabaseError unique_violation)
       else if bool_decide
                 (Exists (λ r', events.aggregate_id r' = events.aggregate_id r
                                ∧ events.aggregate_version r'
                                  = events.aggregate_version r)
                         (t_events d))
       then inl (DatabaseError unique_violation)
       else if bool_decide
                 (Exists (λ a, aggregates.id a = events.aggregate_id r)
                         (t_aggregates d))
       then inr (mkDb (t_aggregates d) (t_events d ++ [r]) (t_snapshots d)
                      (t_projection_checkpoints d), tt)
       else inl (DatabaseError foreign_key_violation).

(** [UPDATE aggregates SET final = TRUE WHERE id = $1] *)
Definition finalize_aggregate (id : Buffer) : Statement unit :=
  λ d, inr (mkDb ((λ r, if bool_decide (aggregates.id r = id)
                        then aggregates.mk (aggregates.id r)
                               (aggregates.version r) (aggregates.timestamp r)
                               true
                        else r) <$> t_aggregates d)
                 (t_events d) (t_snapshots d) (t_projection_checkpoints d),
            tt).

(** [UPDATE events SET final = TRUE WHERE aggregate_id = $1] *)
Definition finalize_events (id : Buffer) : Statement unit :=
  λ d, inr (mkDb (t_aggregates d)
                 ((λ r, if bool_decide (events.aggregate_id r = id)
                        then events.mk (events.id r) (events.type r)
                               (events.aggregate_id r)
                               (events.aggregate_version r) (events.body r)
                               (events.meta r) (events.timestamp r) true
                        else r) <$> t_events d)
                 (t_snapshots d) (t_projection_checkpoints d),
            tt).

End Sql.

(** ** Ordering of [bytea] values and of event rows *)

(** Postgres compares [bytea] values byte by byte, a proper prefix first. *)
Fixpoint Buffer_compare (a b : Buffer) : comparison :=
  match a, b with
  | [], [] => Eq
  | [], _ :: _ => Lt
  | _ :: _, [] => Gt
  | x :: a', y :: b' =>
      match N.compare (Byte.to_N x) (Byte.to_N y) with
      | Eq => Buffer_compare a' b'
      | c => c
      end
  end.

(** [ORDER BY aggregate_id ASC, aggregate_version ASC] *)
Definition events_order (r1 r2 : events.row) : Prop :=
  match Buffer_compare (events.aggregate_id r1) (events.aggregate_id r2) with
  | Lt => True
  | Eq => (events.aggregate_version r1 ≤ events.aggregate_version r2)%Z
  | Gt => False
  end.

#[global] Instance events_order_dec : RelDecision events_order.
Proof.
  intros r1 r2. unfold events_order.
  destruct (Buffer_compare _ _); [apply _ | left; exact I | right; tauto].
Defined.

Module ListEventsParams.
(** [{ aggregate?: { id: Buffer; version?: number }; type?: number }] *)
Record aggregate_t := mkAggregate { id : Buffer; version : option Z }.
Record t := mk { aggregate : option aggregate_t; type : option Z }.
End ListEventsParams.

Module CheckpointParams.
(** [{ projection: string; aggregate: { id: Buffer; version: number } }] *)
Record t := mk { projection : string; aggregate : Aggregate.t }.
End CheckpointParams.

Module SqlQueries.
Local Open Scope Z_scope.

(** The [WHERE] clause [listEvents] assembles: the version bound is added
    only for a truthy [params.aggregate.version], the type test only when
    [params.type] is a number. *)
Definition listEvents_where (params : ListEventsParams.t) (r : events.row)
  : bool :=
  match ListEventsParams.aggregate params with
  | Some a =>
      bool_decide (events.aggregate_id r = ListEventsParams.id a)
      && match ListEventsParams.version a with
         | Some v => if v =? 0 then true else v <? events.aggregate_version r
         | None => true
         end
  | None => true
  end
  && match ListEventsParams.type params with
     | Some t => events.type r =? t
     | None => true
     end.

(** [SELECT * FROM events WHERE ... ORDER BY aggregate_id ASC,
    aggregate_version ASC] *)
Definition select_events (params : ListEventsParams.t)
  : Statement (list events.row) :=
  λ d, inr (d, merge_sort events_order
                 (filter (λ r, listEvents_where params r = true) (t_events d))).

(** [INSERT INTO snapshots (aggregate_id, aggregate_version, state,
    timestamp) VALUES (...)]; the primary key is
    [(aggregate_id, aggregate_version)]. *)
Definition insert_snapshot (r : snapshots.row) : Statement unit :=
  λ d, if bool_decide
            (Exists (λ r', snapshots.aggregate_id r' = snapshots.aggregate_id r
                           ∧ snapshots.aggregate_version r'
                             = snapshots.aggregate_version r)
                    (t_snapshots d))
       then inl (DatabaseError unique_violation)
       else inr (mkDb (t_aggregates d) (t_events d) (t_snapshots d ++ [r])
                      (t_projection_checkpoints d), tt).

(** [INSERT INTO projection_checkpoints (...) VALUES ($1, $2, $3, NOW())
     ON CONFLICT (projection, aggregate_id)
     DO UPDATE SET aggregate_version = $3, timestamp = NOW()] *)
Definition upsert_checkpoint (projection : string) (id : Buffer) (version : Z)
    (now : Z) : Statement unit :=
  λ d,
    let same (r : projection_checkpoints.row) : Prop :=
      projection_checkpoints.projection r = projection
      ∧ projection_checkpoints.aggregate_id r = id in
    let rows := t_projection_checkpoints d in
    inr (mkDb (t_aggregates d) (t_events d) (t_snapshots d)
              (if bool_decide (Exists same rows)
               then (λ r, if bool_decide (same r)
                          then projection_checkpoints.mk projection id version now
                          else r) <$> rows
               else rows ++ [projection_checkpoints.mk projection id version now]),
         tt).

(** The rows matched by
    [WHERE projection = $1 AND aggregate_id = $2 AND aggregate_version >= $3]. *)
Definition covers (projection : string) (id : Buffer) (version : Z)
    (r : projection_checkpoints.row) : Prop :=
  projection_checkpoints.projection r = projection
  ∧ projection_checkpoints.aggregate_id r = id
  ∧ version ≤ projection_checkpoints.aggregate_version r.

(** [SELECT 1 FROM projection_checkpoints WHERE ... LIMIT 1]; yields the
    row count. *)
Definition select_checkpoint (projection : string) (id : Buffer) (version : Z)
  : Statement Z :=
  λ d, inr (d, Z.of_nat (length (take 1 (filter (covers projection id version)
                                           (t_projection_checkpoints d))))).

(** [ORDER BY aggregate_version DESC] *)
Definition snapshots_order (r1 r2 : snapshots.row) : Prop :=
  snapshots.aggregate_version r2 ≤ snapshots.aggregate_version r1.

#[global] Instance snapshots_order_dec : RelDecision snapshots_order.
Proof. intros r1 r2. unfold snapshots_order. apply _. Defined.

(** [SELECT * FROM snapshots
     WHERE aggregate_id = $1 AND aggregate_version > $2
     ORDER BY aggregate_version DESC LIMIT 1] *)
Definition select_latest_snapshot (id : Buffer) (version : Z)
  : Statement (list snapshots.row) :=
  λ d, inr (d, take 1
                 (merge_sort snapshots_order
                    (filter (λ r, snapshots.aggregate_id r = id
                                  ∧ version < snapshots.aggregate_version r)
                            (t_snapshots d)))).

End SqlQueries.

(** ** The connection pool and its clients

    [faults] schedules driver errors: every request sent to the database
    (connecting, or a query) takes the head of the list, and fails with that
    code, without effect, when the head holds one.  [delays] records the
    waits of the retry loop, [now] is the clock of the database. *)

Record Pg := mkPg {
  tables : Db;
  faults : list (option string);
  delays : list Z;
  now : Z
}.

(** A client checked out of the pool: the tables as its session sees them,
    the tables at [BEGIN] while a transaction is open, and the clock. *)
Record Client := mkClient {
  cur : Db;
  snapshot : option Db;
  pending : list (option string);
  clock : Z
}.

Definition sleep (d : Z) (pg : Pg) : Pg :=
  mkPg (tables pg) (faults pg) (delays pg ++ [d]) (now pg).

(** One request to the database: the scheduled fault, or [op]. *)
Definition request {A} (op : M Client A) : M Client A :=
  λ c, match pending c with
       | Some code :: rest =>
           (mkClient (cur c) (snapshot c) rest (clock c),
            inl (DatabaseError code))
       | None :: rest => op (mkClient (cur c) (snapshot c) rest (clock c))
       | [] => op c
       end.

(** [client.query(statement)] *)
Definition query {A} (stmt : Statement A) : M Client A :=
  request (λ c, match stmt (cur c) with
                | inl e => (c, inl e)
                | inr (d, a) => (mkClient d (snapshot c) (pending c) (clock c), inr a)
                end).

(** [client.query('BEGIN')]; inside a transaction it changes nothing. *)
Definition BEGIN : M Client unit :=
  request (modify (λ c, mkClient (cur c)
                          (match snapshot c with
                           | Some d => Some d
                           | None => Some (cur c)
                           end) (pending c) (clock c))).

(** [client.query('COMMIT')] *)
Definition COMMIT : M Client unit :=
  request (modify (λ c, mkClient (cur c) None (pending c) (clock c))).

(** [client.query('ROLLBACK')]: the open transaction ends and its changes
    are gone.  No fault is scheduled for it: when the request itself is lost
    the server still aborts the transaction. *)
Definition ROLLBACK : M Client unit :=
  modify (λ c, mkClient (match snapshot c with Some d => d | None => cur c end)
                        None (pending c) (clock c)).

(** [pool.connect()] *)
Definition connect (pg : Pg) : Pg * (Error + Client) :=
  match faults pg with
  | Some code :: rest =>
      (mkPg (tables pg) rest (delays pg) (now pg), inl (DatabaseError code))
  | None :: rest =>
      (mkPg (tables pg) rest (delays pg) (now pg),
       inr (mkClient (tables pg) None rest (now pg)))
  | [] => (pg, inr (mkClient (tables pg) None [] (now pg)))
  end.

(** [client.release()]: what an open transaction changed stays invisible. *)
Definition release (c : Client) (pg : Pg) : Pg :=
  mkPg (match snapshot c with Some d => d | None => cur c end)
       (pending c) (delays pg) (now pg).

(** [const client = await pool.connect(); try { body } finally
    { client.release() }] *)
Definition with_client {A} (body : M Client A) : M Pg A :=
  λ pg, match connect pg with
        | (pg', inl e) => (pg', inl e)
        | (pg', inr client) =>
            let '(c', r) := body client in (release c' pg', r)
        end.

(** [const client = await pool.connect();
     try { await client.query('BEGIN'); statements;
           await client.query('COMMIT') }
     catch (err) { await client.query('ROLLBACK'); throw err }
     finally { client.release() }], the frame of [saveEvents] and
    [finalizeAggregate]. *)
Definition transaction {A} (statements : M Client A) : M Pg unit :=
  with_client
    (try_catch (bind BEGIN (λ _, bind statements (λ _, COMMIT)))
               (λ err, bind ROLLBACK (λ _, throw err))).

(** ** PostgresStoreAdapter *)

Module NewEvent.
(** [Pick<Event, 'id' | 'type' | 'body' | 'meta'>] *)
Record t := mk {
  id : EventId.t;
  type : Z;
  body : option JsObject;
  meta : JsObject
}.
End NewEvent.

Module SaveEventsParams.
Record t := mk {
  aggregate : Aggregate.t;
  timestamp : Z;
  events : list NewEvent.t;
  meta : option JsObject
}.
End SaveEventsParams.

Module PostgresStoreAdapter.
Section adapter.
Local Open Scope Z_scope.
Local Open Scope am_scope.

(** [this.joser] *)
Context {joser : Joser}.

(** [Buffer.prototype.toJSON], which [JSON.stringify] calls:
    [{ type: 'Buffer', data: [...] }]. *)
Definition Buffer_toJSON (b : Buffer) : Value :=
  VObject {[ "type"%string := VString "Buffer";
             "data"%string := VArray ((λ x, VNumber (Z.of_N (Byte.to_N x))) <$> b) ]}.

(** [JSON.stringify(this.serialize(value))], as the document the column
    holds: [this.serialize] lets [null], numbers, strings, booleans and
    buffers through and hands everything else to [joser.serialize]. *)
Definition serialize (value : Value) : Value :=
  match value with
  | VNull | VNumber _ | VString _ | VBoolean _ => value
  | VBuffer b => Buffer_toJSON b
  | _ => joser_serialize value
  end.

(** [this.deserialize(value)] of a column the driver has parsed: [null],
    numbers, strings and booleans (and buffers, which a parsed document does
    not hold) are let through, everything else is handed to
    [joser.deserialize]. *)
Definition deserialize (value : Value) : Value :=
  match value with
  | VNull | VNumber _ | VString _ | VBoolean _ | VBuffer _ => value
  | _ => joser_deserialize value
  end.

(** A value as it comes back from a [JSONB] column it was written to. *)
Definition stored (value : Value) : Value := deserialize (serialize value).

(** [event.body], an object or [null], as a value. *)
Definition body_value (body : option JsObject) : Value :=
  match body with Some o => VObject o | None => VNull end.

(** What [listEvents] yields is cast to the event type: a body read back
    is [null] or an object, metadata are an object; a value that is neither
    is read as an object without properties. *)
Definition as_object (v : Value) : JsObject :=
  match v with VObject o => o | _ => ∅ end.

Definition as_body (v : Value) : option JsObject :=
  match v with VNull => None | _ => Some (as_object v) end.

(** The retry part of [PostgresStoreAdapterOptions] as a caller passes it;
    [None] is an option left out. *)
Record UserOptions := mkUserOptions {
  user_retryStartingDelay : option Z;
  user_retryMaxDelay : option Z;
  user_retryMaxAttempts : option Z
}.

Definition no_options : UserOptions := mkUserOptions None None None.

(** [this.opts] *)
Record Options := mkOptions {
  retryStartingDelay : Z;
  retryMaxDelay : Z;
  retryMaxAttempts : Z
}.

(** The constructor's [{ retryStartingDelay: 100, retryMaxDelay: 1600,
    retryMaxAttempts: 20, ...opts }]. *)
Definition constructor (opts : UserOptions) : Options :=
  mkOptions (default 100 (user_retryStartingDelay opts))
            (default 1600 (user_retryMaxDelay opts))
            (default 20 (user_retryMaxAttempts opts)).

(** The [retry] callback of [saveEvents] and [finalizeAggregate]:
    [['40001', '40P01'].includes(err.code)]; the callback of [saveEvents]
    also logs its decision. *)
Definition retryCodes : list string := ["40001"; "40P01"]%string.

Definition shouldRetry (err : Error) : bool :=
  match error_code err with
  | Some code => bool_decide (code ∈ retryCodes)
  | None => false
  end.

(** The options [saveEvents] hands to [backOff]: [startingDelay],
    [maxDelay], [numOfAttempts] and [retry]; the rest are the package's
    defaults. *)
Definition saveEvents_backoff (opts : Options) : ExponentialBackoff.Options :=
  let d := ExponentialBackoff.defaults in
  ExponentialBackoff.mkOptions
    (ExponentialBackoff.delayFirstAttempt d)
    (Some (retryMaxDelay opts))
    (retryMaxAttempts opts)
    (retryStartingDelay opts)
    (ExponentialBackoff.timeMultiple d)
    shouldRetry.

(** The row [saveEvents] inserts for the event at [index] of the batch. *)
Definition event_row (params : SaveEventsParams.t) (index : Z)
    (event : NewEvent.t) : events.row :=
  events.mk (EventId.buffer (NewEvent.id event))
            (NewEvent.type event)
            (Aggregate.id (SaveEventsParams.aggregate params))
            (Aggregate.version (SaveEventsParams.aggregate params) + index)
            (serialize (body_value (NewEvent.body event)))
            (serialize (VObject (spread_opt (NewEvent.meta event)
                                            (SaveEventsParams.meta params))))
            (SaveEventsParams.timestamp params)
            false.

(** The [for] loop over [params.events], from [index] on. *)
Fixpoint insertEvents (params : SaveEventsParams.t) (index : Z)
    (rest : list NewEvent.t) : M Client unit :=
  match rest with
  | [] => ret tt
  | event :: rest' =>
      run! query (Sql.insert_event (event_row params index event)) in
      insertEvents params (index + 1) rest'
  end.

(** The statements of [saveEvents] between [BEGIN] and [COMMIT]. *)
Definition saveEvents_statements (params : SaveEventsParams.t) : M Client unit :=
  let id := Aggregate.id (SaveEventsParams.aggregate params) in
  let version := Aggregate.version (SaveEventsParams.aggregate params) in
  let n := Z.of_nat (length (SaveEventsParams.events params)) in
  let! aggRes := query (Sql.select_final id) in
  run! (if default false (head aggRes)
        then throw (AggregateIsFinalError id)
        else ret tt) in
  run! (if version =? 1
        then try_catch
               (query (Sql.insert_aggregate id n
                         (SaveEventsParams.timestamp params)))
               (λ err, if bool_decide (error_code err = Some unique_violation)
                       then throw (AggregateVersionConflictError id version)
                       else throw err)
        else
          let! rowCount := query (Sql.update_aggregate (version + n - 1)
                                    (SaveEventsParams.timestamp params) id
                                    (version - 1)) in
          if rowCount =? 0
          then throw (AggregateVersionConflictError id version)
          else ret tt) in
  insertEvents params 0 (SaveEventsParams.events params).

(** The function [saveEvents] hands to [backOff]: one transaction, rolled
    back when anything in it throws. *)
Definition saveEvents_attempt (params : SaveEventsParams.t) : M Pg unit :=
  transaction (saveEvents_statements params).

Definition saveEvents (opts : Options) (params : SaveEventsParams.t)
  : M Pg unit :=
  if 0 <? Aggregate.version (SaveEventsParams.aggregate params)
  then ExponentialBackoff.backOff sleep (saveEvents_attempt params)
         (saveEvents_backoff opts)
  else throw (AssertionError "aggregate version must be greater than 0").

(** The event [listEvents] yields for a row. *)
Definition event_of_row (r : events.row) : Event.t JsObject :=
  Event.mk (EventId.from (events.id r)) (events.type r)
           (Aggregate.mk (events.aggregate_id r) (events.aggregate_version r))
           (as_body (deserialize (events.body r)))
           (as_object (deserialize (events.meta r)))
           (events.timestamp r).

(** [listEvents]: the rows are fetched at once and yielded in order, so the
    iterator is the list of its events.  (The source releases the client
    after the query and not in a [finally]; the tables do not tell the
    difference.) *)
Definition listEvents (params : ListEventsParams.t)
  : M Pg (list (Event.t JsObject)) :=
  with_client
    (let! rows := query (SqlQueries.select_events params) in
     ret (event_of_row <$> rows)).

(** [saveSnapshot]: the queue runs one task at a time, which a sequential
    model does anyway. *)
Definition saveSnapshot (params : Snapshot.t) : M Pg unit :=
  with_client
    (query (SqlQueries.insert_snapshot
              (snapshots.mk (Aggregate.id (Snapshot.aggregate params))
                            (Aggregate.version (Snapshot.aggregate params))
                            (serialize (Snapshot.state params))
                            (Snapshot.timestamp params)))).

(** [findLatestSnapshot({ aggregate })], with [params] for
    [params.aggregate]: [null] when the query has no row, else the snapshot
    of its first row. *)
Definition findLatestSnapshot (params : Aggregate.t) : M Pg (option Snapshot.t) :=
  with_client
    (let! rows := query (SqlQueries.select_latest_snapshot
                           (Aggregate.id params) (Aggregate.version params)) in
     match rows with
     | [] => ret None
     | row :: _ =>
         ret (Some (Snapshot.mk
                      (Aggregate.mk (snapshots.aggregate_id row)
                                    (snapshots.aggregate_version row))
                      (deserialize (snapshots.state row))
                      (snapshots.timestamp row)))
     end).

Definition saveProjectionCheckpoint (params : CheckpointParams.t) : M Pg unit :=
  with_client
    (λ c, query (SqlQueries.upsert_checkpoint
                   (CheckpointParams.projection params)
                   (Aggregate.id (CheckpointParams.aggregate params))
                   (Aggregate.version (CheckpointParams.aggregate params))
                   (clock c)) c).

Definition checkProjectionCheckpoint (params : CheckpointParams.t)
  : M Pg bool :=
  with_client
    (let! rowCount := query (SqlQueries.select_checkpoint
                               (CheckpointParams.projection params)
                               (Aggregate.id (CheckpointParams.aggregate params))
                               (Aggregate.version (CheckpointParams.aggregate params))) in
     ret (rowCount =? 0)).

(** The options [finalizeAggregate] hands to [backOff]:
    [{ retry, ...this.opts }], where the adapter's options carry none of the
    keys [backOff] reads. *)
Definition finalizeAggregate_backoff : ExponentialBackoff.Options :=
  let d := ExponentialBackoff.defaults in
  ExponentialBackoff.mkOptions
    (ExponentialBackoff.delayFirstAttempt d) (ExponentialBackoff.maxDelay d)
    (ExponentialBackoff.numOfAttempts d) (ExponentialBackoff.startingDelay d)
    (ExponentialBackoff.timeMultiple d) shouldRetry.

Definition finalizeAggregate_attempt (id : Buffer) : M Pg unit :=
  transaction
    (run! query (Sql.finalize_aggregate id) in
     query (Sql.finalize_events id)).

Definition finalizeAggregate (id : Buffer) : M Pg unit :=
  ExponentialBackoff.backOff sleep (finalizeAggregate_attempt id)
    finalizeAggregate_backoff.

End adapter.
End PostgresStoreAdapter.


(** ** lru-cache

    The cache of the config adapters, as the npm package behaves with the
    options the adapters pass ([max] and [ttl]): entries are kept most
    recently used first; an entry is stale once it is older than [ttl]; a
    stale entry is dropped by the [get] that meets it; [set] evicts the least
    recently used entry when the cache is full.  The current time is an
    argument. *)
Module LRUCache.
Local Open Scope Z_scope.

Section cache.
Context {V : Type}.

Record entry := mkEntry { key : Z; value : V; start : Z }.

Record t := mk { max : nat; ttl : Z; entries : list entry }.

Definition new (max : nat) (ttl : Z) : t := mk max ttl [].

Definition isStale (c : t) (now : Z) (e : entry) : bool :=
  negb (ttl c =? 0) && negb (start e =? 0) && (ttl c <? now - start e).

Definition without (k : Z) (l : list entry) : list entry :=
  filter (λ e, key e ≠ k) l.

Definition get (k : Z) (now : Z) (c : t) : option V * t :=
  match List.find (λ e, bool_decide (key e = k)) (entries c) with
  | None => (None, c)
  | Some e =>
      if isStale c now e
      then (None, mk (max c) (ttl c) (without k (entries c)))
      else (Some (value e), mk (max c) (ttl c) (e :: without k (entries c)))
  end.

Definition set (k : Z) (v : V) (now : Z) (c : t) : t :=
  let others := without k (entries c) in
  mk (max c) (ttl c)
     (mkEntry k v now ::
      (if bool_decide (max c ≠ 0%nat ∧ (max c ≤ length others)%nat)
       then take (max c - 1) others
       else others)).

End cache.
Arguments entry : clear implicits.
Arguments t : clear implicits.
End LRUCache.

(** ** Config adapters *)

Module StreamParams.
(** [{ id: string; events: number[] }] *)
Record t := mk { id : string; events : list Z }.
End StreamParams.

Module streams.
(** A row of the table [streams], a document of the collection [Stream]. *)
Record row := mk { id : string; events : list Z; timestamp : Z }.
End streams.

(** [ON CONFLICT (id) DO UPDATE SET events = $2, timestamp = NOW()], and
    [updateOne({ _id }, { $set: { events, timestamp } }, { upsert: true })]. *)
Definition upsert_stream (params : StreamParams.t) (now : Z)
    (rows : list streams.row) : list streams.row :=
  let r := streams.mk (StreamParams.id params) (StreamParams.events params) now in
  if bool_decide (Exists (λ r', streams.id r' = StreamParams.id params) rows)
  then (λ r', if bool_decide (streams.id r' = StreamParams.id params)
              then r else r') <$> rows
  else rows ++ [r].

(** [SELECT id FROM streams WHERE $1 = ANY(events)], and
    [find({ events: event })] mapped to [_id]. *)
Definition streams_of (event : Z) (rows : list streams.row) : list string :=
  streams.id <$> filter (λ r, event ∈ streams.events r) rows.

Module ConfigOptions.
Record t := mk { cacheMax : option nat; cacheTTL : option Z }.
Definition none : t := mk None None.
End ConfigOptions.

(** The state of a config adapter: the registrations in the database, the
    cache of this adapter instance, and the clock both read.  The requests of
    the config adapters to their database are taken to succeed. *)
Record ConfigState := mkConfigState {
  registrations : list streams.row;
  cache : LRUCache.t (list string);
  config_clock : Z
}.

(** Time passes. *)
Definition at_time (t : Z) (a : ConfigState) : ConfigState :=
  mkConfigState (registrations a) (cache a) t.

Module PostgresConfigAdapter.
Local Open Scope Z_scope.

(** [{ cacheMax: 2500, cacheTTL: 1000 * 60 * 60, ...opts }], on a database
    that holds [rows]. *)
Definition constructor (opts : ConfigOptions.t) (rows : list streams.row)
    (now : Z) : ConfigState :=
  mkConfigState rows
    (LRUCache.new (default 2500%nat (ConfigOptions.cacheMax opts))
                  (default (1000 * 60 * 60) (ConfigOptions.cacheTTL opts)))
    now.

Definition saveStream (params : StreamParams.t) : M ConfigState unit :=
  modify (λ a, mkConfigState
                 (upsert_stream params (config_clock a) (registrations a))
                 (cache a) (config_clock a)).

(** [let streams = this.cache.get(event); if (streams) return streams; ...]:
    an array is truthy in JavaScript, the empty one included, so whatever
    the cache holds for the key is returned. *)
Definition findStreams (event : Z) : M ConfigState (list string) :=
  λ a,
    match LRUCache.get event (config_clock a) (cache a) with
    | (Some streams, cache') =>
        (mkConfigState (registrations a) cache' (config_clock a), inr streams)
    | (None, cache') =>
        let streams := streams_of event (registrations a) in
        (mkConfigState (registrations a)
           (LRUCache.set event streams (config_clock a) cache')
           (config_clock a),
         inr streams)
    end.

End PostgresConfigAdapter.

Module MongoConfigAdapter.
Local Open Scope Z_scope.

Definition constructor (opts : ConfigOptions.t) (docs : list streams.row)
    (now : Z) : ConfigState :=
  mkConfigState docs
    (LRUCache.new (default 2500%nat (ConfigOptions.cacheMax opts))
                  (default (1000 * 60 * 60) (ConfigOptions.cacheTTL opts)))
    now.

Definition saveStream (params : StreamParams.t) : M ConfigState unit :=
  modify (λ a, mkConfigState
                 (upsert_stream params (config_clock a) (registrations a))
                 (cache a) (config_clock a)).

(** [StreamModel.find({ events: event })]: the matching documents, always an
    array. *)
Definition find (event : Z) (docs : list streams.row)
  : option (list streams.row) :=
  Some (filter (λ r, event ∈ streams.events r) docs).

Definition findStreams (event : Z) : M ConfigState (list string) :=
  λ a,
    match LRUCache.get event (config_clock a) (cache a) with
    | (Some streams, cache') =>
        (mkConfigState (registrations a) cache' (config_clock a), inr streams)
    | (None, cache') =>
        match find event (registrations a) with
        | None =>
            (* [if (!docs) return []] *)
            (mkConfigState (registrations a) cache' (config_clock a), inr [])
        | Some docs =>
            let streams := streams.id <$> docs in
            (mkConfigState (registrations a)
               (LRUCache.set event streams (config_clock a) cache')
               (config_clock a),
             inr streams)
        end
    end.

End MongoConfigAdapter.

(** ** The adapter interfaces

    The declarations of [./adapters] are not among the sources at hand; the
    classes below have the methods the broker and the projection call, with
    the arguments they pass.  An implementation keeps its own state and may
    fail. *)

Module Subscriber.
(** What [subscribe] resolves to: the handle of one subscription. *)
Record t := mk { stream : string }.
End Subscriber.

Module Batch.
(** [{ stream: string; events: Event[] }] *)
Record t (B : Type) := mk { stream : string; events : list (Event.t B) }.
Arguments mk {B}.
Arguments stream {B}.
Arguments events {B}.
End Batch.

Class ConfigAdapter (C : Type) := {
  saveStream : StreamParams.t → M C unit;
  findStreams : Z → M C (list string)
}.

Class StreamAdapter (S : Type) := {
  (** [sendEvents(batches, { raw })] *)
  sendEvents : ∀ {B : Type}, list (Batch.t B) → bool → M S unit;
  (** [subscribe(stream, handler, { raw })]; the handler is the method of
      the subscribing object, called by the adapter for every message. *)
  subscribe : string → bool → M S Subscriber.t;
  (** [subscriber.stop()] *)
  stop : Subscriber.t → M S unit
}.

Class StoreAdapter (S : Type) := {
  checkProjectionCheckpoint : CheckpointParams.t → M S bool;
  saveProjectionCheckpoint : CheckpointParams.t → M S unit
}.

#[global] Instance PostgresConfigAdapter_ConfigAdapter : ConfigAdapter ConfigState :=
  {| saveStream := PostgresConfigAdapter.saveStream;
     findStreams := PostgresConfigAdapter.findStreams |}.

#[global] Instance PostgresStoreAdapter_StoreAdapter : StoreAdapter Pg :=
  {| checkProjectionCheckpoint := PostgresStoreAdapter.checkProjectionCheckpoint;
     saveProjectionCheckpoint := PostgresStoreAdapter.saveProjectionCheckpoint |}.

(** ** Broker *)

Module Broker.
Local Open Scope am_scope.

(** What the broker does to the world around it, in order.  Log lines are
    recorded by their fixed text, without the pictograph that leads it. *)
Inductive Effect :=
| ConsoleLog (message : string)
| LoggerWarn (message : string) (type : Z)
| FindStreams (type : Z)
| SendEvents (batches : list (Batch.t Buffer)) (raw : bool)
| Subscribe (stream : string) (raw : bool)
| Stop (subscriber : Subscriber.t).

(** The broker object. *)
Record t := mk { subscriber : option Subscriber.t }.

Section broker.
Context {C S : Type} `{ConfigAdapter C} `{StreamAdapter S}.

(** The broker with its two adapters and the record of its effects. *)
Record Env := mkEnv {
  self : t;
  config : C;
  stream : S;
  effects : list Effect
}.

Definition constructor (config : C) (stream : S) : Env :=
  mkEnv (mk None) config stream [].

Definition emit (e : Effect) : M Env unit :=
  modify (λ w, mkEnv (self w) (config w) (stream w) (effects w ++ [e])).

Definition on_config {A} (m : M C A) : M Env A :=
  λ w, let '(c, r) := m (config w) in
       (mkEnv (self w) c (stream w) (effects w), r).

Definition on_stream {A} (m : M S A) : M Env A :=
  λ w, let '(s, r) := m (stream w) in
       (mkEnv (self w) (config w) s (effects w), r).

(** The handler [start] subscribes with: what the broker does with an
    event received from the stream "main". *)
Definition onEvent (event : Event.t Buffer) : M Env unit :=
  run! emit (ConsoleLog "Broker received event from main:") in
  run! emit (FindStreams (Event.type event)) in
  let! streams := on_config (findStreams (Event.type event)) in
  run! emit (ConsoleLog "Found streams for event type") in
  if (length streams =? 0)%nat
  then
    run! emit (LoggerWarn "no streams found for event type:" (Event.type event)) in
    ret tt
  else
    let batches := (λ stream, Batch.mk stream [event]) <$> streams in
    run! emit (ConsoleLog "Broker routing event to streams:") in
    run! emit (SendEvents batches true) in
    run! on_stream (sendEvents batches true) in
    emit (ConsoleLog "Broker successfully routed event").

Definition start : M Env unit :=
  run! emit (ConsoleLog "Broker starting, subscribing to main stream...") in
  run! emit (Subscribe "main" true) in
  let! subscriber := on_stream (subscribe "main" true) in
  modify (λ w, mkEnv (mk (Some subscriber)) (config w) (stream w) (effects w)).

Definition stop : M Env unit :=
  λ w, match subscriber (self w) with
       | Some s => (run! emit (Stop s) in on_stream (stop s)) w
       | None => (w, inr tt)
       end.

End broker.
Arguments Env : clear implicits.
End Broker.

(** ** JavaScript's [Map], with its insertion order *)

Module JsMap.
Section map.
Context {V : Type}.

Definition t := list (Z * V).

Fixpoint set (k : Z) (v : V) (m : t) : t :=
  match m with
  | [] => [(k, v)]
  | (k', v') :: m' =>
      if decide (k' = k) then (k, v) :: m' else (k', v') :: set k v m'
  end.

Fixpoint get (k : Z) (m : t) : option V :=
  match m with
  | [] => None
  | (k', v') :: m' => if decide (k' = k) then Some v' else get k m'
  end.

(** [new Map(entries)] *)
Definition of_entries (entries : list (Z * V)) : t :=
  fold_left (λ m kv, set kv.1 kv.2 m) entries [].

(** [[...map.values()]] *)
Definition values (m : t) : list V := snd <$> m.

End map.
Arguments t : clear implicits.
End JsMap.

(** [[...new Set(items).values()]]: the items without repetition, each
    where it first occurs. *)
Fixpoint distinct (items : list Z) : list Z :=
  match items with
  | [] => []
  | x :: rest => x :: filter (λ y, y ≠ x) (distinct rest)
  end.

(** ** Projection *)

Module Projection.
Local Open Scope am_scope.

Inductive Effect :=
| LoggerWarn (message : string)
| LoggerVerbose (message : string)
| CheckProjectionCheckpoint (params : CheckpointParams.t)
| Handle (type : Z) (event : Event.t JsObject)
| SaveProjectionCheckpoint (params : CheckpointParams.t)
| SaveStream (params : StreamParams.t)
| Subscribe (stream : string) (raw : bool)
| Stop (subscriber : Subscriber.t).

Section projection.
Context {TState Store Stream Config : Type}.
Context `{StoreAdapter Store} `{StreamAdapter Stream} `{ConfigAdapter Config}.

(** [{ type, handle }]; [handle({ state }, event)] works on the state object
    of the projection and may throw. *)
Record ProjectionEventHandler := mkHandler {
  type : Z;
  handle : TState → Event.t JsObject → TState * (Error + unit)
}.

(** The projection object. *)
Record t := mk {
  eventHandlers : JsMap.t ProjectionEventHandler;
  subscriber : option Subscriber.t;
  timestampLastEventReceived : Z;
  _id : string;
  _state : TState;
  disableSaveStream : bool
}.

(** The projection, its adapters, the record of its effects, and the
    clock [Date.now()] reads. *)
Record World := mkWorld {
  self : t;
  store : Store;
  stream : Stream;
  config : Config;
  effects : list Effect;
  date_now : Z
}.

Definition constructor (store : Store) (stream : Stream) (config : Config)
    (eventHandlers : list ProjectionEventHandler) (id : string)
    (state : TState) (disableSaveStream : bool) (now : Z) : World :=
  mkWorld (mk (JsMap.of_entries ((λ item, (type item, item)) <$> eventHandlers))
              None now id state disableSaveStream)
          store stream config [] now.

Definition emit (e : Effect) : M World unit :=
  modify (λ w, mkWorld (self w) (store w) (stream w) (config w)
                       (effects w ++ [e]) (date_now w)).

Definition on_store {A} (m : M Store A) : M World A :=
  λ w, let '(s, r) := m (store w) in
       (mkWorld (self w) s (stream w) (config w) (effects w) (date_now w), r).

Definition on_stream {A} (m : M Stream A) : M World A :=
  λ w, let '(s, r) := m (stream w) in
       (mkWorld (self w) (store w) s (config w) (effects w) (date_now w), r).

Definition on_config {A} (m : M Config A) : M World A :=
  λ w, let '(c, r) := m (config w) in
       (mkWorld (self w) (store w) (stream w) c (effects w) (date_now w), r).

Definition set_self (f : t → t) : M World unit :=
  modify (λ w, mkWorld (f (self w)) (store w) (stream w) (config w)
                       (effects w) (date_now w)).

(** [await handle({ state: this._state }, event)] *)
Definition call_handle (handler : ProjectionEventHandler)
    (event : Event.t JsObject) : M World unit :=
  run! emit (Handle (type handler) event) in
  λ w, let '(state, r) := handle handler (_state (self w)) event in
       (mkWorld (mk (eventHandlers (self w)) (subscriber (self w))
                    (timestampLastEventReceived (self w)) (_id (self w))
                    state (disableSaveStream (self w)))
                (store w) (stream w) (config w) (effects w) (date_now w), r).

Definition handleEvent (event : Event.t JsObject) : M World unit :=
  run! (λ w, set_self (λ p, mk (eventHandlers p) (subscriber p) (date_now w)
                               (_id p) (_state p) (disableSaveStream p)) w) in
  λ w,
    match JsMap.get (Event.type event) (eventHandlers (self w)) with
    | None =>
        (run! emit (LoggerWarn "handler does not exist") in ret tt) w
    | Some handler =>
        let params := CheckpointParams.mk (_id (self w)) (Event.aggregate event) in
        (run! emit (CheckProjectionCheckpoint params) in
         let! shouldProcess := on_store (checkProjectionCheckpoint params) in
         if shouldProcess : bool
         then
           run! try_catch (call_handle handler event)
                  (λ err,
                     run! emit (LoggerWarn "error occured while handling event") in
                     throw err) in
           run! emit (SaveProjectionCheckpoint params) in
           run! on_store (saveProjectionCheckpoint params) in
           emit (LoggerVerbose "event handled")
         else
           emit (LoggerVerbose "Skipping event (already processed)")) w
    end.

Definition start : M World unit :=
  λ w,
    match subscriber (self w) with
    | Some _ => (w, inl (JsError "already started"))
    | None =>
        (run! (if disableSaveStream (self w)
               then ret tt
               else
                 let eventTypes :=
                   distinct (type <$> JsMap.values (eventHandlers (self w))) in
                 let params := StreamParams.mk (_id (self w)) eventTypes in
                 run! emit (SaveStream params) in
                 on_config (saveStream params)) in
         run! emit (Subscribe (_id (self w)) false) in
         let! s := on_stream (subscribe (_id (self w)) false) in
         set_self (λ p, mk (eventHandlers p) (Some s)
                           (timestampLastEventReceived p) (_id p) (_state p)
                           (disableSaveStream p))) w
    end.

Definition stop : M World unit :=
  λ w, match subscriber (self w) with
       | Some s => (run! emit (Stop s) in on_stream (stop s)) w
       | None => (w, inr tt)
       end.

End projection.
Arguments ProjectionEventHandler : clear implicits.
Arguments t : clear implicits.
Arguments World : clear implicits.
End Projection.

(** ** The wire codec of the Kafka stream adapter *)

Module Serialization.
Local Open Scope Z_scope.

(** Modelled from the spec: the generated flatbuffers code
    ([./flatbuffers/event_generated]) is not among the sources at hand.  The
    spec gives the fields of the table: id (bytes), type (u32), aggregate.id
    (bytes), aggregate.version (u32), body (bytes, optional), meta (bytes),
    timestamp (u32, seconds since the epoch).  A message is kept as the
    record of its fields, and a u32 field holds its value modulo 2^32. *)
Record FlatbuffersEvent := mkFlatbuffersEvent {
  id : Buffer;
  type : Z;
  aggregate_id : Buffer;
  aggregate_version : Z;
  body : option Buffer;
  meta : Buffer;
  timestamp : Z
}.

Definition u32 (n : Z) : Z := n mod 2 ^ 32.

(** The body of an event that is not [null]: a buffer on a raw stream, a
    record otherwise. *)
Definition Body (raw : bool) : Type := if raw then Buffer else JsObject.

Section joser.
(** The serializer table of the dependency [@scaleforge/joser] with JSON is a
    parameter: [encode v] is
    [Buffer.from(JSON.stringify(joser.serialize(v)), 'utf8')], and [decode b]
    is [joser.deserialize(JSON.parse(b.toString('utf8')))]. *)
Variable encode : JsObject → Buffer.
Variable decode : Buffer → JsObject.

Definition encode_body (raw : bool) : Body raw → Buffer :=
  match raw with
  | true => λ b, b
  | false => λ v, encode v
  end.

Definition decode_body (raw : bool) : Buffer → Body raw :=
  match raw with
  | true => λ b, b
  | false => λ b, decode b
  end.

(** [serialize(event, joser, raw)]: the body is added when [event.body] is
    truthy, and an object or a buffer always is; the timestamp is
    [Math.floor(event.timestamp.getTime() / 1000)]. *)
Definition serialize (raw : bool) (event : Event.t (Body raw))
  : FlatbuffersEvent :=
  mkFlatbuffersEvent
    (EventId.buffer (Event.id event))
    (u32 (Event.type event))
    (Aggregate.id (Event.aggregate event))
    (u32 (Aggregate.version (Event.aggregate event)))
    (encode_body raw <$> Event.body event)
    (encode (Event.meta event))
    (u32 (Event.timestamp event / 1000)).

(** [deserialize(data, joser, raw)]: the timestamp is
    [new Date(event.timestamp() * 1000)]. *)
Definition deserialize (raw : bool) (data : FlatbuffersEvent)
  : Event.t (Body raw) :=
  Event.mk (EventId.from (id data))
           (type data)
           (Aggregate.mk (aggregate_id data) (aggregate_version data))
           (decode_body raw <$> body data)
           (decode (meta data))
           (timestamp data * 1000).

End joser.
End Serialization.
(** ** The serializer table of the stream adapter

    Modelled from the spec: the table the stream adapter hands to the wire
    codec is the package [@scaleforge/joser] with [JSON], whose code is not
    part of the repository.  The spec asks of it "a canonical JSON-like
    encoding" of bodies and metadata that round-trips "null, numbers,
    strings, booleans, byte strings (tagged), and timestamps (tagged,
    millisecond precision)".  The encoding below is such a one: a JSON text
    in which every string is written escape by escape, a byte string is the
    object with the one key [$bytes] and a timestamp the object with the one
    key [$date] and its milliseconds; a value of another kind is written
    [null]. *)

Module Canonical.
Local Open Scope Z_scope.

(** The characters of the syntax. *)
Definition quote : byte := Byte.x22.
Definition backslash : byte := Byte.x5c.

(** *** Bytes in hexadecimal *)

Definition hex_digits : list byte :=
  String.list_byte_of_string "0123456789abcdef".

Definition hex_digit (n : nat) : byte := nth n hex_digits Byte.x30.

Definition hex_value (c : byte) : option nat :=
  fst <$> list_find (λ d, d = c) hex_digits.

Definition hex_of_byte (b : byte) : list byte :=
  let n := N.to_nat (Byte.to_N b) in
  [hex_digit (n / 16); hex_digit (n mod 16)].

Definition byte_of_hex (high low : byte) : option byte :=
  h ← hex_value high; l ← hex_value low; Byte.of_N (N.of_nat (16 * h + l)).

(** *** Text: a string written escape by escape *)

Definition escape_prefix : list byte :=
  backslash :: String.list_byte_of_string "u00".

Definition escaped (b : byte) : list byte := escape_prefix ++ hex_of_byte b.

Definition text_of (bytes : list byte) : list byte :=
  quote :: mbind escaped bytes ++ [quote].

(** The bytes up to the closing quote. *)
Fixpoint parse_escaped (input : list byte) : option (list byte * list byte) :=
  match input with
  | [] => None
  | c :: rest =>
      if decide (c = quote) then Some ([], rest)
      else
        match rest with
        | u :: z1 :: z2 :: high :: low :: rest' =>
            if decide ([c; u; z1; z2] = escape_prefix)
            then
              b ← byte_of_hex high low;
              '(bytes, rest'') ← parse_escaped rest';
              Some (b :: bytes, rest'')
            else None
        | _ => None
        end
  end.

Definition parse_text (input : list byte) : option (list byte * list byte) :=
  match input with
  | c :: rest => if decide (c = quote) then parse_escaped rest else None
  | [] => None
  end.


(** *** Numbers in decimal *)

Definition bytes_of (s : string) : list byte := String.list_byte_of_string s.

Definition number_text (n : Z) : list byte :=
  bytes_of (NilZero.string_of_int (Z.to_int n)).

(** A digit or the sign. *)
Definition numeric (c : byte) : bool :=
  bool_decide (c ∈ bytes_of "-0123456789").

(** The longest numeric prefix, and what follows it. *)
Fixpoint span_numeric (input : list byte) : list byte * list byte :=
  match input with
  | c :: rest =>
      if numeric c
      then let '(digits, rest') := span_numeric rest in (c :: digits, rest')
      else ([], input)
  | [] => ([], [])
  end.

Definition parse_number (input : list byte) : option (Z * list byte) :=
  let '(digits, rest) := span_numeric input in
  d ← NilZero.int_of_string (String.string_of_list_byte digits);
  Some (Z.of_int d, rest).

(** *** Values *)

(** [input] without the prefix [expected]. *)
Fixpoint after (expected input : list byte) : option (list byte) :=
  match expected, input with
  | [], _ => Some input
  | e :: expected', c :: input' =>
      if decide (c = e) then after expected' input' else None
  | _ :: _, [] => None
  end.

(** The tags of byte strings and of timestamps. *)
Definition bytes_tag : list byte :=
  bytes_of "{" ++ text_of (bytes_of "$bytes") ++ bytes_of ":".

Definition date_tag : list byte :=
  bytes_of "{" ++ text_of (bytes_of "$date") ++ bytes_of ":".

Definition value_text (v : Value) : list byte :=
  match v with
  | VNull => bytes_of "null"
  | VBoolean true => bytes_of "true"
  | VBoolean false => bytes_of "false"
  | VNumber n => number_text n
  | VString s => text_of (bytes_of s)
  | VBuffer b => bytes_tag ++ text_of b ++ bytes_of "}"
  | VDate ms => date_tag ++ number_text ms ++ bytes_of "}"
  | VArray _ | VObject _ => bytes_of "null"
  end.

Definition parse_value (input : list byte) : option (Value * list byte) :=
  match after (bytes_of "null") input with
  | Some rest => Some (VNull, rest)
  | None =>
  match after (bytes_of "true") input with
  | Some rest => Some (VBoolean true, rest)
  | None =>
  match after (bytes_of "false") input with
  | Some rest => Some (VBoolean false, rest)
  | None =>
  match after bytes_tag input with
  | Some rest =>
      '(b, rest') ← parse_text rest;
      rest'' ← after (bytes_of "}") rest';
      Some (VBuffer b, rest'')
  | None =>
  match after date_tag input with
  | Some rest =>
      '(ms, rest') ← parse_number rest;
      rest'' ← after (bytes_of "}") rest';
      Some (VDate ms, rest'')
  | None =>
  match parse_text input with
  | Some (s, rest) => Some (VString (String.string_of_list_byte s), rest)
  | None =>
      '(n, rest) ← parse_number input; Some (VNumber n, rest)
  end end end end end end.

(** *** Objects *)

Definition entry_text (entry : string * Value) : list byte :=
  text_of (bytes_of entry.1) ++ bytes_of ":" ++ value_text entry.2.

Fixpoint entries_text (entries : list (string * Value)) : list byte :=
  match entries with
  | [] => []
  | [entry] => entry_text entry
  | entry :: rest => entry_text entry ++ bytes_of "," ++ entries_text rest
  end.

Definition object_text (entries : list (string * Value)) : list byte :=
  bytes_of "{" ++ entries_text entries ++ bytes_of "}".

Definition parse_entry (input : list byte)
  : option ((string * Value) * list byte) :=
  '(k, rest) ← parse_text input;
  rest' ← after (bytes_of ":") rest;
  '(v, rest'') ← parse_value rest';
  Some ((String.string_of_list_byte k, v), rest'').

(** The entries up to the closing brace, at most [fuel] of them. *)
Fixpoint parse_entries (fuel : nat) (input : list byte)
  : option (list (string * Value) * list byte) :=
  match fuel with
  | O => None
  | S fuel' =>
      '(entry, rest) ← parse_entry input;
      match after (bytes_of ",") rest with
      | Some rest' =>
          '(entries, rest'') ← parse_entries fuel' rest';
          Some (entry :: entries, rest'')
      | None =>
          rest' ← after (bytes_of "}") rest; Some ([entry], rest')
      end
  end.

Definition parse_object (input : list byte)
  : option (list (string * Value)) :=
  rest ← after (bytes_of "{") input;
  match after (bytes_of "}") rest with
  | Some [] => Some []
  | Some _ => None
  | None =>
      '(entries, rest') ← parse_entries (length input) rest;
      if decide (rest' = []) then Some entries else None
  end.

(** Modelled from the spec: the canonical encoding of a body or of
    metadata, which the source computes as
    [Buffer.from(JSON.stringify(joser.serialize(value)), 'utf8')]. *)
Definition encode (value : JsObject) : Buffer :=
  object_text (map_to_list value).

(** Modelled from the spec: the decoding, which the source computes as
    [joser.deserialize(JSON.parse(data.toString('utf8')))]; a text that is
    not the encoding of an object is read as the empty object. *)
Definition decode (data : Buffer) : JsObject :=
  match parse_object data with
  | Some entries => list_to_map entries
  | None => ∅
  end.

End Canonical.

(** ** KafkaStreamAdapter

    What the adapter itself computes: the messages [sendEvents] hands to the
    producer, with the [__ctx] header its partitioner hashes, and what the
    consumer callback [eachMessage] does with a message.  The cluster and
    the library [kafkajs] are not modelled. *)

Module KafkaStreamAdapter.
Local Open Scope Z_scope.

(** [{ value, headers: { __ctx } }]; the value of a consumed message may be
    [null]. *)
Record Message := mkMessage {
  value : option Serialization.FlatbuffersEvent;
  __ctx : Value
}.

(** [{ topic, messages }] *)
Record TopicMessages := mkTopicMessages {
  topic : string;
  messages : list Message
}.

(** [opts?.prefix ?? 'arque'] *)
Definition prefix (opts : option string) : string := default "arque"%string opts.

(** [`${this.opts.prefix}.${stream}`] *)
Definition topic_of (prefix stream : string) : string :=
  (prefix ++ "." ++ stream)%string.

(** [event.meta.__ctx ?? Buffer.from([0])] *)
Definition ctx_of (meta : JsObject) : Value :=
  match obj_get "__ctx" meta with
  | None | Some VNull => VBuffer ["000"%byte]
  | Some v => v
  end.

(** The [retry] part of the options of [subscribe]. *)
Record RetryOptions := mkRetryOptions {
  maxDelay : option Z;
  numOfAttempts : option Z;
  retry : option (Error → bool)
}.

(** The options [eachMessage] hands to [backOff].  The jitter is "full":
    the wait before a retry is drawn between 0 and the delay of the model,
    which is therefore its upper bound. *)
Definition subscribe_backoff (opts : option RetryOptions)
  : ExponentialBackoff.Options :=
  ExponentialBackoff.mkOptions
    false
    (Some (default 6400 (opts ≫= maxDelay)))
    (default 24 (opts ≫= numOfAttempts))
    100 2
    (λ err, match opts ≫= retry with
            | Some accepts => accepts err
            | None => true
            end).

Section adapter.
Variable encode : JsObject → Buffer.
Variable decode : Buffer → JsObject.

(** The message [sendEvents] builds for an event. *)
Definition message (raw : bool) (event : Event.t (Serialization.Body raw))
  : Message :=
  mkMessage (Some (Serialization.serialize encode raw event))
            (ctx_of (Event.meta event)).

(** The [topicMessages] of [producer.sendBatch] in [sendEvents]. *)
Definition topicMessages (prefix : string) (raw : bool)
    (params : list (Batch.t (Serialization.Body raw))) : list TopicMessages :=
  (λ b, mkTopicMessages (topic_of prefix (Batch.stream b))
                        (message raw <$> Batch.events b)) <$> params.

(** [eachMessage({ message })] of the consumer [subscribe] runs: the
    handler is called on the decoded event, in the retry loop. *)
Definition eachMessage {St : Type} (sleep : Z → St → St) (raw : bool)
    (opts : option RetryOptions)
    (handle : Event.t (Serialization.Body raw) → M St unit)
    (m : Message) : M St unit :=
  match value m with
  | None => throw (AssertionError "`message.value` is null")
  | Some data =>
      ExponentialBackoff.backOff sleep
        (handle (Serialization.deserialize decode raw data))
        (subscribe_backoff opts)
  end.

End adapter.
End KafkaStreamAdapter.

(** ** arrayToAsyncIterableIterator

    The iterator over an array of [core/libs/util.ts].  A slot of the array
    holds a value or [undefined]. *)
Module AsyncIterator.
Section iterator.
Context {T : Type}.

(** The closure: the array and [index]. *)
Record t := mk { items : list (option T); index : nat }.

(** [{ value, done }] *)
Record IteratorResult := mkResult { value : option T; done : bool }.

Definition arrayToAsyncIterableIterator (items : list (option T)) : t :=
  mk items 0.

(** [next()]: [const value = items[index++];
    return { value, done: value === undefined }]. *)
Definition next (it : t) : IteratorResult * t :=
  let value : option T := mjoin (items it !! index it) in
  (mkResult value (if value then false else true),
   mk (items it) (S (index it))).

(** [for await (const x of it)]: [next()] is called until a result is
    [done]; the values of the other results are the ones the loop body
    sees.  [fuel] bounds the number of calls. *)
Fixpoint for_await (fuel : nat) (it : t) : option (list T * t) :=
  match fuel with
  | O => None
  | S fuel' =>
      let '(result, it') := next it in
      match done result, value result with
      | false, Some x =>
          '(rest, it'') ← for_await fuel' it'; Some (x :: rest, it'')
      | _, _ => Some ([], it')
      end
  end.

End iterator.
Arguments t : clear implicits.
Arguments IteratorResult : clear implicits.
End AsyncIterator.
(** * Properties *)

(** ** Clients and requests *)

Lemma request_no_fault {A} (op : M Client A) c :
  pending c = [] → request op c = op c.
Proof. intros H. unfold request. by rewrite H. Qed.

Lemma with_client_no_fault {A} (body : M Client A) pg :
  faults pg = [] →
  with_client body pg =
    (let '(c', r) := body (mkClient (tables pg) None [] (now pg)) in
     (release c' pg, r)).
Proof. intros H. unfold with_client, connect. by rewrite H. Qed.

Lemma release_id pg :
  faults pg = [] → release (mkClient (tables pg) None [] (now pg)) pg = pg.
Proof. destruct pg; simpl; intros ->; reflexivity. Qed.

(** ** checkProjectionCheckpoint *)

Section checkpoints.
Import PostgresStoreAdapter SqlQueries.
Local Open Scope Z_scope.

(** The checkpoint rows of the store that cover a version. *)
Definition covered (d : Db) (params : CheckpointParams.t) : Prop :=
  ∃ r, r ∈ t_projection_checkpoints d
       ∧ projection_checkpoints.projection r = CheckpointParams.projection params
       ∧ projection_checkpoints.aggregate_id r
         = Aggregate.id (CheckpointParams.aggregate params)
       ∧ Aggregate.version (CheckpointParams.aggregate params)
         ≤ projection_checkpoints.aggregate_version r.

Lemma select_checkpoint_count d p id v :
  ∃ n, select_checkpoint p id v d = inr (d, n)
       ∧ (n = 0 ↔ ¬ ∃ r, r ∈ t_projection_checkpoints d ∧ covers p id v r).
Proof.
  unfold select_checkpoint. eexists; split; [reflexivity |].
  destruct (filter (covers p id v) (t_projection_checkpoints d)) as [|r l] eqn:E.
  - simpl. split; [intros _ | done].
    intros (r & Hin & Hc).
    assert (r ∈ filter (covers p id v) (t_projection_checkpoints d)) as Hf
      by (apply list_elem_of_filter; done).
    rewrite E in Hf. by apply not_elem_of_nil in Hf.
  - simpl. split; [done |]. intros Hno. exfalso. apply Hno. exists r.
    assert (r ∈ filter (covers p id v) (t_projection_checkpoints d)) as Hf
      by (rewrite E; left).
    apply list_elem_of_filter in Hf. tauto.
Qed.

Lemma checkProjectionCheckpoint_result params pg pg' b :
  checkProjectionCheckpoint params pg = (pg', inr b) →
  tables pg' = tables pg ∧ (b = true ↔ ¬ covered (tables pg) params).
Proof.
  unfold checkProjectionCheckpoint, with_client, connect.
  destruct (select_checkpoint_count (tables pg)
              (CheckpointParams.projection params)
              (Aggregate.id (CheckpointParams.aggregate params))
              (Aggregate.version (CheckpointParams.aggregate params)))
    as (n & Hsel & Hn).
  assert (∀ c, cur c = tables pg → snapshot c = None →
            ∀ c' r, bind (query (select_checkpoint
                       (CheckpointParams.projection params)
                       (Aggregate.id (CheckpointParams.aggregate params))
                       (Aggregate.version (CheckpointParams.aggregate params))))
                      (λ rowCount, ret (rowCount =? 0)) c = (c', inr r) →
            cur c' = tables pg ∧ snapshot c' = None ∧ r = (n =? 0)) as Hq.
  { intros c Hc Hs c' r. unfold bind, query, request, ret.
    destruct (pending c) as [|[code|] rest]; cbn -[select_checkpoint Z.eqb];
      rewrite ?Hc, ?Hsel; intros [= <- <-]; done. }
  assert ((n =? 0) = true ↔ ¬ covered (tables pg) params) as Hcov.
  { rewrite Z.eqb_eq, Hn. unfold covered, covers. done. }
  destruct (faults pg) as [|[code|] rest]; try done;
    match goal with
    | |- context [bind _ _ ?c] =>
        destruct (bind _ _ c) as [c' r] eqn:E; intros [= <- Hr]; subst r;
        apply Hq in E as (Hc' & Hs' & ->); [| done | done];
        unfold release; simpl; rewrite Hs'; done
    end.
Qed.

Lemma checkProjectionCheckpoint_returns params pg :
  faults pg = [] →
  ∃ b, checkProjectionCheckpoint params pg = (pg, inr b).
Proof.
  intros Hf. unfold checkProjectionCheckpoint.
  rewrite with_client_no_fault by done.
  unfold bind, query. rewrite request_no_fault by done. simpl.
  eexists. rewrite release_id by done. reflexivity.
Qed.

#[local] Instance covered_dec d params : Decision (covered d params).
Proof.
  refine (cast_if (decide (Exists
    (λ r, projection_checkpoints.projection r = CheckpointParams.projection params
          ∧ projection_checkpoints.aggregate_id r
            = Aggregate.id (CheckpointParams.aggregate params)
          ∧ Aggregate.version (CheckpointParams.aggregate params)
            ≤ projection_checkpoints.aggregate_version r)
    (t_projection_checkpoints d))));
    unfold covered; rewrite Exists_exists in *; done.
Defined.

(** C1.  [checkProjectionCheckpoint] answers [true] exactly when the store
    holds no checkpoint row of the projection and aggregate id whose version
    is greater than or equal to the version passed, and [false] exactly when
    there is such a row; the call changes no table, and it does answer when
    no driver error is scheduled. *)
Theorem checkProjectionCheckpoint_semantics params pg :
  (∀ pg' b, checkProjectionCheckpoint params pg = (pg', inr b) →
     tables pg' = tables pg
     ∧ (b = true ↔ ¬ covered (tables pg) params)
     ∧ (b = false ↔ covered (tables pg) params))
  ∧ (faults pg = [] → ∃ b, checkProjectionCheckpoint params pg = (pg, inr b)).
Proof.
  split.
  - intros pg' b Hrun.
    apply checkProjectionCheckpoint_result in Hrun as [Ht Hb].
    split; [done |]. split; [done |].
    destruct b.
    + split; [done |]. intros Hc. by apply Hb in Hc.
    + split; [intros _ | done].
      destruct (decide (covered (tables pg) params)) as [|Hn]; [done |].
      apply Hb in Hn. done.
  - apply checkProjectionCheckpoint_returns.
Qed.

(** A store whose only checkpoint is at version 3 of aggregate [01] for the
    projection "accounts": version 3 is a duplicate, version 4 is not. *)
Definition checkpoint_store : Pg :=
  mkPg (mkDb [] [] []
          [projection_checkpoints.mk "accounts" ["001"%byte] 3 0]) [] [] 0.

Lemma checkProjectionCheckpoint_semantics_witness :
  checkProjectionCheckpoint
    (CheckpointParams.mk "accounts" (Aggregate.mk ["001"%byte] 3))
    checkpoint_store = (checkpoint_store, inr false)
  ∧ covered (tables checkpoint_store)
      (CheckpointParams.mk "accounts" (Aggregate.mk ["001"%byte] 3))
  ∧ checkProjectionCheckpoint
      (CheckpointParams.mk "accounts" (Aggregate.mk ["001"%byte] 4))
      checkpoint_store = (checkpoint_store, inr true)
  ∧ ¬ covered (tables checkpoint_store)
      (CheckpointParams.mk "accounts" (Aggregate.mk ["001"%byte] 4)).
Proof.
  split; [reflexivity |]. split.
  - apply (proj1 (checkProjectionCheckpoint_semantics
                    (CheckpointParams.mk "accounts" (Aggregate.mk ["001"%byte] 3))
                    checkpoint_store) checkpoint_store false eq_refl).
    reflexivity.
  - split; [reflexivity |].
    apply (proj1 (checkProjectionCheckpoint_semantics
                    (CheckpointParams.mk "accounts" (Aggregate.mk ["001"%byte] 4))
                    checkpoint_store) checkpoint_store true eq_refl).
    reflexivity.
Defined.

End checkpoints.

(** ** Transactions *)

(** A client computation that neither opens nor closes a transaction. *)
Definition tx_neutral {A} (m : M Client A) : Prop :=
  ∀ c c' r, m c = (c', r) → snapshot c' = snapshot c ∧ clock c' = clock c.

Lemma tx_neutral_ret {A} (a : A) : tx_neutral (ret a).
Proof. intros c c' r [= <- <-]; done. Qed.

Lemma tx_neutral_throw {A} e : tx_neutral (@throw Client A e).
Proof. intros c c' r [= <- <-]; done. Qed.

Lemma tx_neutral_bind {A B} (m : M Client A) (k : A → M Client B) :
  tx_neutral m → (∀ a, tx_neutral (k a)) → tx_neutral (bind m k).
Proof.
  intros Hm Hk c c' r. unfold bind.
  destruct (m c) as [c1 [e|a]] eqn:E.
  - intros [= <- <-]. by apply Hm in E.
  - intros E2. apply Hm in E as [<- <-]. by apply Hk in E2.
Qed.

Lemma tx_neutral_try_catch {A} (m : M Client A) h :
  tx_neutral m → (∀ e, tx_neutral (h e)) → tx_neutral (try_catch m h).
Proof.
  intros Hm Hh c c' r. unfold try_catch.
  destruct (m c) as [c1 [e|a]] eqn:E.
  - intros E2. apply Hm in E as [<- <-]. by apply Hh in E2.
  - intros [= <- <-]. by apply Hm in E.
Qed.

Lemma tx_neutral_query {A} (stmt : Statement A) : tx_neutral (query stmt).
Proof.
  intros c c' r. unfold query, request.
  destruct (pending c) as [|[code|] rest]; simpl;
    try (intros [= <- <-]; done);
    destruct (stmt (cur c)) as [e|[d a]]; intros [= <- <-]; done.
Qed.

Lemma tx_neutral_if {A} (b : bool) (m1 m2 : M Client A) :
  tx_neutral m1 → tx_neutral m2 → tx_neutral (if b then m1 else m2).
Proof. by destruct b. Qed.

Create HintDb tx.
#[local] Hint Resolve tx_neutral_ret tx_neutral_throw tx_neutral_query
  tx_neutral_if : tx.

Lemma BEGIN_spec c c' r :
  BEGIN c = (c', r) →
  cur c' = cur c ∧ clock c' = clock c ∧
  match r with
  | inl _ => snapshot c' = snapshot c
  | inr _ => snapshot c' = Some (default (cur c) (snapshot c))
  end.
Proof.
  unfold BEGIN, request, modify.
  destruct (pending c) as [|[code|] rest]; intros [= <- <-]; simpl;
    destruct (snapshot c); done.
Qed.

Lemma COMMIT_spec c c' r :
  COMMIT c = (c', r) →
  cur c' = cur c ∧ clock c' = clock c ∧
  match r with
  | inl _ => snapshot c' = snapshot c
  | inr _ => snapshot c' = None
  end.
Proof.
  unfold COMMIT, request, modify.
  destruct (pending c) as [|[code|] rest]; intros [= <- <-]; done.
Qed.

(** The body of a transaction on a client that has none open: it ends with
    none open, an error leaves the tables of the session as they were, a
    success leaves what the statements produced. *)
Lemma transaction_body_spec {A} (statements : M Client A) c c' r :
  tx_neutral statements →
  snapshot c = None →
  try_catch (bind BEGIN (λ _, bind statements (λ _, COMMIT)))
            (λ err, bind ROLLBACK (λ _, throw err)) c = (c', r) →
  clock c' = clock c ∧ snapshot c' = None ∧
  match r with
  | inl _ => cur c' = cur c
  | inr _ => ∃ c0 c1 a, cur c0 = cur c ∧ clock c0 = clock c
                        ∧ statements c0 = (c1, inr a) ∧ cur c' = cur c1
  end.
Proof.
  intros Hn Hs. unfold try_catch, bind at 1.
  destruct (BEGIN c) as [c1 [e|[]]] eqn:EB;
    apply BEGIN_spec in EB as (Hc1 & Hk1 & Hs1).
  - unfold bind, ROLLBACK, modify, throw. intros [= <- <-]. simpl.
    rewrite Hs1, Hs. done.
  - rewrite Hs in Hs1. simpl in Hs1. unfold bind at 1.
    destruct (statements c1) as [c2 [e|a]] eqn:ES.
    + apply Hn in ES as [Hs2 Hk2].
      unfold bind, ROLLBACK, modify, throw. intros [= <- <-]. simpl.
      rewrite Hs2, Hs1. split; [congruence | done].
    + pose proof (Hn _ _ _ ES) as [Hs2 Hk2].
      destruct (COMMIT c2) as [c3 [e|[]]] eqn:EC;
        apply COMMIT_spec in EC as (Hc3 & Hk3 & Hs3).
      * unfold bind, ROLLBACK, modify, throw. intros [= <- <-]. simpl.
        rewrite Hs3, Hs2, Hs1. split; [congruence | done].
      * intros [= <- <-]. split; [congruence |]. split; [done |].
        exists c1, c2, a. done.
Qed.

(** What a transaction leaves behind: an error leaves the tables as they
    were, a success leaves the tables its statements produced from them. *)
Lemma transaction_spec {A} (statements : M Client A) pg pg' r :
  tx_neutral statements →
  transaction statements pg = (pg', r) →
  delays pg' = delays pg ∧ now pg' = now pg ∧
  match r with
  | inl _ => tables pg' = tables pg
  | inr _ => ∃ c0 c1 a, cur c0 = tables pg ∧ clock c0 = now pg
                        ∧ statements c0 = (c1, inr a)
                        ∧ tables pg' = cur c1
  end.
Proof.
  intros Hn. unfold transaction, with_client, connect.
  destruct (faults pg) as [|[code|] rest];
    try (intros [= <- <-]; done);
    match goal with
    | |- context [try_catch ?m ?h ?c] =>
        destruct (try_catch m h c) as [c' r'] eqn:E; intros [= <- <-];
        apply transaction_body_spec in E as (Hk & Hs & Hr); [| done | done]
    end;
    unfold release; simpl; rewrite Hs; (split; [done |]); (split; [done |]);
    destruct r'; done.
Qed.

(** ** saveEvents: what one transaction does *)

Section saveEvents_statements.
Import PostgresStoreAdapter.
Local Open Scope Z_scope.
Context {joser : Joser}.

(** The rows of a batch, the event at position [i] at version
    [params.aggregate.version + i]. *)
Fixpoint rows_from (params : SaveEventsParams.t) (index : Z)
    (rest : list NewEvent.t) : list events.row :=
  match rest with
  | [] => []
  | event :: rest' =>
      event_row params index event :: rows_from params (index + 1) rest'
  end.

Definition batch_rows (params : SaveEventsParams.t) : list events.row :=
  rows_from params 0 (SaveEventsParams.events params).

(** The aggregate records after a batch is saved: the record is created by
    a batch at version 1, and moved to the version of the last event of the
    batch otherwise. *)
Definition aggregates_after (params : SaveEventsParams.t)
    (rows : list aggregates.row) : list aggregates.row :=
  let id := Aggregate.id (SaveEventsParams.aggregate params) in
  let version := Aggregate.version (SaveEventsParams.aggregate params) in
  let n := Z.of_nat (length (SaveEventsParams.events params)) in
  if version =? 1
  then rows ++ [aggregates.mk id n (SaveEventsParams.timestamp params) false]
  else (λ r, if Sql.update_matches id (version - 1) r
             then aggregates.mk (aggregates.id r) (version + n - 1)
                    (SaveEventsParams.timestamp params) (aggregates.final r)
             else r) <$> rows.

(** The store with the whole batch in it. *)
Definition saved (params : SaveEventsParams.t) (d : Db) : Db :=
  mkDb (aggregates_after params (t_aggregates d))
       (t_events d ++ batch_rows params)
       (t_snapshots d) (t_projection_checkpoints d).

(** What the checks of [saveEvents] ask of the aggregate record. *)
Definition admits (params : SaveEventsParams.t) (d : Db) : Prop :=
  let id := Aggregate.id (SaveEventsParams.aggregate params) in
  let version := Aggregate.version (SaveEventsParams.aggregate params) in
  if version =? 1
  then ¬ Exists (λ r, aggregates.id r = id) (t_aggregates d)
  else Exists (λ r, Sql.update_matches id (version - 1) r = true)
              (t_aggregates d).

Lemma query_inr {A} (stmt : Statement A) c c' a :
  query stmt c = (c', inr a) → stmt (cur c) = inr (cur c', a).
Proof.
  unfold query, request.
  destruct (pending c) as [|[code|] rest]; simpl; try done;
    destruct (stmt (cur c)) as [e|[d a']]; intros [= <- <-]; done.
Qed.

Lemma insertEvents_inr params index rest c c' u :
  insertEvents params index rest c = (c', inr u) →
  cur c' = mkDb (t_aggregates (cur c))
                (t_events (cur c) ++ rows_from params index rest)
                (t_snapshots (cur c)) (t_projection_checkpoints (cur c)).
Proof.
  revert index c. induction rest as [|event rest IH]; intros index c.
  - intros [= <- _]. simpl. rewrite app_nil_r. by destruct (cur c).
  - simpl. unfold bind at 1.
    destruct (query _ c) as [c1 [e|[]]] eqn:E; [done |].
    apply query_inr in E. unfold Sql.insert_event in E.
    repeat case_bool_decide; try done. injection E as E.
    intros Hrest. apply IH in Hrest. rewrite Hrest, <- E. simpl.
    by rewrite <- app_assoc.
Qed.

Lemma update_count_zero id expected rows :
  Z.of_nat (length (filter (λ r, Sql.update_matches id expected r = true) rows)) = 0
  ↔ ¬ Exists (λ r, Sql.update_matches id expected r = true) rows.
Proof.
  rewrite Exists_exists.
  destruct (filter _ rows) as [|r l] eqn:E; simpl.
  - split; [intros _ | done]. intros (r & Hin & Hr).
    assert (r ∈ filter (λ r, Sql.update_matches id expected r = true) rows) as Hf
      by (apply list_elem_of_filter; done).
    rewrite E in Hf. by apply not_elem_of_nil in Hf.
  - split; [lia |]. intros Hno. exfalso. apply Hno. exists r.
    assert (r ∈ filter (λ r, Sql.update_matches id expected r = true) rows) as Hf
      by (rewrite E; left).
    apply list_elem_of_filter in Hf. tauto.
Qed.

(** When the statements go through, the record admitted the batch and the
    session holds the store with the whole batch. *)
Lemma saveEvents_statements_inr params c c' u :
  saveEvents_statements params c = (c', inr u) →
  admits params (cur c) ∧ cur c' = saved params (cur c).
Proof.
  unfold saveEvents_statements, admits, saved, aggregates_after, batch_rows.
  cbv zeta. unfold bind at 1.
  destruct (query _ c) as [c1 [e|aggRes]] eqn:E1; [done |].
  apply query_inr in E1. injection E1 as E1 _.
  unfold bind at 1.
  destruct (default false (head aggRes)); [done |].
  unfold ret at 1. unfold bind at 1.
  destruct (Aggregate.version (SaveEventsParams.aggregate params) =? 1).
  - unfold try_catch.
    destruct (query _ c1) as [c2 [e|[]]] eqn:E2.
    { case_bool_decide; done. }
    apply query_inr in E2. unfold Sql.insert_aggregate in E2.
    case_bool_decide as Hex; [done |]. injection E2 as E2.
    intros Hrest. apply insertEvents_inr in Hrest.
    rewrite E1. split; [done |].
    rewrite Hrest, <- E2. done.
  - unfold bind at 1.
    destruct (query _ c1) as [c2 [e|rowCount]] eqn:E2; [done |].
    apply query_inr in E2. unfold Sql.update_aggregate in E2.
    injection E2 as E2 Hcount.
    destruct (rowCount =? 0) eqn:Hz; [done |].
    unfold ret at 1.
    intros Hrest. apply insertEvents_inr in Hrest.
    rewrite E1. split.
    + apply Z.eqb_neq in Hz. rewrite <- Hcount in Hz.
      destruct (decide (Exists (λ r, Sql.update_matches
                  (Aggregate.id (SaveEventsParams.aggregate params))
                  (Aggregate.version (SaveEventsParams.aggregate params) - 1) r
                  = true) (t_aggregates (cur c1)))) as [|Hn]; [done |].
      by apply update_count_zero in Hn.
    + rewrite Hrest, <- E2. done.
Qed.

Lemma tx_neutral_insertEvents params index rest :
  tx_neutral (insertEvents params index rest).
Proof.
  revert index. induction rest as [|event rest IH]; intros index; simpl.
  - apply tx_neutral_ret.
  - apply tx_neutral_bind; [apply tx_neutral_query | intros _; apply IH].
Qed.

Lemma tx_neutral_saveEvents_statements params :
  tx_neutral (saveEvents_statements params).
Proof.
  unfold saveEvents_statements. cbv zeta.
  apply tx_neutral_bind; [apply tx_neutral_query |]. intros aggRes.
  apply tx_neutral_bind; [auto with tx |]. intros _.
  apply tx_neutral_bind; [| intros _; apply tx_neutral_insertEvents].
  apply tx_neutral_if.
  - apply tx_neutral_try_catch; [apply tx_neutral_query |].
    intros e. auto with tx.
  - apply tx_neutral_bind; [apply tx_neutral_query |]. intros n. auto with tx.
Qed.

(** One attempt of [saveEvents]: the whole batch, or nothing. *)
Lemma saveEvents_attempt_spec params pg pg' r :
  saveEvents_attempt params pg = (pg', r) →
  delays pg' = delays pg ∧ now pg' = now pg ∧
  match r with
  | inl _ => tables pg' = tables pg
  | inr _ => admits params (tables pg)
             ∧ tables pg' = saved params (tables pg)
  end.
Proof.
  intros H. apply transaction_spec in H as (Hd & Hn & Hr);
    [| apply tx_neutral_saveEvents_statements].
  split; [done |]. split; [done |].
  destruct r as [e|u]; [done |].
  destruct Hr as (c0 & c1 & [] & Hc0 & _ & Hst & ->).
  apply saveEvents_statements_inr in Hst. by rewrite Hc0 in Hst.
Qed.

End saveEvents_statements.

(** ** The retry loop keeps what every attempt keeps *)

Section retry_loop.
Import ExponentialBackoff.

Lemma tables_applyDelay o attempt pg :
  tables (applyDelay sleep o attempt pg) = tables pg.
Proof. unfold applyDelay. by destruct (delay o attempt). Qed.

(** If a failed attempt leaves the tables as they were and a successful one
    relates them by [Q], so does the whole loop. *)
Lemma execute_tables {A} o (attempt : M Pg A) (Q : Db → Db → Prop) :
  (∀ pg pg' r, attempt pg = (pg', r) →
     match r with
     | inl _ => tables pg' = tables pg
     | inr _ => Q (tables pg) (tables pg')
     end) →
  ∀ remaining attemptNumber pg pg' r,
    execute sleep o attempt remaining attemptNumber pg = (pg', r) →
    match r with
    | inl _ => tables pg' = tables pg
    | inr _ => Q (tables pg) (tables pg')
    end.
Proof.
  intros Hatt. induction remaining as [|k IH]; intros n pg pg' r; simpl.
  - intros [= <- <-]. done.
  - destruct (attempt (applyDelay sleep o n pg)) as [pg1 [e|a]] eqn:E;
      apply Hatt in E; rewrite tables_applyDelay in E.
    + destruct (retry o e && negb (k =? 0)%nat).
      * intros Hrest. apply IH in Hrest. by rewrite E in Hrest.
      * intros [= <- <-]. done.
    + intros [= <- <-]. done.
Qed.

Lemma execute_S {St A} (sl : Z → St → St) o (request : M St A) k a s :
  execute sl o request (S k) a s
  = match request (applyDelay sl o a s) with
    | (s', inr x) => (s', inr x)
    | (s', inl e) =>
        if retry o e && negb (Nat.eqb k 0)
        then execute sl o request k (S a) s'
        else (s', inl e)
    end.
Proof. done. Qed.

End retry_loop.

(** ** Atomicity of saveEvents *)

Section atomicity.
Import PostgresStoreAdapter.
Local Open Scope Z_scope.
Context {joser : Joser}.

Lemma saveEvents_spec opts params pg pg' r :
  saveEvents opts params pg = (pg', r) →
  match r with
  | inl _ => tables pg' = tables pg
  | inr _ => 0 < Aggregate.version (SaveEventsParams.aggregate params)
             ∧ admits params (tables pg)
             ∧ tables pg' = saved params (tables pg)
  end.
Proof.
  unfold saveEvents.
  destruct (0 <? _) eqn:Hv; [| intros [= <- <-]; done].
  apply Z.ltb_lt in Hv. unfold ExponentialBackoff.backOff. cbv zeta.
  intros H.
  apply (execute_tables _ _
           (λ d d', admits params d ∧ d' = saved params d)) in H.
  - destruct r; [done | tauto].
  - clear. intros pg pg' r H. apply saveEvents_attempt_spec in H.
    destruct r; tauto.
Qed.

(** C3.  [saveEvents] is atomic: whatever the batch, the retry options and
    the driver errors met on the way, a call that fails leaves every table as
    it was (no prefix of the batch stays), and a call that succeeds leaves
    the store with the whole batch in it: every event row of the batch
    appended, the aggregate record created or moved to the last version, the
    other tables untouched. *)
Theorem saveEvents_atomic opts params pg pg' r :
  saveEvents opts params pg = (pg', r) →
  match r with
  | inl _ => tables pg' = tables pg
  | inr _ =>
      tables pg' = saved params (tables pg)
      ∧ t_events (tables pg') = t_events (tables pg) ++ batch_rows params
      ∧ length (batch_rows params) = length (SaveEventsParams.events params)
  end.
Proof.
  intros H. apply saveEvents_spec in H.
  destruct r as [e|u]; [done |].
  destruct H as (_ & _ & ->). split; [done |]. split; [done |].
  unfold batch_rows. generalize 0.
  induction (SaveEventsParams.events params) as [|event rest IH]; intros i;
    simpl; [done | by rewrite IH].
Qed.

End atomicity.

Section atomicity_samples.
Import PostgresStoreAdapter.
Local Open Scope Z_scope.
#[local] Existing Instance plain_joser.

(** Sample data: an aggregate [01] and three events. *)
Definition sample_id : Buffer := ["001"%byte].

Definition sample_event (b : byte) : NewEvent.t :=
  NewEvent.mk (EventId.mk [b]) 257 None ∅.

Definition first_batch : SaveEventsParams.t :=
  SaveEventsParams.mk (Aggregate.mk sample_id 1) 1000
    [sample_event "010"; sample_event "011"] None.

Definition next_batch : SaveEventsParams.t :=
  SaveEventsParams.mk (Aggregate.mk sample_id 3) 2000
    [sample_event "012"] None.

Definition empty_store : Pg := mkPg empty_db [] [] 0.

Definition default_options : Options := constructor no_options.

(** A batch that goes through, and the same batch when the second insert
    meets a driver error: the first event row does not stay. *)
Lemma saveEvents_atomic_witness :
  tables (saveEvents default_options first_batch empty_store).1
  = saved first_batch empty_db
  ∧ (saveEvents default_options first_batch
       (mkPg empty_db [None; None; None; None; None; Some "57014"%string] [] 0)).2
    = inl (DatabaseError "57014")
  ∧ tables (saveEvents default_options first_batch
              (mkPg empty_db [None; None; None; None; None; Some "57014"%string]
                    [] 0)).1
    = empty_db.
Proof.
  split.
  - exact (proj1 (saveEvents_atomic default_options first_batch empty_store
                    _ (inr ()) eq_refl)).
  - split; [reflexivity |].
    exact (saveEvents_atomic default_options first_batch
             (mkPg empty_db [None; None; None; None; None; Some "57014"%string] [] 0)
             _ (inl (DatabaseError "57014")) eq_refl).
Defined.

End atomicity_samples.

(** ** The versions of an aggregate's log *)

Section versions.
Import PostgresStoreAdapter.
Local Open Scope Z_scope.
Context {joser : Joser}.

(** The versions of the stored events of an aggregate, in table order. *)
Definition log_versions (d : Db) (id : Buffer) : list Z :=
  events.aggregate_version <$>
    filter (λ r, events.aggregate_id r = id) (t_events d).

(** [1, 2, ..., n] *)
Definition one_to (n : nat) : list Z := Z.of_nat <$> seq 1 n.

(** The invariant of the store: aggregate ids are a key, and for every
    aggregate the log holds the versions [1..N] in order, where [N] is the
    version of its record, and 0 when it has none. *)
Record consistent (d : Db) : Prop := mk_consistent {
  aggregates_pk : NoDup (aggregates.id <$> t_aggregates d);
  log_dense : ∀ id, ∃ N : nat,
    log_versions d id = one_to N
    ∧ (∀ r, r ∈ t_aggregates d → aggregates.id r = id →
            aggregates.version r = Z.of_nat N)
    ∧ ((∀ r, r ∈ t_aggregates d → aggregates.id r ≠ id) → N = 0%nat)
}.

Lemma consistent_empty : consistent empty_db.
Proof.
  split; [constructor |]. intros id. exists 0%nat.
  split; [done |]. split; [| done]. intros r Hr. by apply not_elem_of_nil in Hr.
Qed.

Lemma one_to_app (N n : nat) :
  one_to N ++ ((λ k, Z.of_nat N + 1 + Z.of_nat k) <$> seq 0 n) = one_to (N + n).
Proof.
  unfold one_to. rewrite seq_app, fmap_app. f_equal.
  replace (seq (1 + N) n) with (Nat.add (1 + N) <$> seq 0 n)
    by (rewrite fmap_add_seq; f_equal; lia).
  rewrite <- list_fmap_compose.
  apply list_fmap_ext. intros _ k _. simpl. lia.
Qed.

Lemma rows_from_versions params (j : nat) rest :
  events.aggregate_version <$> rows_from params (Z.of_nat j) rest
  = (λ k, Aggregate.version (SaveEventsParams.aggregate params) + Z.of_nat k)
      <$> seq j (length rest).
Proof.
  revert j. induction rest as [|event rest IH]; intros j; [done |].
  simpl. f_equal. rewrite <- IH. f_equal. f_equal. lia.
Qed.

Lemma rows_from_filter_same params index rest :
  filter (λ r, events.aggregate_id r
               = Aggregate.id (SaveEventsParams.aggregate params))
         (rows_from params index rest)
  = rows_from params index rest.
Proof.
  revert index. induction rest as [|event rest IH]; intros index; [done |].
  simpl. rewrite filter_cons_True by done. by rewrite IH.
Qed.

Lemma rows_from_filter_other params index rest id :
  id ≠ Aggregate.id (SaveEventsParams.aggregate params) →
  filter (λ r, events.aggregate_id r = id) (rows_from params index rest) = [].
Proof.
  intros Hne. revert index.
  induction rest as [|event rest IH]; intros index; [done |].
  simpl. rewrite filter_cons_False by (simpl; congruence). apply IH.
Qed.

Lemma log_versions_saved_same params d :
  log_versions (saved params d) (Aggregate.id (SaveEventsParams.aggregate params))
  = log_versions d (Aggregate.id (SaveEventsParams.aggregate params))
    ++ ((λ k, Aggregate.version (SaveEventsParams.aggregate params) + Z.of_nat k)
          <$> seq 0 (length (SaveEventsParams.events params))).
Proof.
  unfold log_versions, saved, batch_rows. simpl.
  rewrite filter_app, fmap_app, rows_from_filter_same.
  f_equal. apply (rows_from_versions params 0).
Qed.

Lemma log_versions_saved_other params d id :
  id ≠ Aggregate.id (SaveEventsParams.aggregate params) →
  log_versions (saved params d) id = log_versions d id.
Proof.
  intros Hne. unfold log_versions, saved, batch_rows. simpl.
  rewrite filter_app, rows_from_filter_other by done. by rewrite app_nil_r.
Qed.

Lemma aggregates_after_ids params rows :
  Aggregate.version (SaveEventsParams.aggregate params) ≠ 1 →
  aggregates.id <$> aggregates_after params rows = aggregates.id <$> rows.
Proof.
  intros Hv. unfold aggregates_after. cbv zeta.
  destruct (Z.eqb_spec (Aggregate.version (SaveEventsParams.aggregate params)) 1);
    [done |].
  rewrite <- list_fmap_compose. apply list_fmap_ext.
  intros _ r _. simpl. by destruct (Sql.update_matches _ _ r).
Qed.

Lemma NoDup_fmap_eq {A B} (f : A → B) (l : list A) x y :
  NoDup (f <$> l) → x ∈ l → y ∈ l → f x = f y → x = y.
Proof.
  induction l as [|a l IH]; intros Hnd Hx Hy Hf.
  - by apply not_elem_of_nil in Hx.
  - rewrite fmap_cons in Hnd. apply NoDup_cons in Hnd as [Hnotin Hnd].
    apply elem_of_cons in Hx as [->|Hx]; apply elem_of_cons in Hy as [->|Hy].
    + done.
    + exfalso. apply Hnotin. rewrite Hf. by apply list_elem_of_fmap_2.
    + exfalso. apply Hnotin. rewrite <- Hf. by apply list_elem_of_fmap_2.
    + by apply IH.
Qed.

(** A batch that the record admits keeps the store consistent. *)
Lemma consistent_saved params d :
  0 < Aggregate.version (SaveEventsParams.aggregate params) →
  admits params d → consistent d → consistent (saved params d).
Proof.
  intros Hpos Hadm [Hpk Hlog].
  set (id := Aggregate.id (SaveEventsParams.aggregate params)) in *.
  set (v := Aggregate.version (SaveEventsParams.aggregate params)) in *.
  set (n := length (SaveEventsParams.events params)).
  unfold admits in Hadm. cbv zeta in Hadm. fold id v in Hadm.
  destruct (Z.eqb_spec v 1) as [Hv1|Hv1].
  - (* the record is created *)
    assert (∀ r, r ∈ t_aggregates d → aggregates.id r ≠ id) as Hfresh.
    { intros r Hr Hid. apply Hadm, Exists_exists. eauto. }
    assert (t_aggregates (saved params d)
            = t_aggregates d
              ++ [aggregates.mk id (Z.of_nat n)
                    (SaveEventsParams.timestamp params) false]) as Hrows.
    { unfold saved, aggregates_after. cbv zeta. fold id v. simpl.
      destruct (Z.eqb_spec v 1); done. }
    split.
    + rewrite Hrows, fmap_app. apply NoDup_app. split; [done |]. split.
      * intros x Hx Hx'. simpl in Hx'. apply list_elem_of_singleton in Hx'.
        apply list_elem_of_fmap in Hx as (r & -> & Hr). by apply Hfresh in Hr.
      * apply NoDup_singleton.
    + intros id'. destruct (decide (id' = id)) as [->|Hne].
      * destruct (Hlog id) as (N & HN & _ & Hzero).
        specialize (Hzero Hfresh). subst N.
        exists n. split.
        { unfold id. rewrite log_versions_saved_same. fold id v.
          rewrite HN, Hv1. apply (one_to_app 0 n). }
        split.
        { intros r. rewrite Hrows. intros Hr Hid.
          apply elem_of_app in Hr as [Hr|Hr]; [by apply Hfresh in Hr |].
          apply list_elem_of_singleton in Hr. by subst r. }
        { intros Hno. exfalso.
          apply (Hno (aggregates.mk id (Z.of_nat n)
                        (SaveEventsParams.timestamp params) false));
            [| done].
          rewrite Hrows. apply elem_of_app. right. by apply list_elem_of_singleton. }
      * destruct (Hlog id') as (N & HN & Hver & Hzero).
        exists N. split; [by rewrite log_versions_saved_other |].
        split.
        { intros r. rewrite Hrows. intros Hr Hid.
          apply elem_of_app in Hr as [Hr|Hr]; [by apply Hver |].
          apply list_elem_of_singleton in Hr. subst r. simpl in Hid. congruence. }
        { intros Hno. apply Hzero. intros r Hr. apply Hno.
          rewrite Hrows. apply elem_of_app. by left. }
  - (* the record moves to the last version of the batch *)
    apply Exists_exists in Hadm as (r0 & Hr0 & Hm0).
    unfold Sql.update_matches in Hm0.
    apply andb_true_iff in Hm0 as [Hm0 Hfin0].
    apply andb_true_iff in Hm0 as [Hid0 Hv0].
    apply bool_decide_eq_true in Hid0. apply Z.eqb_eq in Hv0.
    assert (t_aggregates (saved params d)
            = (λ r, if Sql.update_matches id (v - 1) r
                    then aggregates.mk (aggregates.id r)
                           (v + Z.of_nat n - 1)
                           (SaveEventsParams.timestamp params)
                           (aggregates.final r)
                    else r) <$> t_aggregates d) as Hrows.
    { unfold saved, aggregates_after. cbv zeta. fold id v. simpl.
      destruct (Z.eqb_spec v 1); done. }
    split.
    + unfold saved. simpl. by rewrite aggregates_after_ids.
    + intros id'. destruct (decide (id' = id)) as [->|Hne].
      * destruct (Hlog id) as (N & HN & Hver & _).
        pose proof (Hver r0 Hr0 Hid0) as HvN.
        exists (N + n)%nat. split.
        { unfold id. rewrite log_versions_saved_same. fold id v.
          rewrite HN. rewrite <- one_to_app. f_equal.
          apply list_fmap_ext. intros _ k _. lia. }
        split.
        { intros r. rewrite Hrows. intros Hr Hid.
          apply list_elem_of_fmap in Hr as (r1 & -> & Hr1).
          assert (aggregates.id r1 = id) as Hid1.
          { destruct (Sql.update_matches id (v - 1) r1); done. }
          assert (r1 = r0) as ->.
          { apply (NoDup_fmap_eq aggregates.id (t_aggregates d)); try done.
            congruence. }
          unfold Sql.update_matches. rewrite Hfin0.
          rewrite bool_decide_eq_true_2 by done.
          rewrite (proj2 (Z.eqb_eq _ _) Hv0). simpl. lia. }
        { intros Hno. exfalso.
          apply (Hno (if Sql.update_matches id (v - 1) r0
                      then aggregates.mk (aggregates.id r0)
                             (v + Z.of_nat n - 1)
                             (SaveEventsParams.timestamp params)
                             (aggregates.final r0)
                      else r0)).
          - rewrite Hrows.
            by apply (list_elem_of_fmap_2
                        (λ r, if Sql.update_matches id (v - 1) r
                              then aggregates.mk (aggregates.id r)
                                     (v + Z.of_nat n - 1)
                                     (SaveEventsParams.timestamp params)
                                     (aggregates.final r)
                              else r)).
          - by destruct (Sql.update_matches id (v - 1) r0). }
      * destruct (Hlog id') as (N & HN & Hver & Hzero).
        exists N. split; [by rewrite log_versions_saved_other |].
        split.
        { intros r. rewrite Hrows. intros Hr Hid.
          apply list_elem_of_fmap in Hr as (r1 & -> & Hr1).
          unfold Sql.update_matches in *.
          destruct (bool_decide_reflect (aggregates.id r1 = id)) as [Heq|Hneq];
            simpl in *.
          - destruct (_ && _); simpl in Hid; congruence.
          - by apply Hver. }
        { intros Hno. apply Hzero. intros r Hr Hid. apply (Hno
            (if Sql.update_matches id (v - 1) r
             then aggregates.mk (aggregates.id r) (v + Z.of_nat n - 1)
                    (SaveEventsParams.timestamp params) (aggregates.final r)
             else r)).
          - rewrite Hrows.
            by apply (list_elem_of_fmap_2
                        (λ r, if Sql.update_matches id (v - 1) r
                              then aggregates.mk (aggregates.id r)
                                     (v + Z.of_nat n - 1)
                                     (SaveEventsParams.timestamp params)
                                     (aggregates.final r)
                              else r)).
          - by destruct (Sql.update_matches id (v - 1) r). }
Qed.

End versions.

(** ** Histories of the store *)

Section histories.
Import PostgresStoreAdapter.
Local Open Scope Z_scope.
Context {joser : Joser}.

(** The store after [finalizeAggregate] went through. *)
Definition finalized (id : Buffer) (d : Db) : Db :=
  mkDb ((λ r, if bool_decide (aggregates.id r = id)
              then aggregates.mk (aggregates.id r) (aggregates.version r)
                     (aggregates.timestamp r) true
              else r) <$> t_aggregates d)
       ((λ r, if bool_decide (events.aggregate_id r = id)
              then events.mk (events.id r) (events.type r)
                     (events.aggregate_id r) (events.aggregate_version r)
                     (events.body r) (events.meta r) (events.timestamp r) true
              else r) <$> t_events d)
       (t_snapshots d) (t_projection_checkpoints d).

Lemma consistent_same_log d d' :
  t_aggregates d' = t_aggregates d → t_events d' = t_events d →
  consistent d → consistent d'.
Proof.
  intros Ha He [Hpk Hlog]. split; [by rewrite Ha |].
  intros id. destruct (Hlog id) as (N & HN & Hver & Hzero).
  exists N. unfold log_versions. rewrite He, Ha. done.
Qed.

Lemma filter_fmap_preserved {A} (P : A → Prop) `{∀ x, Decision (P x)}
    (g : A → A) (l : list A) :
  (∀ x, P (g x) ↔ P x) → filter P (g <$> l) = g <$> filter P l.
Proof.
  intros Hg. induction l as [|x l IH]; [done |].
  csimpl. destruct (decide (P x)) as [Hx|Hx].
  - rewrite (filter_cons_True P (g x)) by (by apply Hg).
    rewrite (filter_cons_True P x) by done. csimpl. by rewrite IH.
  - rewrite (filter_cons_False P (g x)) by (by rewrite Hg).
    by rewrite (filter_cons_False P x).
Qed.

Lemma consistent_finalized id d : consistent d → consistent (finalized id d).
Proof.
  intros [Hpk Hlog].
  set (fa := λ r, if bool_decide (aggregates.id r = id)
                  then aggregates.mk (aggregates.id r) (aggregates.version r)
                         (aggregates.timestamp r) true
                  else r).
  set (fe := λ r, if bool_decide (events.aggregate_id r = id)
                  then events.mk (events.id r) (events.type r)
                         (events.aggregate_id r) (events.aggregate_version r)
                         (events.body r) (events.meta r) (events.timestamp r) true
                  else r).
  assert (∀ r, aggregates.id (fa r) = aggregates.id r) as Hfa_id
    by (intros r; unfold fa; by case_bool_decide).
  assert (∀ r, aggregates.version (fa r) = aggregates.version r) as Hfa_v
    by (intros r; unfold fa; by case_bool_decide).
  assert (∀ r, events.aggregate_id (fe r) = events.aggregate_id r) as Hfe_id
    by (intros r; unfold fe; by case_bool_decide).
  assert (∀ r, events.aggregate_version (fe r) = events.aggregate_version r)
    as Hfe_v by (intros r; unfold fe; by case_bool_decide).
  split.
  - unfold finalized. simpl. fold fa. rewrite <- list_fmap_compose.
    erewrite list_fmap_ext; [exact Hpk |]. intros _ r _. apply Hfa_id.
  - intros id'. destruct (Hlog id') as (N & HN & Hver & Hzero).
    exists N. split; [| split].
    + unfold log_versions, finalized. simpl. fold fe.
      rewrite filter_fmap_preserved by (intros r; by rewrite Hfe_id).
      rewrite <- list_fmap_compose. rewrite <- HN. unfold log_versions.
      apply list_fmap_ext. intros _ r _. apply Hfe_v.
    + unfold finalized. simpl. fold fa. intros r Hr Hid.
      apply list_elem_of_fmap in Hr as (r1 & -> & Hr1).
      rewrite Hfa_v. apply Hver; [done |]. by rewrite <- Hfa_id.
    + unfold finalized. simpl. fold fa. intros Hno. apply Hzero.
      intros r Hr Hid. apply (Hno (fa r)).
      * by apply list_elem_of_fmap_2.
      * by rewrite Hfa_id.
Qed.

Lemma finalizeAggregate_attempt_spec id pg pg' r :
  finalizeAggregate_attempt id pg = (pg', r) →
  match r with
  | inl _ => tables pg' = tables pg
  | inr _ => tables pg' = finalized id (tables pg)
  end.
Proof.
  intros H. apply transaction_spec in H as (_ & _ & Hr).
  - destruct r as [e|u]; [done |].
    destruct Hr as (c0 & c1 & a & Hc0 & _ & Hst & ->).
    unfold bind in Hst.
    destruct (query _ c0) as [c2 [e|[]]] eqn:E1; [done |].
    apply query_inr in E1. apply query_inr in Hst.
    injection E1 as E1. injection Hst as Hst.
    rewrite <- Hst, <- E1, Hc0. done.
  - apply tx_neutral_bind; [apply tx_neutral_query |].
    intros _. apply tx_neutral_query.
Qed.

(** A single statement run on a client of its own. *)
Lemma with_client_query_spec {A} (stmt : Z → Statement A) pg pg' r :
  with_client (λ c, query (stmt (clock c)) c) pg = (pg', r) →
  match r with
  | inl _ => tables pg' = tables pg
  | inr a => stmt (now pg) (tables pg) = inr (tables pg', a)
  end.
Proof.
  unfold with_client, connect, query, request.
  destruct (faults pg) as [|[code|] rest]; simpl;
    try (intros [= <- <-]; done);
    repeat match goal with
    | |- context [match ?l with [] => _ | _ :: _ => _ end] =>
        destruct l as [|[?|] ?]; simpl
    end;
    try (intros [= <- <-]; done);
    destruct (stmt (now pg) (tables pg)) as [e|[d a]]; intros [= <- <-]; done.
Qed.

(** The calls that write to the store. *)
Inductive Call :=
| CallSaveEvents (opts : Options) (params : SaveEventsParams.t)
| CallFinalizeAggregate (id : Buffer)
| CallSaveSnapshot (params : Snapshot.t)
| CallSaveProjectionCheckpoint (params : CheckpointParams.t).

Definition perform (call : Call) : M Pg unit :=
  match call with
  | CallSaveEvents opts params => saveEvents opts params
  | CallFinalizeAggregate id => finalizeAggregate id
  | CallSaveSnapshot params => saveSnapshot params
  | CallSaveProjectionCheckpoint params => saveProjectionCheckpoint params
  end.

(** The store after a history of calls, each with the driver errors
    scheduled while it runs; a call that fails is part of the history as
    well. *)
Fixpoint history (calls : list (list (option string) * Call)) (pg : Pg) : Pg :=
  match calls with
  | [] => pg
  | (scheduled, call) :: rest =>
      history rest
        (perform call (mkPg (tables pg) scheduled (delays pg) (now pg))).1
  end.

Lemma perform_consistent call pg pg' r :
  perform call pg = (pg', r) → consistent (tables pg) → consistent (tables pg').
Proof.
  destruct call as [opts params|id|params|params]; simpl; intros H Hc.
  - apply saveEvents_spec in H. destruct r as [e|u]; [by rewrite H |].
    destruct H as (Hv & Hadm & ->). by apply consistent_saved.
  - unfold finalizeAggregate, ExponentialBackoff.backOff in H. cbv zeta in H.
    apply (execute_tables _ _ (λ d d', d' = finalized id d)) in H.
    + destruct r as [e|u]; rewrite H; [done | by apply consistent_finalized].
    + clear. intros pg pg' r H. by apply finalizeAggregate_attempt_spec in H.
  - unfold saveSnapshot in H.
    apply (with_client_query_spec (λ _, SqlQueries.insert_snapshot _)) in H.
    destruct r as [e|u]; [by rewrite H |].
    unfold SqlQueries.insert_snapshot in H. case_bool_decide; [done |].
    injection H as H. rewrite <- H. by apply (consistent_same_log (tables pg)).
  - unfold saveProjectionCheckpoint in H.
    apply (with_client_query_spec
             (λ t, SqlQueries.upsert_checkpoint _ _ _ t)) in H.
    destruct r as [e|u]; [by rewrite H |].
    unfold SqlQueries.upsert_checkpoint in H. cbv zeta in H.
    injection H as H. rewrite <- H. by apply (consistent_same_log (tables pg)).
Qed.

Lemma history_consistent calls pg :
  consistent (tables pg) → consistent (tables (history calls pg)).
Proof.
  revert pg. induction calls as [|[scheduled call] rest IH]; intros pg Hc;
    [done |].
  simpl. apply IH.
  destruct (perform call _) as [pg1 r] eqn:E. simpl.
  by apply perform_consistent in E.
Qed.

End histories.

(** ** listEvents *)

Section listing.
Import PostgresStoreAdapter.
Local Open Scope Z_scope.
Context {joser : Joser}.

Lemma Buffer_compare_refl a : Buffer_compare a a = Eq.
Proof. induction a as [|x a IH]; [done |]. simpl. by rewrite N.compare_refl. Qed.

Lemma Buffer_compare_antisym a b :
  Buffer_compare b a = CompOpp (Buffer_compare a b).
Proof.
  revert b. induction a as [|x a IH]; intros [|y b]; try done.
  simpl. rewrite (N.compare_antisym (Byte.to_N x) (Byte.to_N y)).
  destruct (N.compare (Byte.to_N x) (Byte.to_N y)); simpl; [apply IH | done | done].
Qed.

#[local] Instance events_order_total : Total events_order.
Proof.
  intros r1 r2. unfold events_order.
  rewrite (Buffer_compare_antisym (events.aggregate_id r1) (events.aggregate_id r2)).
  destruct (Buffer_compare _ _); simpl; [lia | by left | by right].
Qed.

(** Rows of one aggregate in the order of the query are in the order of
    their versions. *)
Lemma sorted_versions id l :
  Forall (λ r, events.aggregate_id r = id) l →
  Sorted events_order l →
  Sorted Z.le (events.aggregate_version <$> l).
Proof.
  intros Hid Hs. induction Hs as [|r l Hs IH Hhd]; [constructor |].
  apply Forall_cons in Hid as [Hr Hl]. csimpl. constructor; [by apply IH |].
  destruct Hhd as [|r' l' Hrel]; [constructor |]. csimpl. constructor.
  apply Forall_cons in Hl as [Hr' _].
  unfold events_order in Hrel. by rewrite Hr, Hr', Buffer_compare_refl in Hrel.
Qed.

Lemma one_to_sorted N : StronglySorted Z.le (one_to N).
Proof.
  unfold one_to. generalize 1%nat.
  induction N as [|N IH]; intros a; [constructor |].
  simpl. constructor; [apply IH |].
  apply Forall_fmap, Forall_seq. intros j Hj. simpl. lia.
Qed.

Lemma listEvents_no_fault params pg :
  faults pg = [] →
  listEvents params pg
  = (pg, inr (event_of_row <$>
                merge_sort events_order
                  (filter (λ r, SqlQueries.listEvents_where params r = true)
                          (t_events (tables pg))))).
Proof.
  intros Hf. unfold listEvents. rewrite with_client_no_fault by done.
  unfold bind, query. rewrite request_no_fault by done. simpl.
  by rewrite release_id.
Qed.

(** The parameters of a listing of one aggregate from its first event. *)
Definition whole_log (id : Buffer) : ListEventsParams.t :=
  ListEventsParams.mk (Some (ListEventsParams.mkAggregate id None)) None.

Lemma listed_versions d id :
  consistent d →
  ∃ N : nat,
    events.aggregate_version <$>
      merge_sort events_order
        (filter (λ r, SqlQueries.listEvents_where (whole_log id) r = true)
                (t_events d))
    = one_to N.
Proof.
  intros [_ Hlog]. destruct (Hlog id) as (N & HN & _). exists N.
  rewrite (list_filter_iff _ (λ r, events.aggregate_id r = id)).
  2:{ intros r. unfold SqlQueries.listEvents_where. simpl.
      rewrite !andb_true_r. apply bool_decide_eq_true. }
  set (rows := filter _ (t_events d)) in *.
  apply (StronglySorted_unique Z.le).
  - apply Sorted_StronglySorted; [apply _ |].
    apply (sorted_versions id); [| apply Sorted_merge_sort; apply _].
    rewrite merge_sort_Permutation. apply Forall_forall.
    intros r Hr. by apply list_elem_of_filter in Hr as [? _].
  - apply one_to_sorted.
  - rewrite merge_sort_Permutation, <- HN. done.
Qed.

(** C4.  Start from the empty store and make any sequence of calls to
    [saveEvents], [finalizeAggregate], [saveSnapshot] and
    [saveProjectionCheckpoint], successful or not.  Then, for every
    aggregate id, [listEvents] for that id returns, and the
    [aggregate.version] values of the events it yields are exactly
    [1, 2, ..., N] in this order: ascending, without gap or duplicate. *)
Theorem listEvents_versions_dense calls id :
  let pg := history calls (mkPg empty_db [] [] 0) in
  let ready := mkPg (tables pg) [] (delays pg) (now pg) in
  ∃ (N : nat) (listed : list (Event.t JsObject)),
    listEvents (whole_log id) ready = (ready, inr listed)
    ∧ (λ e, Aggregate.version (Event.aggregate e)) <$> listed = one_to N
    ∧ Forall (λ e, Aggregate.id (Event.aggregate e) = id) listed.
Proof.
  intros pg ready.
  assert (consistent (tables ready)) as Hc.
  { apply history_consistent. apply consistent_empty. }
  destruct (listed_versions (tables ready) id Hc) as (N & HN).
  exists N. eexists. split; [by apply listEvents_no_fault |].
  split.
  - rewrite <- list_fmap_compose. exact HN.
  - apply Forall_fmap, Forall_forall. intros r Hr. simpl.
    rewrite merge_sort_Permutation in Hr.
    apply list_elem_of_filter in Hr as [Hr _].
    unfold SqlQueries.listEvents_where in Hr. simpl in Hr.
    rewrite !andb_true_r in Hr. by apply bool_decide_eq_true in Hr.
Qed.

End listing.

Section listing_samples.
Import PostgresStoreAdapter.
Local Open Scope Z_scope.
#[local] Existing Instance plain_joser.

(** Two batches, the second met by a deadlock at its first try, and a
    finalization: the log of the aggregate reads 1, 2, 3. *)
Lemma listEvents_versions_dense_witness :
  ∃ (N : nat) (listed : list (Event.t JsObject)),
    (listEvents (whole_log ["001"%byte])
       (mkPg (tables
                (history
                   [([], CallSaveEvents (constructor no_options)
                           (SaveEventsParams.mk (Aggregate.mk ["001"%byte] 1) 1000
                              [NewEvent.mk (EventId.mk ["010"%byte]) 257 None ∅;
                               NewEvent.mk (EventId.mk ["011"%byte]) 257 None ∅]
                              None));
                    ([None; None; Some "40P01"%string],
                     CallSaveEvents (constructor no_options)
                       (SaveEventsParams.mk (Aggregate.mk ["001"%byte] 3) 2000
                          [NewEvent.mk (EventId.mk ["012"%byte]) 258 None ∅]
                          None));
                    ([], CallFinalizeAggregate ["001"%byte])]
                   (mkPg empty_db [] [] 0)))
             [] [100] 0)).2 = inr listed
    ∧ (λ e, Aggregate.version (Event.aggregate e)) <$> listed = one_to N
    ∧ N = 3%nat.
Proof.
  destruct (listEvents_versions_dense
              [([], CallSaveEvents (constructor no_options)
                      (SaveEventsParams.mk (Aggregate.mk ["001"%byte] 1) 1000
                         [NewEvent.mk (EventId.mk ["010"%byte]) 257 None ∅;
                          NewEvent.mk (EventId.mk ["011"%byte]) 257 None ∅]
                         None));
               ([None; None; Some "40P01"%string],
                CallSaveEvents (constructor no_options)
                  (SaveEventsParams.mk (Aggregate.mk ["001"%byte] 3) 2000
                     [NewEvent.mk (EventId.mk ["012"%byte]) 258 None ∅]
                     None));
               ([], CallFinalizeAggregate ["001"%byte])]
              ["001"%byte]) as (N & listed & Hrun & Hversions & _).
  exists N, listed. split; [| split; [exact Hversions |]].
  - vm_compute in Hrun. vm_compute. injection Hrun as <-. reflexivity.
  - vm_compute in Hrun. injection Hrun as <-.
    apply (f_equal length) in Hversions. unfold one_to in Hversions.
    rewrite !length_fmap, length_seq in Hversions. vm_compute in Hversions.
    congruence.
Defined.

End listing_samples.

(** ** Failure modes of saveEvents *)

Section failure_modes.
Import PostgresStoreAdapter.
Local Open Scope Z_scope.
Context {joser : Joser}.

(** The aggregate record of [id] is marked final. *)
Definition is_final (d : Db) (id : Buffer) : Prop :=
  ∃ r, r ∈ t_aggregates d ∧ aggregates.id r = id ∧ aggregates.final r = true.

(** The version at which the stored log of an aggregate ends: the greatest
    version among its events, 0 for an empty log. *)
Definition log_end (d : Db) (id : Buffer) : Z :=
  foldr Z.max 0 (log_versions d id).

Lemma foldr_max_seq (a n : nat) :
  foldr Z.max 0 (Z.of_nat <$> seq a (S n)) = Z.of_nat (a + n).
Proof.
  revert a. induction n as [|n IH]; intros a.
  - simpl. lia.
  - change (seq a (S (S n))) with (a :: seq (S a) (S n)).
    rewrite fmap_cons.
    change (foldr Z.max 0 (Z.of_nat a :: (Z.of_nat <$> seq (S a) (S n))))
      with (Z.max (Z.of_nat a) (foldr Z.max 0 (Z.of_nat <$> seq (S a) (S n)))).
    rewrite IH. lia.
Qed.

Lemma log_end_one_to d id (N : nat) :
  log_versions d id = one_to N → log_end d id = Z.of_nat N.
Proof.
  unfold log_end, one_to. intros ->. destruct N as [|N]; [done |].
  rewrite foldr_max_seq. lia.
Qed.

Lemma filter_none {A} (P : A → Prop) `{∀ x, Decision (P x)} (l : list A) :
  (∀ x, x ∈ l → ¬ P x) → filter P l = [].
Proof.
  intros Hno. induction l as [|a l IH]; [done |].
  rewrite filter_cons_False by (apply Hno; left).
  apply IH. intros x Hx. apply Hno. by right.
Qed.

Lemma filter_key {A B} `{EqDecision B} (f : A → B) (l : list A) x :
  NoDup (f <$> l) → x ∈ l → filter (λ y, f y = f x) l = [x].
Proof.
  induction l as [|a l IH]; intros Hnd Hx.
  - by apply not_elem_of_nil in Hx.
  - rewrite fmap_cons in Hnd. apply NoDup_cons in Hnd as [Hnotin Hnd].
    apply elem_of_cons in Hx as [->|Hx].
    + rewrite filter_cons_True by done. f_equal.
      apply filter_none. intros y Hy Heq. apply Hnotin.
      rewrite <- Heq. by apply list_elem_of_fmap_2.
    + rewrite filter_cons_False; [by apply IH |].
      intros Heq. apply Hnotin. rewrite Heq. by apply list_elem_of_fmap_2.
Qed.

(** What [aggRes.rows[0]?.final] reads in a consistent store. *)
Lemma select_final_head d id :
  consistent d →
  default false (head (aggregates.final <$>
                         filter (λ r, aggregates.id r = id) (t_aggregates d)))
  = true ↔ is_final d id.
Proof.
  intros [Hpk _]. unfold is_final.
  destruct (decide (Exists (λ r, aggregates.id r = id) (t_aggregates d)))
    as [Hex|Hno].
  - apply Exists_exists in Hex as (r & Hr & <-).
    rewrite (filter_key aggregates.id) by done. simpl. split.
    + intros Hf. by exists r.
    + intros (r' & Hr' & Hid & Hf).
      by rewrite <- (NoDup_fmap_eq aggregates.id _ r' r Hpk Hr' Hr Hid).
  - rewrite filter_none.
    2:{ intros r Hr Hid. apply Hno, Exists_exists. eauto. }
    simpl. split; [done |]. intros (r & Hr & Hid & _).
    exfalso. apply Hno, Exists_exists. eauto.
Qed.

(** An attempt on a final aggregate. *)
Lemma saveEvents_attempt_final params pg :
  faults pg = [] → consistent (tables pg) →
  is_final (tables pg) (Aggregate.id (SaveEventsParams.aggregate params)) →
  saveEvents_attempt params pg
  = (pg, inl (AggregateIsFinalError
                (Aggregate.id (SaveEventsParams.aggregate params)))).
Proof.
  intros Hf Hc Hfin. apply select_final_head in Hfin; [| done].
  unfold saveEvents_attempt, transaction.
  rewrite with_client_no_fault by done.
  unfold saveEvents_statements. cbv zeta.
  unfold try_catch, bind, BEGIN, ROLLBACK, query, request, modify, throw, ret.
  simpl. rewrite Hfin. simpl. destruct pg; simpl in *; by subst.
Qed.

(** An attempt at a version the log does not reach, or has passed. *)
Lemma saveEvents_attempt_conflict params pg :
  faults pg = [] → consistent (tables pg) →
  ¬ is_final (tables pg) (Aggregate.id (SaveEventsParams.aggregate params)) →
  log_end (tables pg) (Aggregate.id (SaveEventsParams.aggregate params))
  ≠ Aggregate.version (SaveEventsParams.aggregate params) - 1 →
  saveEvents_attempt params pg
  = (pg, inl (AggregateVersionConflictError
                (Aggregate.id (SaveEventsParams.aggregate params))
                (Aggregate.version (SaveEventsParams.aggregate params)))).
Proof.
  intros Hf Hc Hnf Hend.
  set (id := Aggregate.id (SaveEventsParams.aggregate params)) in *.
  set (v := Aggregate.version (SaveEventsParams.aggregate params)) in *.
  assert (default false (head (aggregates.final <$>
            filter (λ r, aggregates.id r = id) (t_aggregates (tables pg))))
          = false) as Hhead.
  { destruct (default false _) eqn:E; [| done].
    by apply select_final_head in E. }
  destruct (log_dense _ Hc id) as (N & HN & Hver & Hzero).
  rewrite (log_end_one_to _ _ N HN) in Hend.
  unfold saveEvents_attempt, transaction.
  rewrite with_client_no_fault by done.
  unfold saveEvents_statements. cbv zeta. fold id v.
  unfold try_catch, bind, BEGIN, ROLLBACK, query, request, modify, throw, ret.
  simpl. rewrite Hhead. simpl.
  destruct (Z.eqb_spec v 1) as [Hv1|Hv1]; simpl.
  - unfold Sql.insert_aggregate. rewrite bool_decide_eq_true_2.
    2:{ destruct (decide (Exists (λ r, aggregates.id r = id)
                            (t_aggregates (tables pg)))) as [|Hno]; [done |].
        exfalso. apply Hend. rewrite Hzero; [lia |].
        intros r Hr Hid. apply Hno, Exists_exists. eauto. }
    simpl. destruct pg; simpl in *; by subst.
  - rewrite (proj2 (update_count_zero id (v - 1) (t_aggregates (tables pg)))).
    2:{ rewrite Exists_exists. intros (r & Hr & Hm).
        unfold Sql.update_matches in Hm.
        apply andb_true_iff in Hm as [Hm _].
        apply andb_true_iff in Hm as [Hid Hv].
        apply bool_decide_eq_true in Hid. apply Z.eqb_eq in Hv.
        apply Hend. rewrite <- (Hver r Hr Hid). done. }
    simpl. destruct pg; simpl in *; by subst.
Qed.

End failure_modes.

(** ** The retry policy of saveEvents *)

Section retry_policy.
Import PostgresStoreAdapter ExponentialBackoff.
Local Open Scope Z_scope.
Context {joser : Joser}.

Lemma shouldRetry_spec err :
  shouldRetry err = true
  ↔ err = DatabaseError serialization_failure
    ∨ err = DatabaseError deadlock_detected.
Proof.
  unfold shouldRetry, retryCodes, serialization_failure, deadlock_detected.
  destruct err as [m|id|id v|code|m]; simpl;
    try (split; [done | intros [|]; done]).
  rewrite bool_decide_eq_true, !elem_of_cons, elem_of_nil.
  split; [intros [->|[->|[]]]; auto | intros [[= ->]|[= ->]]; auto].
Qed.

Lemma saveEvents_first_attempt opts params pg :
  0 < Aggregate.version (SaveEventsParams.aggregate params) →
  ∃ k : nat,
    saveEvents opts params pg
    = match saveEvents_attempt params pg with
      | (pg1, inr a) => (pg1, inr a)
      | (pg1, inl e) =>
          if shouldRetry e && negb (k =? 0)%nat
          then execute sleep (sanitize (saveEvents_backoff opts))
                 (saveEvents_attempt params) k 1 pg1
          else (pg1, inl e)
      end
    ∧ S k = Z.to_nat (numOfAttempts (sanitize (saveEvents_backoff opts))).
Proof.
  intros Hv. unfold saveEvents. rewrite (proj2 (Z.ltb_lt _ _) Hv).
  unfold backOff. cbv zeta.
  destruct (Z.to_nat (numOfAttempts (sanitize (saveEvents_backoff opts))))
    as [|k] eqn:Hk.
  { exfalso. unfold sanitize in Hk.
    destruct (Z.ltb_spec (numOfAttempts (saveEvents_backoff opts)) 1);
      simpl in *; lia. }
  exists k. split; [| done]. simpl.
  assert (applyDelay sleep (sanitize (saveEvents_backoff opts)) 0 pg = pg) as ->.
  { unfold applyDelay, delay, sanitize.
    by destruct (numOfAttempts (saveEvents_backoff opts) <? 1). }
  destruct (saveEvents_attempt params pg) as [pg1 [e|a]]; [| done].
  assert (retry (sanitize (saveEvents_backoff opts)) = shouldRetry) as ->.
  { unfold sanitize. by destruct (numOfAttempts (saveEvents_backoff opts) <? 1). }
  done.
Qed.

(** An error outside the retry codes surfaces from the attempt that met
    it. *)
Lemma saveEvents_no_retry opts params pg pg1 err :
  0 < Aggregate.version (SaveEventsParams.aggregate params) →
  saveEvents_attempt params pg = (pg1, inl err) →
  shouldRetry err = false →
  saveEvents opts params pg = (pg1, inl err).
Proof.
  intros Hv Hatt Hno.
  destruct (saveEvents_first_attempt opts params pg Hv) as (k & -> & _).
  by rewrite Hatt, Hno.
Qed.

(** The waits of [saveEvents] under the default options. *)
Definition default_delays : list Z := [100; 200; 400; 800] ++ replicate 15 1600.

Lemma default_delays_prefix (k : nat) :
  (k ≤ 20)%nat →
  omap (delay (saveEvents_backoff (constructor no_options))) (seq 0 k)
  = take (k - 1) default_delays.
Proof.
  intros Hk.
  do 21 (destruct k as [|k]; [vm_compute; reflexivity |]). lia.
Qed.

(** *** The retry loop, attempt by attempt *)

(** The waits between the attempts of [saveEvents]: the starting delay,
    doubled after every failed attempt, and never more than the greatest
    delay.  [waits_from opts a k] are the [k] waits that follow the failed
    attempts number [a + 1], [a + 2], ... *)
Definition waits_from (opts : PostgresStoreAdapter.Options) (a k : nat) : list Z :=
  (λ i, Z.min (retryStartingDelay opts * 2 ^ Z.of_nat i) (retryMaxDelay opts))
    <$> seq a k.

Definition backoff_waits (opts : PostgresStoreAdapter.Options) (k : nat) : list Z :=
  waits_from opts 0 k.

(** The attempts the loop makes at most: [retryMaxAttempts], and at least
    one. *)
Definition attempts (opts : PostgresStoreAdapter.Options) : nat :=
  Z.to_nat (Z.max 1 (retryMaxAttempts opts)).

(** [failed_attempts params waits pg pg']: from [pg] on, one attempt per
    wait fails with an error the retry callback accepts and is followed by
    that wait; [pg'] is the store after the last wait. *)
Inductive failed_attempts (params : SaveEventsParams.t)
  : list Z → Pg → Pg → Prop :=
| failed_none pg : failed_attempts params [] pg pg
| failed_once wait waits pg pg1 err pg' :
    saveEvents_attempt params pg = (pg1, inl err) →
    shouldRetry err = true →
    failed_attempts params waits (sleep wait pg1) pg' →
    failed_attempts params (wait :: waits) pg pg'.

(** The loop once the wait before its next attempt is over, with [n]
    attempts left after that one. *)
Definition loop_from (opts : PostgresStoreAdapter.Options) (params : SaveEventsParams.t)
    (n a : nat) (pg : Pg) : Pg * (Error + unit) :=
  match saveEvents_attempt params pg with
  | (pg1, inr u) => (pg1, inr u)
  | (pg1, inl err) =>
      if shouldRetry err && negb (n =? 0)%nat
      then execute sleep (sanitize (saveEvents_backoff opts))
             (saveEvents_attempt params) n (S a) pg1
      else (pg1, inl err)
  end.

Lemma retry_sanitize o : retry (sanitize o) = retry o.
Proof. unfold sanitize. by destruct (numOfAttempts o <? 1). Qed.

Lemma delay_sanitize o a : delay (sanitize o) a = delay o a.
Proof. unfold sanitize, delay. by destruct (numOfAttempts o <? 1). Qed.

Lemma attempts_sanitize opts :
  Z.to_nat (numOfAttempts (sanitize (saveEvents_backoff opts)))
  = attempts opts.
Proof.
  unfold sanitize, attempts.
  destruct (Z.ltb_spec (numOfAttempts (saveEvents_backoff opts)) 1);
    simpl in *; lia.
Qed.

Lemma applyDelay_first opts pg :
  applyDelay sleep (sanitize (saveEvents_backoff opts)) 0 pg = pg.
Proof. unfold applyDelay. by rewrite delay_sanitize. Qed.

Lemma applyDelay_later opts a pg :
  applyDelay sleep (sanitize (saveEvents_backoff opts)) (S a) pg
  = sleep (Z.min (retryStartingDelay opts * 2 ^ Z.of_nat a)
                 (retryMaxDelay opts)) pg.
Proof. unfold applyDelay. by rewrite delay_sanitize. Qed.

Lemma execute_loop_from opts params n a pg :
  execute sleep (sanitize (saveEvents_backoff opts))
    (saveEvents_attempt params) (S n) a pg
  = loop_from opts params n a
      (applyDelay sleep (sanitize (saveEvents_backoff opts)) a pg).
Proof. rewrite execute_S. unfold loop_from. by rewrite retry_sanitize. Qed.

Lemma saveEvents_loop_from opts params pg :
  0 < Aggregate.version (SaveEventsParams.aggregate params) →
  saveEvents opts params pg = loop_from opts params (attempts opts - 1) 0 pg.
Proof.
  intros Hv. unfold saveEvents. rewrite (proj2 (Z.ltb_lt _ _) Hv).
  unfold backOff. cbv zeta. rewrite attempts_sanitize.
  assert (∃ n, attempts opts = S n) as [n Hn].
  { unfold attempts. exists (Z.to_nat (Z.max 1 (retryMaxAttempts opts)) - 1)%nat.
    lia. }
  rewrite Hn, execute_loop_from, applyDelay_first. f_equal. lia.
Qed.

Lemma waits_from_S opts a k :
  waits_from opts a (S k)
  = Z.min (retryStartingDelay opts * 2 ^ Z.of_nat a) (retryMaxDelay opts)
    :: waits_from opts (S a) k.
Proof. done. Qed.

(** After [k] failed attempts the loop stands before its next attempt. *)
Lemma loop_after_failures opts params waits pg pg_k :
  failed_attempts params waits pg pg_k →
  ∀ n a : nat,
    waits = waits_from opts a (length waits) →
    (length waits ≤ n)%nat →
    loop_from opts params n a pg
    = loop_from opts params (n - length waits) (a + length waits) pg_k.
Proof.
  induction 1 as [pg | wait waits pg pg1 err pg' Hatt Hretry Hrest IH];
    intros n a Hwaits Hn.
  - simpl. f_equal; lia.
  - simpl in Hwaits, Hn. rewrite waits_from_S in Hwaits.
    injection Hwaits as Hwait Hwaits.
    destruct n as [|n]; [lia |].
    unfold loop_from at 1. rewrite Hatt, Hretry. cbn [negb Nat.eqb andb].
    rewrite execute_loop_from, applyDelay_later, <- Hwait.
    rewrite (IH n (S a)) by (done || lia).
    simpl. f_equal. lia.
Qed.

Lemma failed_attempts_delays params waits pg pg_k :
  failed_attempts params waits pg pg_k →
  delays pg_k = delays pg ++ waits.
Proof.
  induction 1 as [pg | w ws pg pg1 e pg' Hatt Hretry Hrest IH].
  - by rewrite app_nil_r.
  - apply saveEvents_attempt_spec in Hatt as [Hd _].
    rewrite IH. simpl. rewrite Hd, <- app_assoc. done.
Qed.

(** Every run of the loop is a number of failed attempts, each followed by
    its wait, and a last attempt whose outcome is that of the loop. *)
Lemma loop_trace opts params (n : nat) :
  ∀ (a : nat) pg pg' r,
    loop_from opts params n a pg = (pg', r) →
    ∃ (k : nat) pg_k,
      (k ≤ n)%nat
      ∧ failed_attempts params (waits_from opts a k) pg pg_k
      ∧ saveEvents_attempt params pg_k = (pg', r)
      ∧ ∀ err, r = inl err → shouldRetry err = false ∨ k = n.
Proof.
  induction n as [|n IH]; intros a pg pg' r; unfold loop_from.
  - destruct (saveEvents_attempt params pg) as [pg1 [e|u]] eqn:E.
    + rewrite andb_false_r. intros [= <- <-].
      exists 0%nat, pg. split; [lia |]. split; [constructor |].
      split; [done |]. intros err _. by right.
    + intros [= <- <-]. exists 0%nat, pg. split; [lia |].
      split; [constructor |]. split; [done |]. intros err [=].
  - destruct (saveEvents_attempt params pg) as [pg1 [e|u]] eqn:E.
    + destruct (shouldRetry e) eqn:Hre; cbn [andb negb Nat.eqb].
      * rewrite execute_loop_from, applyDelay_later. intros Hrest.
        apply IH in Hrest as (k & pg_k & Hk & Hfailed & Hlast & Hwhy).
        exists (S k), pg_k. split; [lia |]. split.
        { rewrite waits_from_S. by eapply failed_once. }
        split; [done |]. intros err Herr.
        destruct (Hwhy err Herr) as [? | ->]; [by left | by right].
      * intros [= <- <-]. exists 0%nat, pg. split; [lia |].
        split; [constructor |]. split; [done |].
        intros err [= <-]. by left.
    + intros [= <- <-]. exists 0%nat, pg. split; [lia |].
      split; [constructor |]. split; [done |]. intros err [=].
Qed.

(** C2.  The failure modes of [saveEvents] for a version [v >= 1]:
    - on a consistent store, when the aggregate record is marked final,
      the call fails with [AggregateIsFinalError] (the check comes first);
    - when the record is not final and the stored log does not end at
      [v - 1], the call fails with [AggregateVersionConflictError id v];
    - the retry callback accepts exactly the codes 40001 (serialization
      failure) and 40P01 (deadlock);
    - by default the loop makes at most 20 attempts and waits 100, 200,
      400, 800 and then 1600 ms between them;
    - an attempt that fails with any other error surfaces that error at
      once: the call ends in the state that attempt left;
    - after [k] attempts that failed with transient errors, each followed
      by its wait (the starting delay doubled [i] times after the failed
      attempt number [i + 1], and never more than the greatest delay), the
      call returns when the next attempt succeeds, and fails with the error
      of the next attempt when that error is not transient or that attempt
      was the last one allowed;
    - and every call is such a run: some [k] attempts failed with
      transient errors, exactly their [k] waits were made, and the outcome
      is that of the attempt that followed. *)
Theorem saveEvents_failure_modes :
  (∀ opts params pg,
     0 < Aggregate.version (SaveEventsParams.aggregate params) →
     faults pg = [] → consistent (tables pg) →
     is_final (tables pg) (Aggregate.id (SaveEventsParams.aggregate params)) →
     saveEvents opts params pg
     = (pg, inl (AggregateIsFinalError
                   (Aggregate.id (SaveEventsParams.aggregate params)))))
  ∧ (∀ opts params pg,
     0 < Aggregate.version (SaveEventsParams.aggregate params) →
     faults pg = [] → consistent (tables pg) →
     ¬ is_final (tables pg) (Aggregate.id (SaveEventsParams.aggregate params)) →
     log_end (tables pg) (Aggregate.id (SaveEventsParams.aggregate params))
     ≠ Aggregate.version (SaveEventsParams.aggregate params) - 1 →
     saveEvents opts params pg
     = (pg, inl (AggregateVersionConflictError
                   (Aggregate.id (SaveEventsParams.aggregate params))
                   (Aggregate.version (SaveEventsParams.aggregate params)))))
  ∧ (∀ err, shouldRetry err = true
            ↔ err = DatabaseError "40001" ∨ err = DatabaseError "40P01")
  ∧ (attempts (constructor no_options) = 20%nat
     ∧ backoff_waits (constructor no_options) 19
       = [100; 200; 400; 800] ++ replicate 15 1600)
  ∧ (∀ opts params pg pg1 err,
     0 < Aggregate.version (SaveEventsParams.aggregate params) →
     saveEvents_attempt params pg = (pg1, inl err) →
     shouldRetry err = false →
     saveEvents opts params pg = (pg1, inl err))
  ∧ (∀ opts params pg (k : nat) pg_k pg' r,
     0 < Aggregate.version (SaveEventsParams.aggregate params) →
     (k < attempts opts)%nat →
     failed_attempts params (backoff_waits opts k) pg pg_k →
     saveEvents_attempt params pg_k = (pg', r) →
     match r with
     | inr _ => True
     | inl err => shouldRetry err = false ∨ S k = attempts opts
     end →
     saveEvents opts params pg = (pg', r)
     ∧ delays pg' = delays pg ++ backoff_waits opts k)
  ∧ (∀ opts params pg pg' r,
     0 < Aggregate.version (SaveEventsParams.aggregate params) →
     saveEvents opts params pg = (pg', r) →
     ∃ (k : nat) pg_k,
       (k < attempts opts)%nat
       ∧ failed_attempts params (backoff_waits opts k) pg pg_k
       ∧ saveEvents_attempt params pg_k = (pg', r)
       ∧ delays pg' = delays pg ++ backoff_waits opts k
       ∧ ∀ err, r = inl err → shouldRetry err = false ∨ S k = attempts opts).
Proof.
  split; [| split; [| split; [| split; [| split; [| split]]]]].
  - intros opts params pg Hv Hf Hc Hfin.
    apply saveEvents_no_retry; [done | | done].
    by apply saveEvents_attempt_final.
  - intros opts params pg Hv Hf Hc Hnf Hend.
    apply saveEvents_no_retry; [done | | done].
    by apply saveEvents_attempt_conflict.
  - apply shouldRetry_spec.
  - split; reflexivity.
  - apply saveEvents_no_retry.
  - intros opts params pg k pg_k pg' r Hv Hk Hfailed Hlast Hwhy.
    assert (length (backoff_waits opts k) = k) as Hlen.
    { unfold backoff_waits, waits_from. by rewrite length_fmap, length_seq. }
    split.
    + rewrite saveEvents_loop_from by done.
      rewrite (loop_after_failures opts params _ _ _ Hfailed _ 0%nat)
        by (rewrite Hlen; (done || lia)).
      rewrite Hlen. unfold loop_from. rewrite Hlast.
      destruct r as [err|u]; [| done].
      destruct Hwhy as [-> | Hk']; [done |].
      replace (attempts opts - 1 - k)%nat with 0%nat by lia.
      by rewrite andb_false_r.
    + apply failed_attempts_delays in Hfailed.
      apply saveEvents_attempt_spec in Hlast as [Hd _].
      by rewrite Hd.
  - intros opts params pg pg' r Hv Hrun.
    rewrite saveEvents_loop_from in Hrun by done.
    apply loop_trace in Hrun as (k & pg_k & Hk & Hfailed & Hlast & Hwhy).
    assert (0 < attempts opts)%nat as Hpos by (unfold attempts; lia).
    exists k, pg_k. split; [lia |]. split; [done |]. split; [done |].
    split.
    + apply failed_attempts_delays in Hfailed.
      apply saveEvents_attempt_spec in Hlast as [Hd _].
      by rewrite Hd.
    + intros err Herr. destruct (Hwhy err Herr) as [? | ->]; [by left |].
      right. lia.
Qed.

End retry_policy.

Section failure_modes_sample.
#[local] Existing Instance plain_joser.
Import PostgresStoreAdapter.
Local Open Scope Z_scope.

(** The store after the first batch was saved and the aggregate finalized. *)
Definition finalized_store : Pg :=
  history [([], CallSaveEvents default_options first_batch);
           ([], CallFinalizeAggregate sample_id)] empty_store.

(** A store whose first query meets a serialization failure. *)
Definition contended_store : Pg :=
  mkPg empty_db [None; None; Some "40001"%string] [] 0.

(** A batch for a final aggregate; a batch at version 3 for an aggregate
    whose log is empty; and a first batch whose first attempt meets a
    serialization failure: it is stored by the second attempt, after one
    wait of 100 ms. *)
Lemma saveEvents_failure_modes_witness :
  saveEvents default_options next_batch finalized_store
  = (finalized_store, inl (AggregateIsFinalError sample_id))
  ∧ saveEvents default_options next_batch empty_store
    = (empty_store, inl (AggregateVersionConflictError sample_id 3))
  ∧ saveEvents default_options first_batch contended_store
    = (mkPg (saved first_batch empty_db) [] [100] 0, inr tt).
Proof.
  split; [| split].
  - apply (proj1 saveEvents_failure_modes default_options next_batch
             finalized_store).
    + reflexivity.
    + reflexivity.
    + apply history_consistent, consistent_empty.
    + exists (aggregates.mk sample_id 2 1000 true).
      split; [vm_compute; constructor | split; reflexivity].
  - apply (proj1 (proj2 saveEvents_failure_modes) default_options next_batch
             empty_store).
    + reflexivity.
    + reflexivity.
    + apply consistent_empty.
    + intros (r & Hr & _). by apply not_elem_of_nil in Hr.
    + vm_compute. discriminate.
  - refine (proj1 (proj1 (proj2 (proj2 (proj2 (proj2 (proj2
              saveEvents_failure_modes)))))
              default_options first_batch contended_store 1%nat
              (sleep 100 (mkPg empty_db [] [] 0))
              (mkPg (saved first_batch empty_db) [] [100] 0) (inr tt)
              _ _ _ _ _)).
    + reflexivity.
    + vm_compute. lia.
    + apply (failed_once first_batch 100 [] contended_store
               (mkPg empty_db [] [] 0) (DatabaseError "40001")).
      * reflexivity.
      * reflexivity.
      * constructor.
    + reflexivity.
    + exact I.
Defined.

End failure_modes_sample.

(** ** saveSnapshot *)

Section snapshots.
Import PostgresStoreAdapter.
Local Open Scope Z_scope.
Context {joser : Joser}.

(** The snapshot rows stored under a key. *)
Definition snapshot_rows (d : Db) (key : Aggregate.t) : list snapshots.row :=
  filter (λ r, snapshots.aggregate_id r = Aggregate.id key
               ∧ snapshots.aggregate_version r = Aggregate.version key)
         (t_snapshots d).

(** The row [saveSnapshot] inserts. *)
Definition snapshot_row (params : Snapshot.t) : snapshots.row :=
  snapshots.mk (Aggregate.id (Snapshot.aggregate params))
               (Aggregate.version (Snapshot.aggregate params))
               (serialize (Snapshot.state params)) (Snapshot.timestamp params).

Lemma saveSnapshot_no_fault params pg :
  faults pg = [] →
  saveSnapshot params pg
  = match SqlQueries.insert_snapshot (snapshot_row params) (tables pg) with
    | inl e => (pg, inl e)
    | inr (d, a) => (mkPg d [] (delays pg) (now pg), inr a)
    end.
Proof.
  intros Hf. unfold saveSnapshot. rewrite with_client_no_fault by done.
  unfold query. rewrite request_no_fault by done. fold (snapshot_row params).
  cbn [cur]. destruct (SqlQueries.insert_snapshot _ _) as [e|[d a]]; simpl.
  - by rewrite release_id.
  - done.
Qed.

Lemma insert_snapshot_fresh params d :
  snapshot_rows d (Snapshot.aggregate params) = [] →
  SqlQueries.insert_snapshot (snapshot_row params) d
  = inr (mkDb (t_aggregates d) (t_events d)
              (t_snapshots d ++ [snapshot_row params])
              (t_projection_checkpoints d), tt).
Proof.
  intros Hnone. unfold SqlQueries.insert_snapshot.
  rewrite bool_decide_eq_false_2; [done |].
  rewrite Exists_exists. intros (r & Hr & Hid & Hv).
  assert (r ∈ snapshot_rows d (Snapshot.aggregate params)) as Hin
    by (apply list_elem_of_filter; done).
  rewrite Hnone in Hin. by apply not_elem_of_nil in Hin.
Qed.

Lemma insert_snapshot_taken params d :
  snapshot_rows d (Snapshot.aggregate params) ≠ [] →
  SqlQueries.insert_snapshot (snapshot_row params) d
  = inl (DatabaseError unique_violation).
Proof.
  intros Hsome. unfold SqlQueries.insert_snapshot.
  rewrite bool_decide_eq_true_2; [done |].
  destruct (snapshot_rows d (Snapshot.aggregate params)) as [|r l] eqn:E;
    [done |].
  assert (r ∈ snapshot_rows d (Snapshot.aggregate params)) as Hin
    by (rewrite E; left).
  apply list_elem_of_filter in Hin as [[Hid Hv] Hin].
  apply Exists_exists. exists r. done.
Qed.

(** C7 (amended).  [saveSnapshot] is a plain insert under the primary key
    [(aggregate.id, aggregate.version)]: on a store without a snapshot at
    that key the first call succeeds and stores its row; a second call with
    the same aggregate id and version fails with the unique-violation error
    23505 and changes nothing, so exactly one row, the first one, stays
    under the key. *)
Theorem saveSnapshot_insert_once first second pg :
  faults pg = [] →
  Snapshot.aggregate second = Snapshot.aggregate first →
  snapshot_rows (tables pg) (Snapshot.aggregate first) = [] →
  ∃ pg1,
    saveSnapshot first pg = (pg1, inr tt)
    ∧ saveSnapshot second pg1 = (pg1, inl (DatabaseError unique_violation))
    ∧ snapshot_rows (tables pg1) (Snapshot.aggregate first) = [snapshot_row first]
    ∧ t_snapshots (tables pg1) = t_snapshots (tables pg) ++ [snapshot_row first].
Proof.
  intros Hf Hkey Hnone.
  assert (snapshot_rows
            (mkDb (t_aggregates (tables pg)) (t_events (tables pg))
                  (t_snapshots (tables pg) ++ [snapshot_row first])
                  (t_projection_checkpoints (tables pg)))
            (Snapshot.aggregate first) = [snapshot_row first]) as Hone.
  { unfold snapshot_rows in *. simpl. rewrite filter_app, Hnone. simpl.
    by rewrite filter_cons_True. }
  eexists. split; [| split; [| split]].
  - rewrite saveSnapshot_no_fault by done.
    by rewrite insert_snapshot_fresh.
  - rewrite saveSnapshot_no_fault by done. simpl.
    rewrite insert_snapshot_taken; [done |]. by rewrite Hkey, Hone.
  - exact Hone.
  - done.
Qed.

End snapshots.

Section snapshots_samples.
Import PostgresStoreAdapter.
Local Open Scope Z_scope.
#[local] Existing Instance plain_joser.

(** C7 as the spec states it does not hold: [saveSnapshot] is no upsert,
    the second call with the key of the first is rejected by the primary key
    of [snapshots]. *)
Lemma saveSnapshot_second_call_fails :
  (saveSnapshot (Snapshot.mk (Aggregate.mk sample_id 20) (VNumber 7) 5000)
     empty_store).2 = inr tt
  ∧ (saveSnapshot (Snapshot.mk (Aggregate.mk sample_id 20) (VNumber 7) 5000)
       (saveSnapshot (Snapshot.mk (Aggregate.mk sample_id 20) (VNumber 7) 5000)
          empty_store).1).2
    = inl (DatabaseError "23505").
Proof. split; reflexivity. Qed.

Lemma saveSnapshot_insert_once_witness :
  ∃ pg1,
    saveSnapshot (Snapshot.mk (Aggregate.mk sample_id 20) (VNumber 7) 5000)
      empty_store = (pg1, inr tt)
    ∧ saveSnapshot (Snapshot.mk (Aggregate.mk sample_id 20) (VNumber 8) 6000) pg1
      = (pg1, inl (DatabaseError unique_violation))
    ∧ snapshot_rows (tables pg1) (Aggregate.mk sample_id 20)
      = [snapshots.mk sample_id 20 (VNumber 7) 5000]
    ∧ t_snapshots (tables pg1) = [snapshots.mk sample_id 20 (VNumber 7) 5000].
Proof.
  exact (saveSnapshot_insert_once
           (Snapshot.mk (Aggregate.mk sample_id 20) (VNumber 7) 5000)
           (Snapshot.mk (Aggregate.mk sample_id 20) (VNumber 8) 6000)
           empty_store eq_refl eq_refl eq_refl).
Defined.

End snapshots_samples.

(** ** findLatestSnapshot *)

Section latest_snapshot.
Import PostgresStoreAdapter SqlQueries.
Local Open Scope Z_scope.
Context {joser : Joser}.

(** The snapshot rows of an aggregate above the version of [key]. *)
Definition newer (d : Db) (key : Aggregate.t) : list snapshots.row :=
  filter (λ r, snapshots.aggregate_id r = Aggregate.id key
               ∧ Aggregate.version key < snapshots.aggregate_version r)
         (t_snapshots d).

(** The snapshot [findLatestSnapshot] builds from a row. *)
Definition snapshot_of_row (r : snapshots.row) : Snapshot.t :=
  Snapshot.mk (Aggregate.mk (snapshots.aggregate_id r)
                            (snapshots.aggregate_version r))
              (deserialize (snapshots.state r)) (snapshots.timestamp r).

Lemma snapshot_of_snapshot_row s :
  snapshot_of_row (snapshot_row s)
  = Snapshot.mk (Snapshot.aggregate s) (stored (Snapshot.state s))
                (Snapshot.timestamp s).
Proof. by destruct s as [[] ? ?]. Qed.

(** [null], numbers, strings and booleans: the values [this.serialize] and
    [this.deserialize] let through and JSON writes as they are. *)
Definition json_primitive (v : Value) : Prop :=
  match v with
  | VNull | VNumber _ | VString _ | VBoolean _ => True
  | _ => False
  end.

Lemma stored_primitive v : json_primitive v → stored v = v.
Proof. by destruct v. Qed.

#[local] Instance snapshots_order_total : Total snapshots_order.
Proof. intros r1 r2. unfold snapshots_order. lia. Qed.

#[local] Instance snapshots_order_trans : Transitive snapshots_order.
Proof. intros r1 r2 r3. unfold snapshots_order. lia. Qed.

(** The head of the rows in descending order is a row of greatest version. *)
Lemma latest_head (l : list snapshots.row) :
  match head (merge_sort snapshots_order l) with
  | None => l = []
  | Some r => r ∈ l ∧ ∀ r', r' ∈ l →
                snapshots.aggregate_version r' ≤ snapshots.aggregate_version r
  end.
Proof.
  pose proof (StronglySorted_merge_sort snapshots_order l) as Hs.
  pose proof (merge_sort_Permutation snapshots_order l) as Hp.
  destruct (merge_sort snapshots_order l) as [|r rest]; simpl.
  - symmetry in Hp. by apply Permutation_nil_r in Hp.
  - split.
    + rewrite <- Hp. left.
    + intros r' Hr'. rewrite <- Hp in Hr'.
      apply StronglySorted_inv in Hs as [_ Hall].
      apply elem_of_cons in Hr' as [-> | Hr']; [lia |].
      rewrite Forall_forall in Hall. by apply Hall.
Qed.

Lemma findLatestSnapshot_no_fault key pg :
  faults pg = [] →
  findLatestSnapshot key pg
  = (pg, inr (snapshot_of_row <$>
                head (merge_sort snapshots_order (newer (tables pg) key)))).
Proof.
  intros Hf. unfold findLatestSnapshot. rewrite with_client_no_fault by done.
  unfold bind, query. rewrite request_no_fault by done.
  unfold select_latest_snapshot. cbn [cur]. fold (newer (tables pg) key).
  destruct (merge_sort snapshots_order (newer (tables pg) key)) as [|r rest];
    simpl; by rewrite release_id.
Qed.

(** X1.  Without a driver error [findLatestSnapshot] changes nothing and
    answers with the snapshot of the stored row of the aggregate that has
    the greatest version among those strictly above the version passed (its
    state as [this.deserialize] reads the column); it answers [null]
    exactly when the aggregate has no snapshot above that version. *)
Theorem findLatestSnapshot_greatest key pg :
  faults pg = [] →
  ∃ result,
    findLatestSnapshot key pg = (pg, inr result)
    ∧ match result with
      | None =>
          ∀ r, r ∈ t_snapshots (tables pg) →
               snapshots.aggregate_id r = Aggregate.id key →
               snapshots.aggregate_version r ≤ Aggregate.version key
      | Some s =>
          (∃ row, row ∈ t_snapshots (tables pg) ∧ s = snapshot_of_row row)
          ∧ Aggregate.id (Snapshot.aggregate s) = Aggregate.id key
          ∧ Aggregate.version key < Aggregate.version (Snapshot.aggregate s)
          ∧ ∀ r, r ∈ t_snapshots (tables pg) →
                 snapshots.aggregate_id r = Aggregate.id key →
                 snapshots.aggregate_version r
                 ≤ Aggregate.version (Snapshot.aggregate s)
      end.
Proof.
  intros Hf. eexists. split; [by apply findLatestSnapshot_no_fault |].
  pose proof (latest_head (newer (tables pg) key)) as Hh.
  destruct (head _) as [r|]; simpl.
  - destruct Hh as [Hin Hmax].
    apply list_elem_of_filter in Hin as [[Hid Hv] Hin].
    split; [by exists r |]. split; [done |]. split; [done |].
    intros r' Hr' Hid'.
    destruct (decide (Aggregate.version key < snapshots.aggregate_version r'))
      as [Hlt|Hge]; [| lia].
    apply Hmax. apply list_elem_of_filter. done.
  - intros r Hr Hid.
    destruct (decide (Aggregate.version key < snapshots.aggregate_version r))
      as [Hlt|Hge]; [| lia].
    assert (r ∈ newer (tables pg) key) as Hn
      by (apply list_elem_of_filter; done).
    rewrite Hh in Hn. by apply not_elem_of_nil in Hn.
Qed.

(** X2.  A snapshot saved above every stored snapshot of its aggregate is
    the one [findLatestSnapshot] answers with afterwards, for every version
    below its own: its aggregate and timestamp, and its state as
    [this.deserialize] reads the document that
    [JSON.stringify(this.serialize(state))] wrote.  A state that is [null],
    a number, a string or a boolean comes back as it was; a buffer comes
    back as what [joser.deserialize] makes of
    [{ type: 'Buffer', data: [...] }]. *)
Theorem saveSnapshot_then_findLatest s v pg :
  faults pg = [] →
  (∀ r, r ∈ t_snapshots (tables pg) →
        snapshots.aggregate_id r = Aggregate.id (Snapshot.aggregate s) →
        snapshots.aggregate_version r < Aggregate.version (Snapshot.aggregate s)) →
  v < Aggregate.version (Snapshot.aggregate s) →
  let key := Aggregate.mk (Aggregate.id (Snapshot.aggregate s)) v in
  ∃ pg1,
    saveSnapshot s pg = (pg1, inr tt)
    ∧ findLatestSnapshot key pg1
      = (pg1, inr (Some (Snapshot.mk (Snapshot.aggregate s)
                                     (stored (Snapshot.state s))
                                     (Snapshot.timestamp s))))
    ∧ (json_primitive (Snapshot.state s) →
       findLatestSnapshot key pg1 = (pg1, inr (Some s)))
    ∧ (∀ b, Snapshot.state s = VBuffer b →
            stored (Snapshot.state s) = joser_deserialize (Buffer_toJSON b)).
Proof.
  intros Hf Hbelow Hv key.
  assert (snapshot_rows (tables pg) (Snapshot.aggregate s) = []) as Hnone.
  { apply filter_none. intros r Hr [Hid Hver].
    specialize (Hbelow r Hr Hid). lia. }
  eexists. split.
  { rewrite saveSnapshot_no_fault by done. by rewrite insert_snapshot_fresh. }
  assert (∀ pg1, faults pg1 = [] →
            t_snapshots (tables pg1)
            = t_snapshots (tables pg) ++ [snapshot_row s] →
            findLatestSnapshot key pg1
            = (pg1, inr (Some (Snapshot.mk (Snapshot.aggregate s)
                                           (stored (Snapshot.state s))
                                           (Snapshot.timestamp s))))) as Hfind.
  { intros pg1 Hf1 Hrows.
    rewrite findLatestSnapshot_no_fault by done. do 2 f_equal.
    pose proof (latest_head (newer (tables pg1) key)) as Hh.
    assert (snapshot_row s ∈ newer (tables pg1) key) as Hnew.
    { apply list_elem_of_filter. split; [done |].
      rewrite Hrows. apply elem_of_app. right. left. }
    destruct (head _) as [r|]; simpl.
    - destruct Hh as [Hin Hmax]. f_equal.
      specialize (Hmax _ Hnew).
      apply list_elem_of_filter in Hin as [[Hid _] Hin].
      rewrite Hrows in Hin. apply elem_of_app in Hin as [Hin | Hin].
      + specialize (Hbelow r Hin Hid). simpl in Hmax. lia.
      + apply list_elem_of_singleton in Hin as ->.
        apply snapshot_of_snapshot_row.
    - rewrite Hh in Hnew. by apply not_elem_of_nil in Hnew. }
  split; [by apply Hfind |]. split.
  - intros Hprim. rewrite Hfind by done.
    rewrite stored_primitive by done. by destruct s.
  - by intros b ->.
Qed.

End latest_snapshot.

Section latest_snapshot_samples.
Import PostgresStoreAdapter SqlQueries.
Local Open Scope Z_scope.
#[local] Existing Instance plain_joser.

(** A store with snapshots of one aggregate at the versions 10, 30 and 20,
    and one of another aggregate at version 40. *)
Definition snapshot_store : Pg :=
  mkPg (mkDb [] []
          [snapshots.mk sample_id 10 (VNumber 1) 1000;
           snapshots.mk sample_id 30 (VNumber 3) 3000;
           snapshots.mk sample_id 20 (VNumber 2) 2000;
           snapshots.mk ["002"%byte] 40 (VNumber 4) 4000] []) [] [] 0.

Lemma findLatestSnapshot_greatest_witness :
  ∃ result,
    findLatestSnapshot (Aggregate.mk sample_id 15) snapshot_store
    = (snapshot_store, inr result)
    ∧ match result with
      | None =>
          ∀ r, r ∈ t_snapshots (tables snapshot_store) →
               snapshots.aggregate_id r = sample_id →
               snapshots.aggregate_version r ≤ 15
      | Some s =>
          (∃ row, row ∈ t_snapshots (tables snapshot_store)
                  ∧ s = snapshot_of_row row)
          ∧ Aggregate.id (Snapshot.aggregate s) = sample_id
          ∧ 15 < Aggregate.version (Snapshot.aggregate s)
          ∧ ∀ r, r ∈ t_snapshots (tables snapshot_store) →
                 snapshots.aggregate_id r = sample_id →
                 snapshots.aggregate_version r
                 ≤ Aggregate.version (Snapshot.aggregate s)
      end.
Proof.
  exact (findLatestSnapshot_greatest (Aggregate.mk sample_id 15) snapshot_store
           eq_refl).
Defined.

(** A text state saved at version 50 is found from version 30. *)
Lemma saveSnapshot_then_findLatest_witness :
  ∃ pg1,
    saveSnapshot (Snapshot.mk (Aggregate.mk sample_id 50) (VString "open") 5000)
      snapshot_store = (pg1, inr tt)
    ∧ findLatestSnapshot (Aggregate.mk sample_id 30) pg1
      = (pg1, inr (Some (Snapshot.mk (Aggregate.mk sample_id 50)
                                     (VString "open") 5000))).
Proof.
  destruct (saveSnapshot_then_findLatest
              (Snapshot.mk (Aggregate.mk sample_id 50) (VString "open") 5000) 30
              snapshot_store) as (pg1 & Hsave & _ & Hfind & _).
  - reflexivity.
  - intros r Hr Hid. vm_compute in Hr.
    repeat (apply elem_of_cons in Hr as [-> | Hr];
            [simpl; first [lia | discriminate Hid] |]).
    by apply not_elem_of_nil in Hr.
  - reflexivity.
  - exists pg1. split; [exact Hsave | exact (Hfind I)].
Defined.

End latest_snapshot_samples.

(** ** saveProjectionCheckpoint, then checkProjectionCheckpoint *)

Section checkpoint_upsert.
Import PostgresStoreAdapter SqlQueries.
Local Open Scope Z_scope.

(** The checkpoint rows after the upsert of [(projection, id)] at
    [version]. *)
Definition checkpoints_after (projection : string) (id : Buffer) (version : Z)
    (now : Z) (rows : list projection_checkpoints.row)
  : list projection_checkpoints.row :=
  let same (r : projection_checkpoints.row) : Prop :=
    projection_checkpoints.projection r = projection
    ∧ projection_checkpoints.aggregate_id r = id in
  if bool_decide (Exists same rows)
  then (λ r, if bool_decide (same r)
             then projection_checkpoints.mk projection id version now
             else r) <$> rows
  else rows ++ [projection_checkpoints.mk projection id version now].

Lemma saveProjectionCheckpoint_no_fault params pg :
  faults pg = [] →
  saveProjectionCheckpoint params pg
  = (mkPg (mkDb (t_aggregates (tables pg)) (t_events (tables pg))
                (t_snapshots (tables pg))
                (checkpoints_after
                   (CheckpointParams.projection params)
                   (Aggregate.id (CheckpointParams.aggregate params))
                   (Aggregate.version (CheckpointParams.aggregate params))
                   (now pg) (t_projection_checkpoints (tables pg))))
          [] (delays pg) (now pg), inr tt).
Proof.
  intros Hf. unfold saveProjectionCheckpoint.
  rewrite with_client_no_fault by done.
  unfold query. by rewrite request_no_fault.
Qed.

(** The rows after an upsert: the new row, and the rows of the other
    keys. *)
Lemma elem_of_checkpoints_after p id v now rows r :
  r ∈ checkpoints_after p id v now rows
  ↔ r = projection_checkpoints.mk p id v now
    ∨ (r ∈ rows ∧ ¬ (projection_checkpoints.projection r = p
                     ∧ projection_checkpoints.aggregate_id r = id)).
Proof.
  unfold checkpoints_after. cbv zeta. case_bool_decide as Hex.
  - rewrite list_elem_of_fmap. split.
    + intros (r0 & -> & Hr0). case_bool_decide; [by left | by right].
    + intros [-> | [Hr Hn]].
      * apply Exists_exists in Hex as (r0 & Hr0 & Hsame).
        exists r0. by rewrite bool_decide_eq_true_2.
      * exists r. by rewrite bool_decide_eq_false_2.
  - rewrite elem_of_app, list_elem_of_singleton. split.
    + intros [Hr | ->]; [right | by left].
      split; [done |]. intros Hsame. apply Hex, Exists_exists. by exists r.
    + intros [-> | [Hr _]]; [by right | by left].
Qed.

Lemma covered_after p id v now d p' id' v' :
  covered (mkDb (t_aggregates d) (t_events d) (t_snapshots d)
                (checkpoints_after p id v now (t_projection_checkpoints d)))
          (CheckpointParams.mk p' (Aggregate.mk id' v'))
  ↔ if decide (p' = p ∧ id' = id)
    then v' ≤ v
    else covered d (CheckpointParams.mk p' (Aggregate.mk id' v')).
Proof.
  unfold covered. simpl. split.
  - intros (r & Hr & Hp & Hid & Hv).
    apply elem_of_checkpoints_after in Hr as [-> | [Hr Hn]]; simpl in *.
    + subst. by rewrite decide_True.
    + rewrite decide_False by (intros [-> ->]; by apply Hn). by exists r.
  - destruct (decide _) as [[-> ->] | Hn].
    + intros Hv. exists (projection_checkpoints.mk p id v now).
      split; [| done]. apply elem_of_checkpoints_after. by left.
    + intros (r & Hr & Hp & Hid & Hv). exists r. split; [| done].
      apply elem_of_checkpoints_after. right. split; [done |].
      intros [Hp' Hid']. apply Hn. by rewrite <- Hp, <- Hid.
Qed.

#[local] Existing Instance covered_dec.

Lemma checkProjectionCheckpoint_no_fault params pg :
  faults pg = [] →
  checkProjectionCheckpoint params pg
  = (pg, inr (bool_decide (¬ covered (tables pg) params))).
Proof.
  intros Hf.
  destruct (checkProjectionCheckpoint_returns params pg Hf) as [b Hb].
  rewrite Hb. do 2 f_equal.
  apply checkProjectionCheckpoint_result in Hb as [_ Hb].
  destruct b.
  - symmetry. apply bool_decide_eq_true. by apply Hb.
  - symmetry. apply bool_decide_eq_false. intros Hn. by apply Hb in Hn.
Qed.

(** X3.  [saveProjectionCheckpoint] overwrites: once it went through for a
    projection and an aggregate at version [v], whatever checkpoint the
    store held before (a higher one as well),
    [checkProjectionCheckpoint] for that pair answers [true] exactly for
    the versions above [v]; its answers for every other projection or
    aggregate are the ones the store gave before. *)
Theorem saveProjectionCheckpoint_then_check p id v pg :
  faults pg = [] →
  ∃ pg1,
    saveProjectionCheckpoint (CheckpointParams.mk p (Aggregate.mk id v)) pg
    = (pg1, inr tt)
    ∧ (∀ v', checkProjectionCheckpoint
               (CheckpointParams.mk p (Aggregate.mk id v')) pg1
             = (pg1, inr (v <? v')))
    ∧ (∀ p' id' v', ¬ (p' = p ∧ id' = id) →
         (checkProjectionCheckpoint
            (CheckpointParams.mk p' (Aggregate.mk id' v')) pg1).2
         = (checkProjectionCheckpoint
              (CheckpointParams.mk p' (Aggregate.mk id' v')) pg).2).
Proof.
  intros Hf. eexists. split; [by apply saveProjectionCheckpoint_no_fault |].
  cbn [CheckpointParams.projection CheckpointParams.aggregate Aggregate.id
       Aggregate.version].
  split.
  - intros v'. rewrite checkProjectionCheckpoint_no_fault by done.
    do 2 f_equal. cbn [tables].
    destruct (Z.ltb_spec v v') as [Hlt | Hge].
    + apply bool_decide_eq_true. rewrite covered_after.
      rewrite decide_True by done. lia.
    + apply bool_decide_eq_false. intros Hn. apply Hn.
      rewrite covered_after. by rewrite decide_True.
  - intros p' id' v' Hother.
    rewrite !checkProjectionCheckpoint_no_fault by done.
    cbn [snd tables]. f_equal.
    apply bool_decide_ext. rewrite covered_after.
    by rewrite decide_False.
Qed.

(** The checkpoint of "accounts" for aggregate [01] is at version 3 and is
    moved back to version 1. *)
Lemma saveProjectionCheckpoint_then_check_witness :
  ∃ pg1,
    saveProjectionCheckpoint
      (CheckpointParams.mk "accounts" (Aggregate.mk sample_id 1))
      checkpoint_store = (pg1, inr tt)
    ∧ (∀ v', checkProjectionCheckpoint
               (CheckpointParams.mk "accounts" (Aggregate.mk sample_id v')) pg1
             = (pg1, inr (1 <? v')))
    ∧ (∀ p' id' v', ¬ (p' = "accounts"%string ∧ id' = sample_id) →
         (checkProjectionCheckpoint
            (CheckpointParams.mk p' (Aggregate.mk id' v')) pg1).2
         = (checkProjectionCheckpoint
              (CheckpointParams.mk p' (Aggregate.mk id' v')) checkpoint_store).2).
Proof.
  exact (saveProjectionCheckpoint_then_check "accounts" sample_id 1
           checkpoint_store eq_refl).
Defined.

End checkpoint_upsert.

(** ** The order of the rows listEvents yields *)

Section log_order.
Import PostgresStoreAdapter.
Local Open Scope Z_scope.
Context {joser : Joser}.

Lemma Byte_to_N_inj x y : Byte.to_N x = Byte.to_N y → x = y.
Proof.
  intros H. pose proof (Byte.of_to_N x) as Hx. rewrite H, Byte.of_to_N in Hx.
  congruence.
Qed.

Lemma Buffer_compare_eq a b : Buffer_compare a b = Eq → a = b.
Proof.
  revert b. induction a as [|x a IH]; intros [|y b]; simpl; try done.
  destruct (N.compare_spec (Byte.to_N x) (Byte.to_N y)) as [E| |]; try done.
  intros Hab. apply Byte_to_N_inj in E. f_equal; [done | by apply IH].
Qed.

Lemma Buffer_compare_lt_trans a b c :
  Buffer_compare a b = Lt → Buffer_compare b c = Lt → Buffer_compare a c = Lt.
Proof.
  revert b c. induction a as [|x a IH]; intros [|y b] [|z c]; simpl; try done.
  destruct (N.compare_spec (Byte.to_N x) (Byte.to_N y)) as [E1|L1|G1];
    destruct (N.compare_spec (Byte.to_N y) (Byte.to_N z)) as [E2|L2|G2];
    try done.
  - rewrite E1, E2, N.compare_refl. apply IH.
  - intros _ _. rewrite E1. by rewrite (proj2 (N.compare_lt_iff _ _) L2).
  - intros _ _. rewrite <- E2. by rewrite (proj2 (N.compare_lt_iff _ _) L1).
  - intros _ _.
    assert (Byte.to_N x < Byte.to_N z)%N as L by lia.
    apply N.compare_lt_iff in L. by rewrite L.
Qed.

#[local] Instance events_order_trans : Transitive events_order.
Proof.
  intros r1 r2 r3. unfold events_order.
  destruct (Buffer_compare (events.aggregate_id r1) (events.aggregate_id r2))
    eqn:E12; [| | done];
    destruct (Buffer_compare (events.aggregate_id r2) (events.aggregate_id r3))
      eqn:E23; try done.
  - apply Buffer_compare_eq in E12, E23. rewrite E12, E23, Buffer_compare_refl.
    lia.
  - apply Buffer_compare_eq in E12. by rewrite E12, E23.
  - apply Buffer_compare_eq in E23. by rewrite <- E23, E12.
  - by rewrite (Buffer_compare_lt_trans _ _ _ E12 E23).
Qed.

#[local] Existing Instance events_order_total.

(** Rows of one aggregate whose versions grow are in the order of the
    query: sorting leaves them as they are. *)
Lemma merge_sort_log id (l : list events.row) :
  Forall (λ r, events.aggregate_id r = id) l →
  StronglySorted Z.lt (events.aggregate_version <$> l) →
  merge_sort events_order l = l.
Proof.
  intros Hid Hs.
  assert (∀ r, r ∈ l → events.aggregate_id r = id) as Hid'
    by (by apply Forall_forall).
  apply (StronglySorted_unique_strong events_order).
  - intros x1 x2 Hx1 Hx2. rewrite merge_sort_Permutation in Hx1.
    unfold events_order.
    rewrite (Hid' _ Hx1), (Hid' _ Hx2), Buffer_compare_refl.
    intros H12 H21.
    clear Hid Hid'. induction l as [|r l IH]; [by apply not_elem_of_nil in Hx1 |].
    rewrite fmap_cons in Hs. apply StronglySorted_inv in Hs as [Hs Hall].
    rewrite Forall_fmap, Forall_forall in Hall. simpl in Hall.
    apply elem_of_cons in Hx1 as [-> | Hx1];
      apply elem_of_cons in Hx2 as [-> | Hx2]; try done.
    + specialize (Hall _ Hx2). lia.
    + specialize (Hall _ Hx1). lia.
    + by apply IH.
  - apply StronglySorted_merge_sort; apply _.
  - clear Hid'. induction l as [|r l IH]; [constructor |].
    apply Forall_cons in Hid as [Hr Hl].
    rewrite fmap_cons in Hs. apply StronglySorted_inv in Hs as [Hs Hall].
    constructor; [by apply IH |].
    rewrite Forall_fmap in Hall. rewrite Forall_forall in *.
    intros r' Hr'. unfold events_order.
    rewrite Hr, (Hl _ Hr'), Buffer_compare_refl.
    specialize (Hall _ Hr'). simpl in Hall. lia.
  - apply merge_sort_Permutation.
Qed.

Lemma seq_strictly_sorted (a n : nat) :
  StronglySorted Z.lt (Z.of_nat <$> seq a n).
Proof.
  revert a. induction n as [|n IH]; intros a; [constructor |].
  simpl. constructor; [apply IH |].
  apply Forall_fmap, Forall_seq. intros j Hj. simpl. lia.
Qed.

(** The rows of an aggregate, in table order. *)
Definition log_rows (d : Db) (id : Buffer) : list events.row :=
  filter (λ r, events.aggregate_id r = id) (t_events d).

Lemma log_rows_versions (d : Db) id :
  consistent d →
  events.aggregate_version <$> log_rows d id = one_to (length (log_rows d id)).
Proof.
  intros [_ Hlog]. destruct (Hlog id) as (N & HN & _).
  unfold log_versions in HN. fold (log_rows d id) in HN.
  rewrite HN. f_equal.
  apply (f_equal length) in HN.
  rewrite length_fmap in HN. unfold one_to in HN.
  by rewrite length_fmap, length_seq in HN.
Qed.

(** In a log whose versions count up from [a], the rows above version [v]
    are the log without its first [v - a + 1] rows. *)
Lemma filter_above (l : list events.row) (a : nat) v :
  events.aggregate_version <$> l = Z.of_nat <$> seq a (length l) →
  filter (λ r, v < events.aggregate_version r) l
  = drop (Z.to_nat (v - Z.of_nat a + 1)) l.
Proof.
  revert a. induction l as [|r l IH]; intros a Hv; [by rewrite drop_nil |].
  simpl in Hv. injection Hv as Hr Hl. specialize (IH (S a) Hl).
  destruct (decide (v < events.aggregate_version r)) as [Hlt | Hge].
  - rewrite filter_cons_True by done. rewrite IH.
    replace (Z.to_nat (v - Z.of_nat (S a) + 1)) with 0%nat by lia.
    replace (Z.to_nat (v - Z.of_nat a + 1)) with 0%nat by lia. done.
  - rewrite filter_cons_False by done. rewrite IH.
    replace (Z.to_nat (v - Z.of_nat a + 1))
      with (S (Z.to_nat (v - Z.of_nat (S a) + 1))) by lia.
    done.
Qed.

(** The parameters of a listing of one aggregate above a version. *)
Definition log_from (id : Buffer) (v : Z) : ListEventsParams.t :=
  ListEventsParams.mk (Some (ListEventsParams.mkAggregate id (Some v))) None.

Lemma select_whole_log d id :
  consistent d →
  merge_sort events_order
    (filter (λ r, SqlQueries.listEvents_where (whole_log id) r = true)
            (t_events d))
  = log_rows d id.
Proof.
  intros Hc.
  rewrite (list_filter_iff _ (λ r, events.aggregate_id r = id)).
  2:{ intros r. unfold SqlQueries.listEvents_where. simpl.
      rewrite !andb_true_r. apply bool_decide_eq_true. }
  fold (log_rows d id). apply (merge_sort_log id).
  - apply Forall_forall. intros r Hr.
    by apply list_elem_of_filter in Hr as [? _].
  - rewrite log_rows_versions by done. apply seq_strictly_sorted.
Qed.

Lemma select_log_from d id v :
  consistent d →
  merge_sort events_order
    (filter (λ r, SqlQueries.listEvents_where (log_from id v) r = true)
            (t_events d))
  = drop (Z.to_nat v) (log_rows d id).
Proof.
  intros Hc.
  pose proof (log_rows_versions d id Hc) as Hver. unfold one_to in Hver.
  assert (filter (λ r, SqlQueries.listEvents_where (log_from id v) r = true)
                 (t_events d)
          = drop (Z.to_nat v) (log_rows d id)) as ->.
  { destruct (decide (v = 0)) as [-> | Hv].
    - simpl. apply list_filter_iff. intros r.
      unfold SqlQueries.listEvents_where. simpl.
      rewrite !andb_true_r. apply bool_decide_eq_true.
    - rewrite (list_filter_iff _ (λ r, v < events.aggregate_version r
                                       ∧ events.aggregate_id r = id)).
      2:{ intros r. unfold SqlQueries.listEvents_where. simpl.
          rewrite (proj2 (Z.eqb_neq v 0) Hv).
          rewrite andb_true_r, andb_true_iff, bool_decide_eq_true, Z.ltb_lt.
          tauto. }
      rewrite <- list_filter_filter. fold (log_rows d id).
      rewrite (filter_above _ 1) by done. f_equal. lia. }
  apply (merge_sort_log id).
  - apply Forall_forall. intros r Hr. apply subseteq_drop in Hr.
    by apply list_elem_of_filter in Hr as [? _].
  - rewrite fmap_drop, Hver, <- fmap_drop.
    rewrite drop_seq. apply seq_strictly_sorted.
Qed.

End log_order.

(** ** saveEvents: the batches that go through *)

Section accepted.
Import PostgresStoreAdapter.
Local Open Scope Z_scope.
Context {joser : Joser}.

(** The event ids of a batch are new: distinct, and none of them stored. *)
Definition fresh_ids (params : SaveEventsParams.t) (d : Db) : Prop :=
  NoDup ((λ e, EventId.buffer (NewEvent.id e)) <$> SaveEventsParams.events params)
  ∧ Forall (λ e, Forall (λ r, events.id r ≠ EventId.buffer (NewEvent.id e))
                        (t_events d))
           (SaveEventsParams.events params).

(** The loop of inserts goes through when the aggregate record exists, the
    ids are new and the stored versions of the aggregate are below the ones
    the loop assigns. *)
Lemma insertEvents_fresh params index rest c :
  pending c = [] →
  Exists (λ a, aggregates.id a = Aggregate.id (SaveEventsParams.aggregate params))
         (t_aggregates (cur c)) →
  NoDup ((λ e, EventId.buffer (NewEvent.id e)) <$> rest) →
  Forall (λ e, Forall (λ r, events.id r ≠ EventId.buffer (NewEvent.id e))
                      (t_events (cur c))) rest →
  Forall (λ r, events.aggregate_id r
               = Aggregate.id (SaveEventsParams.aggregate params) →
               events.aggregate_version r
               < Aggregate.version (SaveEventsParams.aggregate params) + index)
         (t_events (cur c)) →
  insertEvents params index rest c
  = (mkClient (mkDb (t_aggregates (cur c))
                    (t_events (cur c) ++ rows_from params index rest)
                    (t_snapshots (cur c)) (t_projection_checkpoints (cur c)))
              (snapshot c) [] (clock c), inr tt).
Proof.
  revert index c.
  induction rest as [|event rest IH]; intros index c Hp Hfk Hnd Hfresh Hbound.
  - simpl. unfold ret. rewrite app_nil_r.
    destruct c as [[] ? ? ?]; simpl in *; by subst.
  - rewrite fmap_cons in Hnd. apply NoDup_cons in Hnd as [Hhead Hnd].
    apply Forall_cons in Hfresh as [Hev Hfresh].
    cbn [insertEvents]. unfold bind at 1. unfold query.
    rewrite request_no_fault by done.
    unfold Sql.insert_event.
    rewrite bool_decide_eq_false_2.
    2:{ rewrite Exists_exists. intros (r & Hr & Hid).
        rewrite Forall_forall in Hev. by apply (Hev r Hr). }
    rewrite bool_decide_eq_false_2.
    2:{ rewrite Exists_exists. intros (r & Hr & Hid & Hv).
        rewrite Forall_forall in Hbound. specialize (Hbound r Hr Hid).
        simpl in Hv. lia. }
    rewrite bool_decide_eq_true_2 by done.
    rewrite IH; cbn [cur pending snapshot clock t_aggregates t_events
                     t_snapshots t_projection_checkpoints]; try done.
    + rewrite <- app_assoc. done.
    + rewrite Forall_forall in *. intros e He.
      apply Forall_app. split; [by apply Hfresh |].
      apply Forall_singleton. simpl. intros Heq. apply Hhead.
      rewrite Heq. by apply (list_elem_of_fmap_2
                               (λ e, EventId.buffer (NewEvent.id e))).
    + apply Forall_app. split.
      * eapply Forall_impl; [exact Hbound |]. simpl. intros r Hr Hid.
        specialize (Hr Hid). lia.
      * apply Forall_singleton. simpl. intros _. lia.
Qed.

(** The log of an aggregate whose record admits a batch at version [v] ends
    at [v - 1]. *)
Lemma admits_log params d :
  consistent d → admits params d →
  0 < Aggregate.version (SaveEventsParams.aggregate params) →
  log_versions d (Aggregate.id (SaveEventsParams.aggregate params))
  = one_to (Z.to_nat (Aggregate.version (SaveEventsParams.aggregate params) - 1)).
Proof.
  intros [Hpk Hlog] Hadm Hpos. unfold admits in Hadm. cbv zeta in Hadm.
  destruct (Hlog (Aggregate.id (SaveEventsParams.aggregate params)))
    as (N & HN & Hver & Hzero).
  rewrite HN. f_equal.
  destruct (Z.eqb_spec (Aggregate.version (SaveEventsParams.aggregate params)) 1)
    as [Hv1 | Hv1].
  - rewrite Hzero; [lia |]. intros r Hr Hid. apply Hadm, Exists_exists. eauto.
  - apply Exists_exists in Hadm as (r & Hr & Hm).
    unfold Sql.update_matches in Hm.
    apply andb_true_iff in Hm as [Hm _]. apply andb_true_iff in Hm as [Hid Hv].
    apply bool_decide_eq_true in Hid. apply Z.eqb_eq in Hv.
    specialize (Hver r Hr Hid). lia.
Qed.

(** The record that admits a batch is not final. *)
Lemma admits_not_final params d :
  consistent d → admits params d →
  default false (head (aggregates.final <$>
     filter (λ r, aggregates.id r
                  = Aggregate.id (SaveEventsParams.aggregate params))
            (t_aggregates d))) = false.
Proof.
  intros Hc Hadm. unfold admits in Hadm. cbv zeta in Hadm.
  destruct (Aggregate.version (SaveEventsParams.aggregate params) =? 1).
  - rewrite filter_none; [done |].
    intros r Hr Hid. apply Hadm, Exists_exists. eauto.
  - apply Exists_exists in Hadm as (r & Hr & Hm).
    unfold Sql.update_matches in Hm.
    apply andb_true_iff in Hm as [Hm Hfin]. apply andb_true_iff in Hm as [Hid _].
    apply bool_decide_eq_true in Hid. rewrite <- Hid.
    rewrite (filter_key aggregates.id); [| apply Hc | done].
    simpl. by destruct (aggregates.final r).
Qed.

Lemma aggregates_after_has_record params rows :
  admits params (mkDb rows [] [] []) →
  Exists (λ a, aggregates.id a = Aggregate.id (SaveEventsParams.aggregate params))
         (aggregates_after params rows).
Proof.
  unfold admits, aggregates_after. cbv zeta. simpl.
  destruct (Aggregate.version (SaveEventsParams.aggregate params) =? 1).
  - intros _. apply Exists_app. right. by constructor.
  - rewrite !Exists_exists. intros (r & Hr & Hm).
    eexists. split; [by apply list_elem_of_fmap_2 |]. simpl.
    rewrite Hm. simpl. unfold Sql.update_matches in Hm.
    apply andb_true_iff in Hm as [Hm _]. apply andb_true_iff in Hm as [Hid _].
    by apply bool_decide_eq_true in Hid.
Qed.

(** The statements of [saveEvents] on a store that admits the batch. *)
Lemma saveEvents_statements_accepts params c :
  pending c = [] → consistent (cur c) → admits params (cur c) →
  0 < Aggregate.version (SaveEventsParams.aggregate params) →
  fresh_ids params (cur c) →
  saveEvents_statements params c
  = (mkClient (saved params (cur c)) (snapshot c) [] (clock c), inr tt).
Proof.
  intros Hp Hc Hadm Hpos [Hnd Hfresh].
  pose proof (admits_not_final params (cur c) Hc Hadm) as Hhead.
  pose proof (admits_log params (cur c) Hc Hadm Hpos) as Hlog.
  assert (Exists (λ a, aggregates.id a
                       = Aggregate.id (SaveEventsParams.aggregate params))
                 (aggregates_after params (t_aggregates (cur c)))) as Hrec.
  { apply aggregates_after_has_record. by destruct (cur c). }
  assert (Forall (λ r, events.aggregate_id r
                       = Aggregate.id (SaveEventsParams.aggregate params) →
                       events.aggregate_version r
                       < Aggregate.version (SaveEventsParams.aggregate params) + 0)
                 (t_events (cur c))) as Hbound.
  { apply Forall_forall. intros r Hr Hid.
    assert (events.aggregate_version r
            ∈ log_versions (cur c)
                (Aggregate.id (SaveEventsParams.aggregate params))) as Hin.
    { unfold log_versions. apply list_elem_of_fmap_2.
      by apply list_elem_of_filter. }
    rewrite Hlog in Hin. unfold one_to in Hin.
    apply list_elem_of_fmap in Hin as (k & -> & Hk).
    apply elem_of_seq in Hk. lia. }
  unfold saveEvents_statements. cbv zeta.
  unfold bind at 1. unfold query at 1. rewrite request_no_fault by done.
  unfold Sql.select_final at 1. cbn [cur].
  unfold bind at 1. rewrite Hhead. unfold ret at 1.
  unfold bind at 1.
  unfold admits in Hadm. cbv zeta in Hadm.
  unfold saved, batch_rows. unfold aggregates_after in *. cbv zeta in *.
  destruct (Aggregate.version (SaveEventsParams.aggregate params) =? 1).
  - unfold try_catch, query at 1. rewrite request_no_fault by done.
    unfold Sql.insert_aggregate. cbn [cur].
    rewrite bool_decide_eq_false_2 by done.
    rewrite insertEvents_fresh; done.
  - unfold bind at 1. unfold query at 1. rewrite request_no_fault by done.
    unfold Sql.update_aggregate. cbn [cur].
    destruct (Z.eqb_spec
                (Z.of_nat (length (filter
                   (λ r, Sql.update_matches
                           (Aggregate.id (SaveEventsParams.aggregate params))
                           (Aggregate.version (SaveEventsParams.aggregate params) - 1)
                           r = true) (t_aggregates (cur c))))) 0) as [Hz | Hz].
    { by apply update_count_zero in Hz. }
    unfold ret at 1.
    rewrite insertEvents_fresh; done.
Qed.

(** One attempt with no driver error on a store that admits the batch. *)
Lemma saveEvents_attempt_accepts params pg :
  faults pg = [] → consistent (tables pg) → admits params (tables pg) →
  0 < Aggregate.version (SaveEventsParams.aggregate params) →
  fresh_ids params (tables pg) →
  saveEvents_attempt params pg
  = (mkPg (saved params (tables pg)) [] (delays pg) (now pg), inr tt).
Proof.
  intros Hf Hc Hadm Hpos Hfresh.
  unfold saveEvents_attempt, transaction.
  rewrite with_client_no_fault by done.
  unfold try_catch, bind at 1. unfold BEGIN. rewrite request_no_fault by done.
  unfold modify. cbn [cur snapshot pending clock].
  unfold bind at 1.
  rewrite saveEvents_statements_accepts by done.
  cbn [cur snapshot pending clock].
  unfold COMMIT. rewrite request_no_fault by done. unfold modify. done.
Qed.

Lemma saveEvents_accepts_any opts params pg :
  faults pg = [] → consistent (tables pg) → admits params (tables pg) →
  0 < Aggregate.version (SaveEventsParams.aggregate params) →
  fresh_ids params (tables pg) →
  saveEvents opts params pg
  = (mkPg (saved params (tables pg)) [] (delays pg) (now pg), inr tt).
Proof.
  intros Hf Hc Hadm Hpos Hfresh.
  destruct (saveEvents_first_attempt opts params pg Hpos) as (k & -> & _).
  by rewrite saveEvents_attempt_accepts.
Qed.

End accepted.

(** ** Appending to a log and reading it back *)

Section append_and_list.
Import PostgresStoreAdapter.
Local Open Scope Z_scope.
Context {joser : Joser}.

(** X4.  [saveEvents] accepts every well-formed append: on a consistent
    store and with no driver error, a batch at a version [v >= 1] whose
    event ids are new goes through at the first attempt when the record
    admits it (no record for [v = 1]; else a record at version [v - 1] that
    is not final), and the store then holds the whole batch. *)
Theorem saveEvents_accepts opts params pg :
  faults pg = [] → consistent (tables pg) → admits params (tables pg) →
  0 < Aggregate.version (SaveEventsParams.aggregate params) →
  fresh_ids params (tables pg) →
  saveEvents opts params pg
  = (mkPg (saved params (tables pg)) [] (delays pg) (now pg), inr tt).
Proof. apply saveEvents_accepts_any. Qed.

(** X5.  On a consistent store [listEvents] of an aggregate yields its
    rows in table order, and a listing above version [v] is that listing
    without its first [v] events (all of it for [v <= 0], nothing once [v]
    reaches the end of the log). *)
Theorem listEvents_from_version id pg :
  faults pg = [] → consistent (tables pg) →
  ∃ log,
    listEvents (whole_log id) pg = (pg, inr log)
    ∧ log = event_of_row <$> log_rows (tables pg) id
    ∧ ∀ v, listEvents (log_from id v) pg = (pg, inr (drop (Z.to_nat v) log)).
Proof.
  intros Hf Hc. eexists. split; [| split; [reflexivity |]].
  - rewrite listEvents_no_fault by done. by rewrite select_whole_log.
  - intros v. rewrite listEvents_no_fault by done.
    rewrite select_log_from by done. by rewrite fmap_drop.
Qed.

Lemma log_rows_saved params d :
  log_rows (saved params d) (Aggregate.id (SaveEventsParams.aggregate params))
  = log_rows d (Aggregate.id (SaveEventsParams.aggregate params))
    ++ batch_rows params.
Proof.
  unfold log_rows, saved, batch_rows. simpl.
  by rewrite filter_app, rows_from_filter_same.
Qed.

(** The event [listEvents] yields for the event at position [index] of a
    batch that went through: its id and type, the version of the batch plus
    [index], the body and the metadata the serializer of the adapter reads
    back from the documents it stored, and the timestamp of the call. *)
Definition listed_event (params : SaveEventsParams.t) (index : nat)
    (event : NewEvent.t) : Event.t JsObject :=
  Event.mk (NewEvent.id event) (NewEvent.type event)
           (Aggregate.mk
              (Aggregate.id (SaveEventsParams.aggregate params))
              (Aggregate.version (SaveEventsParams.aggregate params)
               + Z.of_nat index))
           (as_body (stored (body_value (NewEvent.body event))))
           (as_object
              (stored (VObject (spread_opt (NewEvent.meta event)
                                           (SaveEventsParams.meta params)))))
           (SaveEventsParams.timestamp params).

Lemma event_of_rows_from params (index : nat) events :
  event_of_row <$> rows_from params (Z.of_nat index) events
  = imap (λ i, listed_event params (index + i)) events.
Proof.
  revert index. induction events as [|event events IH]; intros index; [done |].
  cbn [rows_from fmap list_fmap imap]. f_equal.
  - unfold event_of_row, event_row, listed_event, stored. simpl.
    destruct (NewEvent.id event). by rewrite Nat.add_0_r.
  - replace (Z.of_nat index + 1) with (Z.of_nat (S index)) by lia.
    rewrite IH. apply imap_ext. intros i x _. simpl. f_equal. lia.
Qed.

Lemma event_of_batch_rows params :
  event_of_row <$> batch_rows params
  = imap (listed_event params) (SaveEventsParams.events params).
Proof. apply (event_of_rows_from params 0). Qed.

Lemma spread_opt_lookup (a : JsObject) (b : option JsObject) (k : string) :
  spread_opt a b !! k
  = match b ≫= (λ o, o !! k) with Some v => Some v | None => a !! k end.
Proof.
  destruct b as [b|]; [| done]. simpl. unfold spread.
  rewrite lookup_union. by destruct (b !! k), (a !! k).
Qed.

(** X6.  What [saveEvents] stored is what [listEvents] reads: after a
    batch at version [v] went through, the listing of the aggregate above
    [v - 1] is the batch, event by event: the event at position [i] comes
    with its id and type, the version [v + i], the timestamp of the call,
    and the body and the metadata the serializer of the adapter reads back
    from the JSON documents it wrote for them; a [null] body comes back
    [null], and the metadata written are those of the event with those of
    the call laid over them key by key.  The whole listing is the former one
    followed by the batch. *)
Theorem saveEvents_then_listEvents opts params pg :
  faults pg = [] → consistent (tables pg) → admits params (tables pg) →
  0 < Aggregate.version (SaveEventsParams.aggregate params) →
  fresh_ids params (tables pg) →
  let id := Aggregate.id (SaveEventsParams.aggregate params) in
  let v := Aggregate.version (SaveEventsParams.aggregate params) in
  let batch := imap (listed_event params) (SaveEventsParams.events params) in
  (∃ pg1 before,
     saveEvents opts params pg = (pg1, inr tt)
     ∧ listEvents (whole_log id) pg = (pg, inr before)
     ∧ listEvents (log_from id (v - 1)) pg1 = (pg1, inr batch)
     ∧ listEvents (whole_log id) pg1 = (pg1, inr (before ++ batch)))
  ∧ (∀ i event,
       SaveEventsParams.events params !! i = Some event →
       batch !! i
       = Some (Event.mk (NewEvent.id event) (NewEvent.type event)
                 (Aggregate.mk id (v + Z.of_nat i))
                 (as_body (stored (body_value (NewEvent.body event))))
                 (as_object
                    (stored (VObject (spread_opt (NewEvent.meta event)
                                        (SaveEventsParams.meta params)))))
                 (SaveEventsParams.timestamp params))
       ∧ (NewEvent.body event = None →
          as_body (stored (body_value (NewEvent.body event))) = None)
       ∧ ∀ k, spread_opt (NewEvent.meta event) (SaveEventsParams.meta params)
                !! k
              = match SaveEventsParams.meta params ≫= (λ o, o !! k) with
                | Some value => Some value
                | None => NewEvent.meta event !! k
                end).
Proof.
  intros Hf Hc Hadm Hpos Hfresh id v batch.
  pose proof (consistent_saved params (tables pg) Hpos Hadm Hc) as Hc1.
  pose proof (admits_log params (tables pg) Hc Hadm Hpos) as Hlog.
  assert (length (log_rows (tables pg) id) = Z.to_nat (v - 1)) as Hlen.
  { apply (f_equal length) in Hlog. unfold log_versions, one_to in Hlog.
    by rewrite !length_fmap, length_seq in Hlog. }
  split.
  - unfold batch. rewrite <- event_of_batch_rows.
    eexists. eexists. split; [by apply saveEvents_accepts_any |].
    split; [| split].
    + rewrite listEvents_no_fault by done. by rewrite select_whole_log.
    + rewrite listEvents_no_fault by done. cbn [tables].
      rewrite select_log_from by done. unfold id.
      rewrite log_rows_saved. by rewrite drop_app_length'.
    + rewrite listEvents_no_fault by done. cbn [tables].
      rewrite select_whole_log by done. unfold id.
      by rewrite log_rows_saved, fmap_app.
  - intros i event Hi. split; [| split].
    + unfold batch. rewrite list_lookup_imap, Hi. done.
    + by intros ->.
    + intros k. apply spread_opt_lookup.
Qed.

End append_and_list.

Section append_and_list_samples.
Import PostgresStoreAdapter.
Local Open Scope Z_scope.
#[local] Existing Instance plain_joser.

(** The store after the first sample batch. *)
Definition one_batch_store : Pg :=
  history [([], CallSaveEvents default_options first_batch)] empty_store.

Lemma saveEvents_accepts_witness :
  saveEvents default_options next_batch one_batch_store
  = (mkPg (saved next_batch (tables one_batch_store)) []
          (delays one_batch_store) (now one_batch_store), inr tt).
Proof.
  apply (saveEvents_accepts default_options next_batch one_batch_store).
  - reflexivity.
  - apply history_consistent, consistent_empty.
  - vm_compute. constructor. reflexivity.
  - reflexivity.
  - split.
    + compute_done.
    + compute_done.
Defined.

(** The store after both sample batches: three events. *)
Definition two_batch_store : Pg :=
  history [([], CallSaveEvents default_options first_batch);
           ([], CallSaveEvents default_options next_batch)] empty_store.

Lemma listEvents_from_version_witness :
  ∃ log,
    listEvents (whole_log sample_id) two_batch_store = (two_batch_store, inr log)
    ∧ log = event_of_row <$> log_rows (tables two_batch_store) sample_id
    ∧ ∀ v, listEvents (log_from sample_id v) two_batch_store
           = (two_batch_store, inr (drop (Z.to_nat v) log)).
Proof.
  apply (listEvents_from_version sample_id two_batch_store).
  - reflexivity.
  - apply history_consistent, consistent_empty.
Defined.

(** A batch of two events at version 3: the first with a body and
    metadata of its own, the second with neither; the call has metadata
    too. *)
Definition detailed_batch : SaveEventsParams.t :=
  SaveEventsParams.mk (Aggregate.mk sample_id 3) 2000
    [NewEvent.mk (EventId.mk ["012"%byte]) 258
       (Some {[ "amount" := VNumber 10 ]})
       {[ "user" := VString "ada"; "source" := VString "web" ]};
     NewEvent.mk (EventId.mk ["013"%byte]) 259 None ∅]
    (Some {[ "source" := VString "api" ]}).

Lemma saveEvents_then_listEvents_witness :
  ∃ pg1 before,
    saveEvents default_options detailed_batch one_batch_store = (pg1, inr tt)
    ∧ listEvents (whole_log sample_id) one_batch_store
      = (one_batch_store, inr before)
    ∧ listEvents (log_from sample_id (3 - 1)) pg1
      = (pg1,
         inr [Event.mk (EventId.mk ["012"%byte]) 258 (Aggregate.mk sample_id 3)
                (Some {[ "amount" := VNumber 10 ]})
                {[ "user" := VString "ada"; "source" := VString "api" ]}
                2000;
              Event.mk (EventId.mk ["013"%byte]) 259 (Aggregate.mk sample_id 4)
                None {[ "source" := VString "api" ]} 2000])
    ∧ length before = 2%nat.
Proof.
  destruct (saveEvents_then_listEvents default_options detailed_batch
              one_batch_store)
    as [(pg1 & before & Hsave & Hbefore & Hbatch & _) _].
  - reflexivity.
  - apply history_consistent, consistent_empty.
  - vm_compute. constructor. reflexivity.
  - reflexivity.
  - split.
    + compute_done.
    + compute_done.
  - exists pg1, before. split; [exact Hsave |]. split; [exact Hbefore |].
    split; [exact Hbatch |].
    rewrite (listEvents_no_fault (whole_log sample_id) one_batch_store)
      in Hbefore by reflexivity.
    injection Hbefore as <-. reflexivity.
Defined.

End append_and_list_samples.

(** ** saveEvents: the batches that are turned down *)

Section rejected.
Import PostgresStoreAdapter ExponentialBackoff.
Local Open Scope Z_scope.
Context {joser : Joser}.

(** Up to the loop of inserts, on a store whose record admits the batch. *)
Lemma saveEvents_statements_prefix params c :
  pending c = [] → consistent (cur c) → admits params (cur c) →
  saveEvents_statements params c
  = insertEvents params 0 (SaveEventsParams.events params)
      (mkClient (mkDb (aggregates_after params (t_aggregates (cur c)))
                      (t_events (cur c)) (t_snapshots (cur c))
                      (t_projection_checkpoints (cur c)))
                (snapshot c) [] (clock c)).
Proof.
  intros Hp Hc Hadm.
  pose proof (admits_not_final params (cur c) Hc Hadm) as Hhead.
  unfold saveEvents_statements. cbv zeta.
  unfold bind at 1. unfold query at 1. rewrite request_no_fault by done.
  unfold Sql.select_final at 1. cbn [cur].
  unfold bind at 1. rewrite Hhead. unfold ret at 1.
  unfold bind at 1.
  unfold admits in Hadm. cbv zeta in Hadm.
  unfold aggregates_after. cbv zeta.
  destruct (Aggregate.version (SaveEventsParams.aggregate params) =? 1).
  - unfold try_catch, query at 1. rewrite request_no_fault by done.
    unfold Sql.insert_aggregate. cbn [cur].
    rewrite bool_decide_eq_false_2 by done. simpl. by rewrite Hp.
  - unfold bind at 1. unfold query at 1. rewrite request_no_fault by done.
    unfold Sql.update_aggregate. cbn [cur].
    destruct (Z.eqb_spec
                (Z.of_nat (length (filter
                   (λ r, Sql.update_matches
                           (Aggregate.id (SaveEventsParams.aggregate params))
                           (Aggregate.version (SaveEventsParams.aggregate params) - 1)
                           r = true) (t_aggregates (cur c))))) 0) as [Hz | Hz].
    { by apply update_count_zero in Hz. }
    simpl. by rewrite Hp.
Qed.

(** The loop of inserts stops with a unique violation when an id of the
    batch is stored already or comes twice. *)
Lemma insertEvents_dup params index rest c :
  pending c = [] →
  Exists (λ a, aggregates.id a = Aggregate.id (SaveEventsParams.aggregate params))
         (t_aggregates (cur c)) →
  Forall (λ r, events.aggregate_id r
               = Aggregate.id (SaveEventsParams.aggregate params) →
               events.aggregate_version r
               < Aggregate.version (SaveEventsParams.aggregate params) + index)
         (t_events (cur c)) →
  ¬ (NoDup ((λ e, EventId.buffer (NewEvent.id e)) <$> rest)
     ∧ Forall (λ e, Forall (λ r, events.id r ≠ EventId.buffer (NewEvent.id e))
                           (t_events (cur c))) rest) →
  ∃ c', insertEvents params index rest c
        = (c', inl (DatabaseError unique_violation))
        ∧ snapshot c' = snapshot c ∧ pending c' = [] ∧ clock c' = clock c.
Proof.
  revert index c.
  induction rest as [|event rest IH]; intros index c Hp Hfk Hbound Hdup.
  { exfalso. apply Hdup. split; constructor. }
  cbn [insertEvents]. unfold bind at 1. unfold query.
  rewrite request_no_fault by done. unfold Sql.insert_event.
  destruct (decide (Exists (λ r', events.id r'
                                  = events.id (event_row params index event))
                           (t_events (cur c)))) as [Hstored | Hnew].
  { rewrite bool_decide_eq_true_2 by done. by exists c. }
  rewrite bool_decide_eq_false_2 by done.
  rewrite bool_decide_eq_false_2.
  2:{ rewrite Exists_exists. intros (r & Hr & Hid & Hv).
      rewrite Forall_forall in Hbound. specialize (Hbound r Hr Hid).
      simpl in Hv. lia. }
  rewrite bool_decide_eq_true_2 by done.
  match goal with
  | |- context [insertEvents params (index + 1) rest ?c1] =>
      destruct (IH (index + 1) c1) as (c' & -> & Hs & Hp' & Hk)
  end; cbn [cur pending snapshot clock t_aggregates t_events] in *; try done.
  - apply Forall_app. split.
    + eapply Forall_impl; [exact Hbound |]. simpl. intros r Hr Hid.
      specialize (Hr Hid). lia.
    + apply Forall_singleton. simpl. intros _. lia.
  - intros [Hnd Hfresh]. apply Hdup. split.
    + rewrite fmap_cons. apply NoDup_cons. split; [| done].
      intros Hin. apply list_elem_of_fmap in Hin as (e & Heq & He).
      rewrite Forall_forall in Hfresh. specialize (Hfresh e He).
      apply Forall_app in Hfresh as [_ Hrow].
      rewrite Forall_singleton in Hrow. by apply Hrow.
    + apply Forall_cons. split.
      * apply Forall_forall. intros r Hr Hid. apply Hnew, Exists_exists.
        by exists r.
      * eapply Forall_impl; [exact Hfresh |]. simpl. intros e He.
        by apply Forall_app in He as [? _].
  - by exists c'.
Qed.

Lemma saveEvents_attempt_duplicate params pg :
  faults pg = [] → consistent (tables pg) → admits params (tables pg) →
  0 < Aggregate.version (SaveEventsParams.aggregate params) →
  ¬ fresh_ids params (tables pg) →
  saveEvents_attempt params pg = (pg, inl (DatabaseError unique_violation)).
Proof.
  intros Hf Hc Hadm Hpos Hdup.
  pose proof (admits_log params (tables pg) Hc Hadm Hpos) as Hlog.
  unfold saveEvents_attempt, transaction.
  rewrite with_client_no_fault by done.
  unfold try_catch, bind at 1. unfold BEGIN. rewrite request_no_fault by done.
  unfold modify. cbn [cur snapshot pending clock].
  unfold bind at 1.
  rewrite saveEvents_statements_prefix by done.
  cbn [cur snapshot pending clock].
  match goal with
  | |- context [insertEvents params 0 _ ?c1] =>
      destruct (insertEvents_dup params 0 (SaveEventsParams.events params) c1)
        as (c' & -> & Hs & Hp' & Hk)
  end; cbn [cur pending snapshot clock t_aggregates t_events] in *; try done.
  - apply aggregates_after_has_record. by destruct (tables pg).
  - apply Forall_forall. intros r Hr Hid.
    assert (events.aggregate_version r
            ∈ log_versions (tables pg)
                (Aggregate.id (SaveEventsParams.aggregate params))) as Hin.
    { unfold log_versions. apply list_elem_of_fmap_2.
      by apply list_elem_of_filter. }
    rewrite Hlog in Hin. unfold one_to in Hin.
    apply list_elem_of_fmap in Hin as (k & -> & Hk).
    apply elem_of_seq in Hk. lia.
  - unfold bind, ROLLBACK, modify, throw, release. cbn [fst snd].
    cbn [cur snapshot pending clock]. rewrite Hs, Hp'.
    destruct pg; simpl in *; by subst.
Qed.

(** X7.  An event id that is stored already, or that comes twice in the
    batch, makes an otherwise well-formed [saveEvents] fail with the
    driver's unique violation 23505, not with a version conflict; the call
    is not retried and leaves the store, the schedule and the clock as they
    were. *)
Theorem saveEvents_duplicate_event_id opts params pg :
  faults pg = [] → consistent (tables pg) → admits params (tables pg) →
  0 < Aggregate.version (SaveEventsParams.aggregate params) →
  ¬ fresh_ids params (tables pg) →
  saveEvents opts params pg = (pg, inl (DatabaseError "23505")).
Proof.
  intros Hf Hc Hadm Hpos Hdup.
  apply saveEvents_no_retry; [done | | done].
  by apply saveEvents_attempt_duplicate.
Qed.

(** An attempt on a record that does not admit the batch. *)
Lemma saveEvents_attempt_rejects params pg :
  faults pg = [] → consistent (tables pg) →
  ¬ is_final (tables pg) (Aggregate.id (SaveEventsParams.aggregate params)) →
  ¬ admits params (tables pg) →
  saveEvents_attempt params pg
  = (pg, inl (AggregateVersionConflictError
                (Aggregate.id (SaveEventsParams.aggregate params))
                (Aggregate.version (SaveEventsParams.aggregate params)))).
Proof.
  intros Hf Hc Hnf Hnadm.
  set (id := Aggregate.id (SaveEventsParams.aggregate params)) in *.
  set (v := Aggregate.version (SaveEventsParams.aggregate params)) in *.
  assert (default false (head (aggregates.final <$>
            filter (λ r, aggregates.id r = id) (t_aggregates (tables pg))))
          = false) as Hhead.
  { destruct (default false _) eqn:E; [| done].
    by apply select_final_head in E. }
  unfold admits in Hnadm. cbv zeta in Hnadm. fold id v in Hnadm.
  unfold saveEvents_attempt, transaction.
  rewrite with_client_no_fault by done.
  unfold saveEvents_statements. cbv zeta. fold id v.
  unfold try_catch, bind, BEGIN, ROLLBACK, query, request, modify, throw, ret.
  simpl. rewrite Hhead. simpl.
  destruct (Z.eqb_spec v 1) as [Hv1|Hv1]; simpl.
  - unfold Sql.insert_aggregate. rewrite bool_decide_eq_true_2.
    2:{ destruct (decide (Exists (λ r, aggregates.id r = id)
                            (t_aggregates (tables pg)))) as [|Hno]; done. }
    simpl. destruct pg; simpl in *; by subst.
  - rewrite (proj2 (update_count_zero id (v - 1) (t_aggregates (tables pg))))
      by done.
    simpl. destruct pg; simpl in *; by subst.
Qed.

End rejected.

Section rejected_samples.
Import PostgresStoreAdapter ExponentialBackoff.
Local Open Scope Z_scope.
#[local] Existing Instance plain_joser.

(** A batch at version 3 that sends the id of the first stored event
    again. *)
Definition replayed_batch : SaveEventsParams.t :=
  SaveEventsParams.mk (Aggregate.mk sample_id 3) 2000
    [sample_event "012"; sample_event "010"] None.

Lemma saveEvents_duplicate_event_id_witness :
  saveEvents default_options replayed_batch one_batch_store
  = (one_batch_store, inl (DatabaseError "23505")).
Proof.
  apply (saveEvents_duplicate_event_id default_options replayed_batch
           one_batch_store).
  - reflexivity.
  - apply history_consistent, consistent_empty.
  - vm_compute. constructor. reflexivity.
  - reflexivity.
  - unfold fresh_ids. compute_done.
Defined.

End rejected_samples.

(** ** An empty first batch, and the retry loop at work *)

Section retries.
Import PostgresStoreAdapter ExponentialBackoff.
Local Open Scope Z_scope.
Context {joser : Joser}.

(** X8.  A first batch without events leaves a record at version 0 that
    no later batch gets past: [saveEvents] at version 1 with an empty list
    of events succeeds on an aggregate that has no record, and from then on
    every [saveEvents] for that aggregate, at whatever version, fails with
    [AggregateVersionConflictError]. *)
Theorem saveEvents_empty_first_batch id timestamp meta opts pg :
  faults pg = [] → consistent (tables pg) →
  (∀ r, r ∈ t_aggregates (tables pg) → aggregates.id r ≠ id) →
  ∃ pg1,
    saveEvents opts (SaveEventsParams.mk (Aggregate.mk id 1) timestamp [] meta) pg
    = (pg1, inr tt)
    ∧ ∀ opts' params',
        Aggregate.id (SaveEventsParams.aggregate params') = id →
        0 < Aggregate.version (SaveEventsParams.aggregate params') →
        saveEvents opts' params' pg1
        = (pg1, inl (AggregateVersionConflictError id
                       (Aggregate.version (SaveEventsParams.aggregate params')))).
Proof.
  intros Hf Hc Hnone.
  set (first := SaveEventsParams.mk (Aggregate.mk id 1) timestamp [] meta).
  assert (admits first (tables pg)) as Hadm.
  { unfold admits. simpl. rewrite Exists_exists. intros (r & Hr & Hid).
    by apply (Hnone r). }
  eexists. split.
  { apply saveEvents_accepts_any; try done.
    split; [constructor | constructor]. }
  intros opts' params' Hid Hpos.
  assert (t_aggregates (saved first (tables pg))
          = t_aggregates (tables pg) ++ [aggregates.mk id 0 timestamp false])
    as Hrows by done.
  apply saveEvents_no_retry; [done | | done].
  rewrite <- Hid. apply saveEvents_attempt_rejects; cbn [tables faults].
  - done.
  - by apply (consistent_saved first).
  - rewrite Hid. intros (r & Hr & Hrid & Hfin). rewrite Hrows in Hr.
    apply elem_of_app in Hr as [Hr | Hr]; [by apply (Hnone r) |].
    apply list_elem_of_singleton in Hr. by subst r.
  - unfold admits. cbv zeta. rewrite Hid, Hrows.
    destruct (Z.eqb_spec (Aggregate.version (SaveEventsParams.aggregate params')) 1)
      as [Hv1 | Hv1].
    + intros Hno. apply Hno. apply Exists_app. right. by constructor.
    + rewrite Exists_exists. intros (r & Hr & Hm).
      unfold Sql.update_matches in Hm.
      apply andb_true_iff in Hm as [Hm _]. apply andb_true_iff in Hm as [Hrid Hv].
      apply bool_decide_eq_true in Hrid. apply Z.eqb_eq in Hv.
      apply elem_of_app in Hr as [Hr | Hr]; [by apply (Hnone r) |].
      apply list_elem_of_singleton in Hr. subst r. simpl in Hv. lia.
Qed.

(** X9.  The retry loop does its work: when the first attempt of a
    well-formed append meets a transient driver error (40001 or 40P01) and
    the next one meets none, [saveEvents] under the default options
    succeeds after exactly one wait of 100 ms, and the store holds the
    batch once. *)
Theorem saveEvents_retries_transient params pg pg1 err :
  saveEvents_attempt params pg = (pg1, inl err) →
  shouldRetry err = true →
  faults pg1 = [] →
  consistent (tables pg) → admits params (tables pg) →
  0 < Aggregate.version (SaveEventsParams.aggregate params) →
  fresh_ids params (tables pg) →
  saveEvents (constructor no_options) params pg
  = (mkPg (saved params (tables pg)) [] (delays pg ++ [100]) (now pg), inr tt).
Proof.
  intros Hatt Hretry Hf1 Hc Hadm Hpos Hfresh.
  destruct (saveEvents_first_attempt (constructor no_options) params pg Hpos)
    as (k & -> & Hk).
  change (Z.to_nat (numOfAttempts
            (sanitize (saveEvents_backoff (constructor no_options)))))
    with 20%nat in Hk.
  assert (k = 19%nat) as -> by lia.
  rewrite Hatt, Hretry.
  apply saveEvents_attempt_spec in Hatt as (Hd & Hn & Ht).
  rewrite execute_S.
  change (applyDelay sleep
            (sanitize (saveEvents_backoff (constructor no_options))) 1 pg1)
    with (sleep 100 pg1).
  rewrite saveEvents_attempt_accepts; cbn [sleep tables faults delays now];
    rewrite ?Ht; try done.
  by rewrite Hd, Hn.
Qed.

(** An attempt that cannot get a connection. *)
Lemma saveEvents_attempt_no_connection params pg code rest :
  faults pg = Some code :: rest →
  saveEvents_attempt params pg
  = (mkPg (tables pg) rest (delays pg) (now pg), inl (DatabaseError code)).
Proof.
  intros Hf. unfold saveEvents_attempt, transaction, with_client, connect.
  by rewrite Hf.
Qed.

(** A loop all of whose attempts fail at once with an error it retries. *)
Lemma execute_exhausts {A} o (attempt : M Pg A) code :
  (∀ pg rest, faults pg = Some code :: rest →
     attempt pg
     = (mkPg (tables pg) rest (delays pg) (now pg), inl (DatabaseError code))) →
  retry o (DatabaseError code) = true →
  ∀ (k j a : nat) pg,
    faults pg = replicate (S k + j) (Some code) →
    execute sleep o attempt (S k) a pg
    = (mkPg (tables pg) (replicate j (Some code))
            (delays pg ++ omap (delay o) (seq a (S k))) (now pg),
       inl (DatabaseError code)).
Proof.
  intros Hatt Hretry.
  assert (∀ a pg, tables (applyDelay sleep o a pg) = tables pg
                  ∧ faults (applyDelay sleep o a pg) = faults pg
                  ∧ now (applyDelay sleep o a pg) = now pg
                  ∧ delays (applyDelay sleep o a pg)
                    = delays pg ++ omap (delay o) [a]) as Hdelay.
  { intros a pg. unfold applyDelay. simpl.
    destruct (delay o a); simpl; [done |]. by rewrite app_nil_r. }
  induction k as [|k IH]; intros j a pg Hf.
  - destruct (Hdelay a pg) as (Ht & Hfa & Hn & Hd).
    rewrite execute_S. rewrite (Hatt _ (replicate j (Some code)))
      by (by rewrite Hfa, Hf).
    rewrite Hretry, Ht, Hn, Hd. done.
  - destruct (Hdelay a pg) as (Ht & Hfa & Hn & Hd).
    rewrite execute_S. rewrite (Hatt _ (replicate (S k + j) (Some code)))
      by (by rewrite Hfa, Hf).
    rewrite Hretry. cbn [negb Nat.eqb andb].
    rewrite (IH j) by done. cbn [tables delays now].
    rewrite Ht, Hn, Hd, <- app_assoc. do 3 f_equal.
    change (seq a (S (S k))) with (a :: seq (S a) (S k)).
    simpl. by destruct (delay o a).
Qed.

(** X10.  The retry loop gives up: when every connection attempt fails
    with a transient driver error (40001 or 40P01), [saveEvents] under the
    default options makes exactly 20 attempts, waits 100, 200, 400, 800 and
    then fifteen times 1600 ms between them, and fails with the error of
    the last attempt; no table changes. *)
Theorem saveEvents_gives_up params pg code (m : nat) :
  code ∈ retryCodes → (20 ≤ m)%nat →
  0 < Aggregate.version (SaveEventsParams.aggregate params) →
  faults pg = replicate m (Some code) →
  saveEvents (constructor no_options) params pg
  = (mkPg (tables pg) (replicate (m - 20) (Some code))
          (delays pg ++ [100; 200; 400; 800] ++ replicate 15 1600) (now pg),
     inl (DatabaseError code)).
Proof.
  intros Hcode Hm Hpos Hf.
  unfold saveEvents. rewrite (proj2 (Z.ltb_lt _ _) Hpos).
  unfold backOff. cbv zeta.
  change (Z.to_nat (numOfAttempts
            (sanitize (saveEvents_backoff (constructor no_options)))))
    with 20%nat.
  change (sanitize (saveEvents_backoff (constructor no_options)))
    with (saveEvents_backoff (constructor no_options)).
  rewrite (execute_exhausts _ _ code) with (j := (m - 20)%nat).
  - by rewrite default_delays_prefix.
  - intros pg0 rest. apply saveEvents_attempt_no_connection.
  - simpl. by apply bool_decide_eq_true.
  - rewrite Hf. f_equal. lia.
Qed.

End retries.

Section retries_samples.
Import PostgresStoreAdapter ExponentialBackoff.
Local Open Scope Z_scope.
#[local] Existing Instance plain_joser.

Lemma saveEvents_empty_first_batch_witness :
  ∃ pg1,
    saveEvents default_options
      (SaveEventsParams.mk (Aggregate.mk sample_id 1) 1000 [] None) empty_store
    = (pg1, inr tt)
    ∧ ∀ opts' params',
        Aggregate.id (SaveEventsParams.aggregate params') = sample_id →
        0 < Aggregate.version (SaveEventsParams.aggregate params') →
        saveEvents opts' params' pg1
        = (pg1, inl (AggregateVersionConflictError sample_id
                       (Aggregate.version (SaveEventsParams.aggregate params')))).
Proof.
  apply (saveEvents_empty_first_batch sample_id 1000 None default_options
           empty_store).
  - reflexivity.
  - apply consistent_empty.
  - intros r Hr. by apply not_elem_of_nil in Hr.
Defined.

(** The second batch, with a deadlock met by its [UPDATE]. *)
Definition deadlocked_store : Pg :=
  mkPg (tables one_batch_store) [None; None; None; Some "40P01"%string] [] 0.

Lemma saveEvents_retries_transient_witness :
  saveEvents (constructor no_options) next_batch deadlocked_store
  = (mkPg (saved next_batch (tables deadlocked_store)) []
          (delays deadlocked_store ++ [100]) (now deadlocked_store), inr tt).
Proof.
  apply (saveEvents_retries_transient next_batch deadlocked_store
           (mkPg (tables one_batch_store) [] [] 0) (DatabaseError "40P01")).
  - reflexivity.
  - reflexivity.
  - reflexivity.
  - apply history_consistent, consistent_empty.
  - vm_compute. constructor. reflexivity.
  - reflexivity.
  - split; compute_done.
Defined.

Lemma saveEvents_gives_up_witness :
  saveEvents (constructor no_options) first_batch
    (mkPg empty_db (replicate 21 (Some "40001"%string)) [] 0)
  = (mkPg empty_db (replicate (21 - 20) (Some "40001"%string))
          ([] ++ [100; 200; 400; 800] ++ replicate 15 1600) 0,
     inl (DatabaseError "40001")).
Proof.
  apply (saveEvents_gives_up first_batch
           (mkPg empty_db (replicate 21 (Some "40001"%string)) [] 0)
           "40001" 21).
  - compute_done.
  - compute_done.
  - reflexivity.
  - reflexivity.
Defined.

End retries_samples.

(** ** finalizeAggregate *)

Section finalize.
Import PostgresStoreAdapter ExponentialBackoff.
Local Open Scope Z_scope.
Context {joser : Joser}.

Lemma finalizeAggregate_attempt_no_fault id pg :
  faults pg = [] →
  finalizeAggregate_attempt id pg
  = (mkPg (finalized id (tables pg)) [] (delays pg) (now pg), inr tt).
Proof.
  intros Hf. unfold finalizeAggregate_attempt, transaction.
  by rewrite with_client_no_fault.
Qed.

Lemma finalizeAggregate_no_fault id pg :
  faults pg = [] →
  finalizeAggregate id pg
  = (mkPg (finalized id (tables pg)) [] (delays pg) (now pg), inr tt).
Proof.
  intros Hf. unfold finalizeAggregate, backOff. cbv zeta.
  change (Z.to_nat (numOfAttempts (sanitize finalizeAggregate_backoff)))
    with 10%nat.
  rewrite execute_S.
  change (applyDelay sleep (sanitize finalizeAggregate_backoff) 0 pg) with pg.
  by rewrite finalizeAggregate_attempt_no_fault.
Qed.

(** What [finalizeAggregate] does to an event row. *)
Definition finalized_row (id : Buffer) (r : events.row) : events.row :=
  if bool_decide (events.aggregate_id r = id)
  then events.mk (events.id r) (events.type r) (events.aggregate_id r)
         (events.aggregate_version r) (events.body r) (events.meta r)
         (events.timestamp r) true
  else r.

Lemma log_rows_finalized id d id' :
  log_rows (finalized id d) id' = finalized_row id <$> log_rows d id'.
Proof.
  unfold log_rows, finalized. simpl.
  apply (filter_fmap_preserved (λ r, events.aggregate_id r = id')).
  intros r. unfold finalized_row. by case_bool_decide.
Qed.

Lemma event_of_finalized_row id (l : list events.row) :
  event_of_row <$> (finalized_row id <$> l) = event_of_row <$> l.
Proof.
  rewrite <- list_fmap_compose. apply list_fmap_ext.
  intros _ r _. simpl. unfold finalized_row. by case_bool_decide.
Qed.

Lemma finalized_idempotent id d : finalized id (finalized id d) = finalized id d.
Proof.
  unfold finalized. simpl. f_equal.
  - rewrite <- list_fmap_compose. apply list_fmap_ext. intros _ r _. simpl.
    destruct (decide (aggregates.id r = id)) as [Hid | Hid].
    + rewrite (bool_decide_eq_true_2 (aggregates.id r = id)) by done.
      simpl. by rewrite bool_decide_eq_true_2.
    + rewrite (bool_decide_eq_false_2 (aggregates.id r = id)) by done.
      by rewrite bool_decide_eq_false_2.
  - rewrite <- list_fmap_compose. apply list_fmap_ext. intros _ r _. simpl.
    destruct (decide (events.aggregate_id r = id)) as [Hid | Hid].
    + rewrite (bool_decide_eq_true_2 (events.aggregate_id r = id)) by done.
      simpl. by rewrite bool_decide_eq_true_2.
    + rewrite (bool_decide_eq_false_2 (events.aggregate_id r = id)) by done.
      by rewrite bool_decide_eq_false_2.
Qed.

Lemma finalized_unknown id d :
  consistent d → (∀ r, r ∈ t_aggregates d → aggregates.id r ≠ id) →
  finalized id d = d.
Proof.
  intros [_ Hlog] Hnone.
  destruct (Hlog id) as (N & HN & _ & Hzero). rewrite (Hzero Hnone) in HN.
  apply fmap_nil_inv in HN.
  unfold finalized. destruct d as [aggs evs snaps cps]. simpl in *. f_equal.
  - rewrite <- (list_fmap_id aggs) at 2. apply list_fmap_ext.
    intros i r Hr. apply list_elem_of_lookup_2 in Hr.
    rewrite bool_decide_eq_false_2; [done |]. by apply Hnone.
  - rewrite <- (list_fmap_id evs) at 2. apply list_fmap_ext.
    intros i r Hr. apply list_elem_of_lookup_2 in Hr.
    rewrite bool_decide_eq_false_2; [done |]. intros Hid.
    assert (r ∈ filter (λ r, events.aggregate_id r = id) evs) as Hin
      by (by apply list_elem_of_filter).
    rewrite HN in Hin. by apply not_elem_of_nil in Hin.
Qed.

(** X11.  [finalizeAggregate] closes a log for good and keeps it readable:
    once it went through for an aggregate that has a record, every
    [saveEvents] for that aggregate, at whatever version and with whatever
    events, fails with [AggregateIsFinalError] and changes nothing, while
    [listEvents] yields for every aggregate exactly the events it yielded
    before. *)
Theorem finalizeAggregate_closes_log id pg :
  faults pg = [] → consistent (tables pg) →
  (∃ r, r ∈ t_aggregates (tables pg) ∧ aggregates.id r = id) →
  ∃ pg1,
    finalizeAggregate id pg = (pg1, inr tt)
    ∧ (∀ opts params,
         Aggregate.id (SaveEventsParams.aggregate params) = id →
         0 < Aggregate.version (SaveEventsParams.aggregate params) →
         saveEvents opts params pg1 = (pg1, inl (AggregateIsFinalError id)))
    ∧ (∀ id', (listEvents (whole_log id') pg1).2
              = (listEvents (whole_log id') pg).2)
    ∧ (∀ id' v, (listEvents (log_from id' v) pg1).2
                = (listEvents (log_from id' v) pg).2).
Proof.
  intros Hf Hc (r & Hr & Hid).
  pose proof (consistent_finalized id _ Hc) as Hc1.
  eexists. split; [by apply finalizeAggregate_no_fault |].
  split; [| split].
  - intros opts params Hpid Hpos.
    apply saveEvents_no_retry; [done | | done].
    pose proof (saveEvents_attempt_final params
                  (mkPg (finalized id (tables pg)) [] (delays pg) (now pg))
                  eq_refl Hc1) as Hatt.
    rewrite Hpid in Hatt. apply Hatt.
    unfold is_final, finalized. simpl.
    eexists. split; [by apply list_elem_of_fmap_2 |].
    by rewrite bool_decide_eq_true_2.
  - intros id'. rewrite !listEvents_no_fault by done. cbn [snd tables].
    rewrite !select_whole_log by done.
    by rewrite log_rows_finalized, event_of_finalized_row.
  - intros id' v. rewrite !listEvents_no_fault by done. cbn [snd tables].
    rewrite !select_log_from by done.
    by rewrite log_rows_finalized, <- fmap_drop, event_of_finalized_row.
Qed.

(** X12.  [finalizeAggregate] is idempotent, and finalizing an aggregate
    the store does not know is a successful no-op that reserves nothing: a
    second call changes nothing more, and after a call for an aggregate
    without a record the store is as it was, so that a first batch for
    that aggregate is still accepted. *)
Theorem finalizeAggregate_idempotent id pg :
  faults pg = [] →
  ∃ pg1,
    finalizeAggregate id pg = (pg1, inr tt)
    ∧ finalizeAggregate id pg1 = (pg1, inr tt)
    ∧ (consistent (tables pg) →
       (∀ r, r ∈ t_aggregates (tables pg) → aggregates.id r ≠ id) →
       pg1 = pg
       ∧ ∀ opts params,
           SaveEventsParams.aggregate params = Aggregate.mk id 1 →
           fresh_ids params (tables pg) →
           saveEvents opts params pg1
           = (mkPg (saved params (tables pg)) [] (delays pg) (now pg), inr tt)).
Proof.
  intros Hf. eexists. split; [by apply finalizeAggregate_no_fault |].
  split.
  - rewrite finalizeAggregate_no_fault by done. cbn [tables delays now].
    by rewrite finalized_idempotent.
  - intros Hc Hnone. rewrite finalized_unknown by done.
    assert (mkPg (tables pg) [] (delays pg) (now pg) = pg) as ->
      by (destruct pg; simpl in *; by subst).
    split; [done |]. intros opts params Hagg Hfresh.
    apply saveEvents_accepts_any; try done.
    + unfold admits. rewrite Hagg. simpl.
      rewrite Exists_exists. intros (r & Hr & Hid). by apply (Hnone r).
    + by rewrite Hagg.
Qed.

End finalize.

Section finalize_samples.
Import PostgresStoreAdapter ExponentialBackoff.
Local Open Scope Z_scope.
#[local] Existing Instance plain_joser.

Lemma finalizeAggregate_closes_log_witness :
  ∃ pg1,
    finalizeAggregate sample_id one_batch_store = (pg1, inr tt)
    ∧ (∀ opts params,
         Aggregate.id (SaveEventsParams.aggregate params) = sample_id →
         0 < Aggregate.version (SaveEventsParams.aggregate params) →
         saveEvents opts params pg1
         = (pg1, inl (AggregateIsFinalError sample_id)))
    ∧ (∀ id', (listEvents (whole_log id') pg1).2
              = (listEvents (whole_log id') one_batch_store).2)
    ∧ (∀ id' v, (listEvents (log_from id' v) pg1).2
                = (listEvents (log_from id' v) one_batch_store).2).
Proof.
  apply (finalizeAggregate_closes_log sample_id one_batch_store).
  - reflexivity.
  - apply history_consistent, consistent_empty.
  - exists (aggregates.mk sample_id 2 1000 false).
    split; [vm_compute; constructor | reflexivity].
Defined.

Lemma finalizeAggregate_idempotent_witness :
  ∃ pg1,
    finalizeAggregate sample_id empty_store = (pg1, inr tt)
    ∧ finalizeAggregate sample_id pg1 = (pg1, inr tt)
    ∧ pg1 = empty_store
    ∧ saveEvents default_options first_batch pg1
      = (mkPg (saved first_batch (tables empty_store)) []
              (delays empty_store) (now empty_store), inr tt).
Proof.
  destruct (finalizeAggregate_idempotent sample_id empty_store eq_refl)
    as (pg1 & Hfirst & Hsecond & Hunknown).
  destruct (Hunknown consistent_empty) as [Hsame Hbatch].
  { intros r Hr. by apply not_elem_of_nil in Hr. }
  exists pg1. split; [exact Hfirst |]. split; [exact Hsecond |].
  split; [exact Hsame |].
  apply (Hbatch default_options first_batch eq_refl).
  split; compute_done.
Defined.

End finalize_samples.

(** ** The keys of the schema *)

Section schema_keys.
Import PostgresStoreAdapter.
Local Open Scope Z_scope.
Context {joser : Joser}.

(** The constraints [createTables] declares besides the primary key of
    [aggregates]: the primary key of [events], its unique index on
    [(aggregate_id, aggregate_version)], its reference to [aggregates], and
    the primary keys of [snapshots] and [projection_checkpoints]. *)
Record keyed (d : Db) : Prop := mk_keyed {
  events_pk : NoDup (events.id <$> t_events d);
  events_unique :
    NoDup ((λ r, (events.aggregate_id r, events.aggregate_version r))
             <$> t_events d);
  events_fk :
    ∀ r, r ∈ t_events d →
         ∃ a, a ∈ t_aggregates d ∧ aggregates.id a = events.aggregate_id r;
  snapshots_pk :
    NoDup ((λ r, (snapshots.aggregate_id r, snapshots.aggregate_version r))
             <$> t_snapshots d);
  checkpoints_pk :
    NoDup ((λ r, (projection_checkpoints.projection r,
                  projection_checkpoints.aggregate_id r))
             <$> t_projection_checkpoints d)
}.

Lemma keyed_empty : keyed empty_db.
Proof.
  split; try constructor. intros r Hr. by apply not_elem_of_nil in Hr.
Qed.

Lemma NoDup_snoc_fmap {A B} (f : A → B) (l : list A) (x : A) :
  NoDup (f <$> l) → ¬ Exists (λ y, f y = f x) l → NoDup (f <$> (l ++ [x])).
Proof.
  intros Hnd Hnew. rewrite fmap_app. apply NoDup_app. split; [done |]. split.
  - intros b Hb Hx. simpl in Hx. apply list_elem_of_singleton in Hx. subst b.
    apply list_elem_of_fmap in Hb as (y & Hy & Hin).
    apply Hnew, Exists_exists. by exists y.
  - apply NoDup_singleton.
Qed.

Lemma insert_event_keyed r d d' :
  Sql.insert_event r d = inr (d', tt) → keyed d → keyed d'.
Proof.
  unfold Sql.insert_event. intros Hins [Hpk Hun Hfk Hsn Hcp].
  case_bool_decide as Hid; [done |].
  case_bool_decide as Hver; [done |].
  case_bool_decide as Hagg; [| done].
  injection Hins as <-. split; simpl; try done.
  - by apply NoDup_snoc_fmap.
  - apply NoDup_snoc_fmap; [done |].
    intros Hex. apply Hver. apply Exists_exists in Hex as (y & Hy & Heq).
    apply Exists_exists. exists y. split; [done |]. by injection Heq.
  - intros r' Hr'. apply elem_of_app in Hr' as [Hr' | Hr']; [by apply Hfk |].
    apply list_elem_of_singleton in Hr'. subst r'.
    by apply Exists_exists in Hagg.
Qed.

Lemma insertEvents_keyed params index rest c c' u :
  insertEvents params index rest c = (c', inr u) →
  keyed (cur c) → keyed (cur c').
Proof.
  revert index c. induction rest as [|event rest IH]; intros index c.
  - by intros [= <- _].
  - simpl. unfold bind at 1.
    destruct (query _ c) as [c1 [e|[]]] eqn:E; [done |].
    apply query_inr in E. intros Hrest Hk.
    apply (IH _ _ Hrest). by apply (insert_event_keyed _ _ _ E).
Qed.

(** Changes of the aggregate records that keep their ids keep the keys. *)
Lemma keyed_aggregates d aggs :
  (∀ id, (∃ a, a ∈ t_aggregates d ∧ aggregates.id a = id) →
         ∃ a, a ∈ aggs ∧ aggregates.id a = id) →
  keyed d →
  keyed (mkDb aggs (t_events d) (t_snapshots d) (t_projection_checkpoints d)).
Proof.
  intros Hids [Hpk Hun Hfk Hsn Hcp]. split; simpl; try done.
  intros r Hr. by apply Hids, Hfk.
Qed.

Lemma saveEvents_statements_keyed params c c' u :
  saveEvents_statements params c = (c', inr u) →
  keyed (cur c) → keyed (cur c').
Proof.
  unfold saveEvents_statements. cbv zeta. unfold bind at 1.
  destruct (query _ c) as [c1 [e|aggRes]] eqn:E1; [done |].
  apply query_inr in E1. injection E1 as E1 _.
  unfold bind at 1.
  destruct (default false (head aggRes)); [done |].
  unfold ret at 1. unfold bind at 1.
  destruct (Aggregate.version (SaveEventsParams.aggregate params) =? 1).
  - unfold try_catch.
    destruct (query _ c1) as [c2 [e|[]]] eqn:E2.
    { case_bool_decide; done. }
    apply query_inr in E2. unfold Sql.insert_aggregate in E2.
    case_bool_decide as Hex; [done |]. injection E2 as E2.
    intros Hrest Hk. apply (insertEvents_keyed _ _ _ _ _ _ Hrest).
    rewrite <- E2, <- E1. apply keyed_aggregates; [| done].
    intros id (a & Ha & Hid). exists a. split; [| done].
    apply elem_of_app. by left.
  - unfold bind at 1.
    destruct (query _ c1) as [c2 [e|rowCount]] eqn:E2; [done |].
    apply query_inr in E2. unfold Sql.update_aggregate in E2.
    injection E2 as E2 _.
    destruct (rowCount =? 0); [done |]. unfold ret at 1.
    intros Hrest Hk. apply (insertEvents_keyed _ _ _ _ _ _ Hrest).
    rewrite <- E2, <- E1. apply keyed_aggregates; [| done].
    intros id (a & Ha & Hid). eexists. split; [by apply list_elem_of_fmap_2 |].
    simpl. by destruct (Sql.update_matches _ _ a).
Qed.

Lemma keyed_finalized id d : keyed d → keyed (finalized id d).
Proof.
  intros [Hpk Hun Hfk Hsn Hcp]. unfold finalized. split; simpl; try done.
  - rewrite <- list_fmap_compose.
    erewrite list_fmap_ext; [exact Hpk |].
    intros _ r _. simpl. by case_bool_decide.
  - rewrite <- list_fmap_compose.
    erewrite list_fmap_ext; [exact Hun |].
    intros _ r _. simpl. by case_bool_decide.
  - intros r Hr. apply list_elem_of_fmap in Hr as (r0 & -> & Hr0).
    destruct (Hfk r0 Hr0) as (a & Ha & Hid).
    eexists. split; [by apply list_elem_of_fmap_2 |].
    by repeat case_bool_decide.
Qed.

Lemma perform_keyed call pg pg' r :
  perform call pg = (pg', r) → keyed (tables pg) → keyed (tables pg').
Proof.
  destruct call as [opts params|id|params|params]; simpl; intros Hrun Hk.
  - unfold saveEvents in Hrun.
    destruct (0 <? _); [| by injection Hrun as <- _].
    unfold ExponentialBackoff.backOff in Hrun. cbv zeta in Hrun.
    apply (execute_tables _ _ (λ d d', keyed d → keyed d')) in Hrun.
    + destruct r; [by rewrite Hrun | by apply Hrun].
    + clear. intros pg pg' r Hatt.
      apply transaction_spec in Hatt as (_ & _ & Hr);
        [| apply tx_neutral_saveEvents_statements].
      destruct r as [e|u]; [done |].
      destruct Hr as (c0 & c1 & [] & Hc0 & _ & Hst & ->).
      rewrite <- Hc0. by apply (saveEvents_statements_keyed params c0 c1 tt).
  - unfold finalizeAggregate, ExponentialBackoff.backOff in Hrun.
    cbv zeta in Hrun.
    apply (execute_tables _ _ (λ d d', d' = finalized id d)) in Hrun.
    + destruct r; rewrite Hrun; [done | by apply keyed_finalized].
    + clear. intros pg pg' r H. by apply finalizeAggregate_attempt_spec in H.
  - unfold saveSnapshot in Hrun.
    apply (with_client_query_spec (λ _, SqlQueries.insert_snapshot _)) in Hrun.
    destruct r as [e|u]; [by rewrite Hrun |].
    unfold SqlQueries.insert_snapshot in Hrun.
    case_bool_decide as Hex; [done |]. injection Hrun as Hrun.
    rewrite <- Hrun. destruct Hk as [Hpk Hun Hfk Hsn Hcp].
    split; simpl; try done.
    apply NoDup_snoc_fmap; [done |].
    intros Hin. apply Hex. apply Exists_exists in Hin as (y & Hy & Heq).
    apply Exists_exists. exists y. split; [done |]. by injection Heq.
  - unfold saveProjectionCheckpoint in Hrun.
    apply (with_client_query_spec
             (λ t, SqlQueries.upsert_checkpoint _ _ _ t)) in Hrun.
    destruct r as [e|u]; [by rewrite Hrun |].
    unfold SqlQueries.upsert_checkpoint in Hrun. cbv zeta in Hrun.
    injection Hrun as Hrun. rewrite <- Hrun.
    destruct Hk as [Hpk Hun Hfk Hsn Hcp]. split; simpl; try done.
    case_bool_decide as Hex.
    + rewrite <- list_fmap_compose.
      erewrite list_fmap_ext; [exact Hcp |].
      intros _ r _. simpl. case_bool_decide as Hsame; [| done].
      simpl. by destruct Hsame as [-> ->].
    + apply NoDup_snoc_fmap; [done |].
      intros Hin. apply Hex. apply Exists_exists in Hin as (y & Hy & Heq).
      apply Exists_exists. exists y. split; [done |]. simpl in Heq.
      by injection Heq.
Qed.

(** X26.  The store keeps the keys of its schema: starting from the empty
    store, after any sequence of [saveEvents], [finalizeAggregate],
    [saveSnapshot] and [saveProjectionCheckpoint] calls, successful or not
    and with whatever driver errors on the way, no two aggregate records
    share an id, no two events share an id or an aggregate id and version,
    every event belongs to an aggregate that has a record, no two snapshots
    share an aggregate id and version, and no two checkpoints share a
    projection and aggregate id. *)
Theorem store_keeps_its_keys calls :
  let d := tables (history calls (mkPg empty_db [] [] 0)) in
  keyed d ∧ NoDup (aggregates.id <$> t_aggregates d).
Proof.
  intros d. split.
  - unfold d. generalize (mkPg empty_db [] [] 0) (keyed_empty : keyed (tables (mkPg empty_db [] [] 0))).
    induction calls as [|[scheduled call] rest IH]; intros pg Hk; [done |].
    simpl. apply IH.
    destruct (perform call _) as [pg1 r] eqn:E. simpl.
    by apply perform_keyed in E.
  - apply aggregates_pk. unfold d. apply history_consistent, consistent_empty.
Qed.

End schema_keys.

(** ** listEvents: any filter, any store *)

Section any_listing.
Import PostgresStoreAdapter.
Local Open Scope Z_scope.
Context {joser : Joser}.

#[local] Existing Instance events_order_total.

(** The rows a listing asks for: of the aggregate, when one is given, and
    then above its version, when that is given and not 0; of the type, when
    one is given. *)
Definition asked_for (params : ListEventsParams.t) (r : events.row) : Prop :=
  match ListEventsParams.aggregate params with
  | Some a =>
      events.aggregate_id r = ListEventsParams.id a
      ∧ match ListEventsParams.version a with
        | Some v => v = 0 ∨ v < events.aggregate_version r
        | None => True
        end
  | None => True
  end
  ∧ match ListEventsParams.type params with
    | Some t => events.type r = t
    | None => True
    end.

#[local] Instance asked_for_dec params r : Decision (asked_for params r).
Proof.
  unfold asked_for. destruct params as [[[id [v|]]|] [t|]]; simpl; apply _.
Defined.

Lemma listEvents_where_spec params r :
  SqlQueries.listEvents_where params r = true ↔ asked_for params r.
Proof.
  unfold SqlQueries.listEvents_where, asked_for.
  destruct params as [[[id [v|]]|] [t|]]; simpl;
    rewrite ?andb_true_r, ?andb_true_iff, ?bool_decide_eq_true, ?Z.eqb_eq;
    try (destruct (Z.eqb_spec v 0)); rewrite ?Z.ltb_lt;
    intuition (auto; lia).
Qed.

(** X25.  Whatever the store holds and whatever the filter, [listEvents]
    without a driver error changes nothing and yields the events of
    exactly the rows the filter asks for (aggregate id, version above a
    non-zero [aggregate.version], type), each as often as it is stored,
    ordered by aggregate id and, within an aggregate, by version. *)
Theorem listEvents_selects_and_orders params pg :
  faults pg = [] →
  ∃ rows,
    listEvents params pg = (pg, inr (event_of_row <$> rows))
    ∧ rows ≡ₚ filter (asked_for params) (t_events (tables pg))
    ∧ (∀ r, r ∈ rows ↔ r ∈ t_events (tables pg) ∧ asked_for params r)
    ∧ Sorted events_order rows.
Proof.
  intros Hf. eexists. split; [by apply listEvents_no_fault |].
  assert (filter (λ r, SqlQueries.listEvents_where params r = true)
                 (t_events (tables pg))
          = filter (asked_for params) (t_events (tables pg))) as Hfilter.
  { apply list_filter_iff. intros r. apply listEvents_where_spec. }
  split; [| split].
  - rewrite merge_sort_Permutation. by rewrite Hfilter.
  - intros r. rewrite merge_sort_Permutation, Hfilter, list_elem_of_filter.
    tauto.
  - apply Sorted_merge_sort. apply _.
Qed.

End any_listing.

Section any_listing_samples.
#[local] Existing Instance plain_joser.
#[local] Existing Instance asked_for_dec.

(** Two aggregates in one store: the listing of the type 257 is ordered by
    aggregate id first. *)
Definition two_logs : Pg :=
  history
    [([], CallSaveEvents default_options
            (SaveEventsParams.mk (Aggregate.mk ["002"%byte] 1) 1000
               [NewEvent.mk (EventId.mk ["020"%byte]) 257 None ∅] None));
     ([], CallSaveEvents default_options first_batch)] empty_store.

Lemma listEvents_selects_and_orders_witness :
  ∃ rows,
    PostgresStoreAdapter.listEvents
      (ListEventsParams.mk None (Some 257%Z)) two_logs
    = (two_logs, inr (PostgresStoreAdapter.event_of_row <$> rows))
    ∧ rows ≡ₚ filter (asked_for (ListEventsParams.mk None (Some 257%Z)))
                (t_events (tables two_logs))
    ∧ (∀ r, r ∈ rows
            ↔ r ∈ t_events (tables two_logs)
              ∧ asked_for (ListEventsParams.mk None (Some 257%Z)) r)
    ∧ Sorted events_order rows.
Proof.
  exact (listEvents_selects_and_orders (ListEventsParams.mk None (Some 257%Z))
           two_logs eq_refl).
Defined.

End any_listing_samples.

(** ** findStreams and its cache *)

Section config_cache.
Local Open Scope Z_scope.

(** A lookup that misses the cache asks the database and caches the answer
    at the head. *)
Lemma findStreams_miss a (event : Z) :
  (LRUCache.get event (config_clock a) (cache a)).1 = None →
  ∃ a1 rest,
    PostgresConfigAdapter.findStreams event a
    = (a1, inr (streams_of event (registrations a)))
    ∧ registrations a1 = registrations a
    ∧ config_clock a1 = config_clock a
    ∧ LRUCache.ttl (cache a1) = LRUCache.ttl (cache a)
    ∧ LRUCache.entries (cache a1)
      = LRUCache.mkEntry event (streams_of event (registrations a))
          (config_clock a) :: rest.
Proof.
  unfold PostgresConfigAdapter.findStreams.
  destruct (LRUCache.get event (config_clock a) (cache a)) as [[l|] c'] eqn:E;
    [done |].
  intros _. eexists. eexists. split; [reflexivity |]. simpl.
  split; [done |]. split; [done |]. split; [| reflexivity].
  unfold LRUCache.get in E.
  destruct (List.find _ _) as [e|]; [| by injection E as <-].
  destruct (LRUCache.isStale _ _ e); [| done]. by injection E as <-.
Qed.

(** What happens to a config adapter: registrations, lookups, and time
    that passes. *)
Inductive ConfigCall :=
| CallSaveStream (params : StreamParams.t)
| CallFindStreams (event : Z)
| CallWait (until : Z).

Definition config_step (call : ConfigCall) (a : ConfigState) : ConfigState :=
  match call with
  | CallSaveStream params => (PostgresConfigAdapter.saveStream params a).1
  | CallFindStreams event => (PostgresConfigAdapter.findStreams event a).1
  | CallWait until => at_time until a
  end.

Definition config_history (calls : list ConfigCall) (a : ConfigState)
  : ConfigState :=
  fold_left (λ a' call, config_step call a') calls a.


Lemma NoDup_fmap_filter {A B} (f : A → B) (P : A → Prop)
    `{∀ x, Decision (P x)} (l : list A) :
  NoDup (f <$> l) → NoDup (f <$> filter P l).
Proof.
  induction l as [|x l IH]; [done |].
  rewrite fmap_cons. intros [Hx Hl]%NoDup_cons.
  destruct (decide (P x)).
  - rewrite filter_cons_True by done. rewrite fmap_cons.
    apply NoDup_cons. split; [| by apply IH].
    intros Hin. apply Hx. apply list_elem_of_fmap in Hin as (y & -> & Hy).
    apply list_elem_of_fmap_2. by apply list_elem_of_filter in Hy as [_ ?].
  - rewrite filter_cons_False by done. by apply IH.
Qed.

(** C8 as the spec states it does not hold, for either adapter: an empty
    answer is cached, and served after a stream was registered for the
    type. *)
Lemma findStreams_serves_cached_empty_list :
  (PostgresConfigAdapter.findStreams 257
     (PostgresConfigAdapter.constructor ConfigOptions.none [] 1000)).2 = inr []
  ∧ streams_of 257
      (registrations
         (PostgresConfigAdapter.saveStream (StreamParams.mk "accounts" [257])
            (PostgresConfigAdapter.findStreams 257
               (PostgresConfigAdapter.constructor ConfigOptions.none [] 1000)).1).1)
    = ["accounts"%string]
  ∧ (PostgresConfigAdapter.findStreams 257
       (at_time 2000
          (PostgresConfigAdapter.saveStream (StreamParams.mk "accounts" [257])
             (PostgresConfigAdapter.findStreams 257
                (PostgresConfigAdapter.constructor ConfigOptions.none [] 1000)).1).1)).2
    = inr []
  ∧ (MongoConfigAdapter.findStreams 257
       (at_time 2000
          (MongoConfigAdapter.saveStream (StreamParams.mk "accounts" [257])
             (MongoConfigAdapter.findStreams 257
                (MongoConfigAdapter.constructor ConfigOptions.none [] 1000)).1).1)).2
    = inr [].
Proof. repeat split; vm_compute; reflexivity. Qed.

(** *** An answer stays cached *)

Notation Entry := (LRUCache.entry (list string)).

Lemma find_after (k : Z) (before : list Entry) (e : Entry) after :
  (∀ e', e' ∈ before → LRUCache.key e' ≠ k) → LRUCache.key e = k →
  List.find (λ e', bool_decide (LRUCache.key e' = k)) (before ++ e :: after)
  = Some e.
Proof.
  intros Hbefore Hk. induction before as [|e' before IH]; simpl.
  - by rewrite bool_decide_eq_true_2.
  - rewrite bool_decide_eq_false_2 by (apply Hbefore; left).
    apply IH. intros e'' He''. apply Hbefore. by right.
Qed.

Lemma without_none (k : Z) (l : list Entry) :
  (∀ e, e ∈ l → LRUCache.key e ≠ k) → LRUCache.without k l = l.
Proof.
  intros Hl. induction l as [|e l IH]; [done |]. unfold LRUCache.without.
  rewrite filter_cons_True by (apply Hl; left). f_equal.
  apply IH. intros e' He'. apply Hl. by right.
Qed.

Lemma without_without (k : Z) (l : list Entry) :
  LRUCache.without k (LRUCache.without k l) = LRUCache.without k l.
Proof.
  apply without_none. intros e He.
  by apply list_elem_of_filter in He as [? _].
Qed.

(** The entries of the cache after [findStreams] for [k]: the entry that
    served or answered the lookup at the head, followed by the other
    entries, without the least recently used ones when the cache is full. *)
Lemma findStreams_entries (k : Z) (a : ConfigState) :
  let a1 := (PostgresConfigAdapter.findStreams k a).1 in
  registrations a1 = registrations a
  ∧ config_clock a1 = config_clock a
  ∧ LRUCache.ttl (cache a1) = LRUCache.ttl (cache a)
  ∧ LRUCache.max (cache a1) = LRUCache.max (cache a)
  ∧ ∃ e rest,
      LRUCache.key e = k
      ∧ LRUCache.entries (cache a1) = e :: rest
      ∧ (rest = LRUCache.without k (LRUCache.entries (cache a))
         ∨ (LRUCache.max (cache a) ≠ 0%nat
            ∧ rest = take (LRUCache.max (cache a) - 1)
                          (LRUCache.without k (LRUCache.entries (cache a))))).
Proof.
  unfold PostgresConfigAdapter.findStreams, LRUCache.get.
  destruct (List.find _ _) as [e|] eqn:E; simpl.
  - apply List.find_some in E as [_ Hk]. apply bool_decide_eq_true in Hk.
    destruct (LRUCache.isStale (cache a) (config_clock a) e); simpl.
    + repeat (split; [done |]).
      eexists (LRUCache.mkEntry k _ _), _. split; [done |].
      split; [reflexivity |]. rewrite without_without.
      case_bool_decide as Hfull; [right | left]; [| done].
      by destruct Hfull.
    + repeat (split; [done |]). exists e. eexists. split; [done |].
      split; [reflexivity |]. by left.
  - repeat (split; [done |]).
    eexists (LRUCache.mkEntry k _ _), _. split; [done |].
    split; [reflexivity |].
    case_bool_decide as Hfull; [right | left]; [| done].
    by destruct Hfull.
Qed.

(** What a history may do while the answer for [event] stays in the cache:
    look up [event] itself or one of the types [others], at clock readings
    no later than [ttl] after [t0]. *)
Definition keeps_cached (event : Z) (others : list Z) (t0 ttl : Z)
    (call : ConfigCall) : Prop :=
  match call with
  | CallSaveStream _ => True
  | CallFindStreams e => e = event ∨ e ∈ others
  | CallWait until => until - t0 ≤ ttl
  end.

(** The answer [found] for [event], cached at [t0], is in the cache, behind
    entries of distinct types among [others] only, and not stale. *)
Definition cached_at (event : Z) (found : list string) (t0 : Z)
    (others : list Z) (ttl : Z) (max : nat) (a : ConfigState) : Prop :=
  LRUCache.ttl (cache a) = ttl
  ∧ LRUCache.max (cache a) = max
  ∧ config_clock a - t0 ≤ ttl
  ∧ ∃ before after,
      LRUCache.entries (cache a)
      = before ++ LRUCache.mkEntry event found t0 :: after
      ∧ NoDup (LRUCache.key <$> before)
      ∧ ∀ e, e ∈ before → LRUCache.key e ≠ event ∧ LRUCache.key e ∈ others.

Lemma cached_at_lookup event found t0 others ttl max a :
  cached_at event found t0 others ttl max a →
  (PostgresConfigAdapter.findStreams event a).2 = inr found.
Proof.
  intros (Httl & _ & Hage & before & after & Hent & _ & Hbefore).
  unfold PostgresConfigAdapter.findStreams, LRUCache.get.
  rewrite Hent, (find_after event before _ after); [| | done].
  2:{ intros e He. by apply Hbefore. }
  unfold LRUCache.isStale. cbn [LRUCache.start]. rewrite Httl.
  rewrite (proj2 (Z.ltb_ge _ _)) by lia. by rewrite andb_false_r.
Qed.

Lemma short_before (k : Z) (others : list Z) (before : list Entry) :
  NoDup (LRUCache.key <$> before) →
  (∀ e, e ∈ before → LRUCache.key e ≠ k ∧ LRUCache.key e ∈ others) →
  k ∈ others →
  (length before < length others)%nat.
Proof.
  intros Hnd Hin Hk.
  assert (LRUCache.key <$> before ⊆+ filter (λ x, x ≠ k) others) as Hsub.
  { apply NoDup_submseteq; [done |]. intros x Hx.
    apply list_elem_of_fmap in Hx as (e & -> & He).
    apply list_elem_of_filter. by apply Hin. }
  apply submseteq_length in Hsub. rewrite length_fmap in Hsub.
  pose proof (length_filter_lt (λ x, x ≠ k) others k Hk) as Hlt.
  assert (¬ k ≠ k) as Hkk by (intros Hne; by apply Hne).
  specialize (Hlt Hkk). lia.
Qed.

Lemma cached_at_step event found t0 others ttl max call a :
  (max = 0%nat ∨ (length others < max)%nat) →
  keeps_cached event others t0 ttl call →
  cached_at event found t0 others ttl max a →
  cached_at event found t0 others ttl max (config_step call a).
Proof.
  intros Hroom Hcall Hinv.
  destruct call as [params | k | until]; simpl in *.
  - exact Hinv.
  - pose proof Hinv as (Httl & Hmax & Hage & before & after & Hent & Hnd & Hbefore).
    destruct (findStreams_entries k a)
      as (_ & Hclock & Httl1 & Hmax1 & e & rest & Hke & Hent1 & Hrest).
    cbv zeta in *.
    split; [by rewrite Httl1 |]. split; [by rewrite Hmax1 |].
    split; [by rewrite Hclock |].
    rewrite Hent1.
    destruct (decide (k = event)) as [-> | Hne].
    + (* the answer itself is looked up: it moves to the head *)
      assert (e = LRUCache.mkEntry event found t0
              ∧ rest = before ++ LRUCache.without event after) as [-> ->].
      { clear Hrest. unfold PostgresConfigAdapter.findStreams, LRUCache.get in Hent1.
        rewrite Hent, (find_after event before _ after) in Hent1; [| | done].
        2:{ intros e' He'. by apply Hbefore. }
        unfold LRUCache.isStale in Hent1. cbn [LRUCache.start] in Hent1.
        rewrite Httl in Hent1.
        rewrite (proj2 (Z.ltb_ge _ _)), andb_false_r in Hent1 by lia.
        simpl in Hent1. injection Hent1 as <- <-. split; [done |].
        unfold LRUCache.without. rewrite filter_app, filter_cons_False.
        2:{ simpl. intros Hne. by apply Hne. }
        f_equal. apply without_none. intros e' He'. by apply Hbefore. }
      exists [], (before ++ LRUCache.without event after).
      split; [done |]. split; [constructor |].
      intros e' He'. by apply not_elem_of_nil in He'.
    + (* another type is looked up: its entry goes to the head *)
      destruct Hcall as [-> | Hk]; [done |].
      assert (LRUCache.without k (LRUCache.entries (cache a))
              = LRUCache.without k before
                ++ LRUCache.mkEntry event found t0 :: LRUCache.without k after)
        as Hwithout.
      { rewrite Hent. unfold LRUCache.without.
        rewrite filter_app, filter_cons_True; [done |]. simpl. congruence. }
      assert (NoDup (LRUCache.key <$> LRUCache.without k before)) as Hnd'
        by (by apply NoDup_fmap_filter).
      assert (∀ e', e' ∈ LRUCache.without k before →
                LRUCache.key e' ≠ k ∧ LRUCache.key e' ≠ event
                ∧ LRUCache.key e' ∈ others) as Hbefore'.
      { intros e' He'. apply list_elem_of_filter in He' as [Hk' He'].
        destruct (Hbefore e' He'). done. }
      assert (∃ after',
                rest = LRUCache.without k before
                       ++ LRUCache.mkEntry event found t0 :: after')
        as [after' ->].
      { destruct Hrest as [-> | [Hmax0 ->]]; rewrite Hwithout; [by eexists |].
        assert (length (LRUCache.without k before) < length others)%nat as Hlen.
        { apply (short_before k); [done | | done].
          intros e' He'. destruct (Hbefore' e' He') as (? & ? & ?). done. }
        rewrite Hmax in *.
        destruct Hroom as [-> | Hroom]; [done |].
        rewrite take_app, take_ge by lia.
        destruct (max - 1 - length (LRUCache.without k before))%nat
          as [|n] eqn:Hn; [lia |].
        simpl. by eexists. }
      exists (e :: LRUCache.without k before), after'.
      split; [done |]. split.
      * rewrite fmap_cons. apply NoDup_cons. split; [| done].
        rewrite Hke. intros Hin.
        apply list_elem_of_fmap in Hin as (e' & Hk' & He').
        destruct (Hbefore' e' He') as (Hnk & _). by apply Hnk.
      * intros e' He'. apply elem_of_cons in He' as [-> | He'].
        -- rewrite Hke. done.
        -- destruct (Hbefore' e' He') as (_ & ? & ?). done.
  - destruct Hinv as (Httl & Hmax & Hage & Hrest).
    split; [done |]. split; [done |]. split; [done |]. done.
Qed.

Lemma cached_at_history event found t0 others ttl max calls a :
  (max = 0%nat ∨ (length others < max)%nat) →
  Forall (keeps_cached event others t0 ttl) calls →
  cached_at event found t0 others ttl max a →
  cached_at event found t0 others ttl max (config_history calls a).
Proof.
  intros Hroom Hcalls. revert a.
  induction Hcalls as [|call calls Hcall Hcalls IH]; intros a Hinv; [done |].
  simpl. apply IH. by apply cached_at_step.
Qed.

(** *** A cached answer expires *)

(** The cache holds nothing for [event] but, possibly, the answer [found]
    cached at [t0]. *)
Definition only_cached_at (event : Z) (found : list string) (t0 ttl : Z)
    (a : ConfigState) : Prop :=
  LRUCache.ttl (cache a) = ttl
  ∧ ∀ e, e ∈ LRUCache.entries (cache a) → LRUCache.key e = event →
         e = LRUCache.mkEntry event found t0.

Lemma only_cached_at_step event found t0 ttl call a :
  call ≠ CallFindStreams event →
  only_cached_at event found t0 ttl a →
  only_cached_at event found t0 ttl (config_step call a).
Proof.
  intros Hcall [Httl Honly].
  destruct call as [params | k | until]; simpl; [done | | done].
  destruct (findStreams_entries k a)
    as (_ & _ & Httl1 & _ & e & rest & Hke & Hent1 & Hrest).
  cbv zeta in *. split; [by rewrite Httl1 |].
  rewrite Hent1. intros e' He' Hkey.
  apply elem_of_cons in He' as [-> | He']; [congruence |].
  apply Honly; [| done].
  destruct Hrest as [-> | [_ ->]].
  - by apply list_elem_of_filter in He' as [_ ?].
  - apply subseteq_take in He'. by apply list_elem_of_filter in He' as [_ ?].
Qed.

Lemma only_cached_at_history event found t0 ttl calls a :
  Forall (λ call, call ≠ CallFindStreams event) calls →
  only_cached_at event found t0 ttl a →
  only_cached_at event found t0 ttl (config_history calls a).
Proof.
  intros Hcalls. revert a.
  induction Hcalls as [|call calls Hcall Hcalls IH]; intros a Hinv; [done |].
  simpl. apply IH. by apply only_cached_at_step.
Qed.

Lemma only_cached_at_expired event found t0 ttl a :
  only_cached_at event found t0 ttl a →
  ttl ≠ 0 → t0 ≠ 0 → ttl < config_clock a - t0 →
  (PostgresConfigAdapter.findStreams event a).2
  = inr (streams_of event (registrations a)).
Proof.
  intros [Httl Honly] Hnz Hstart Hage.
  unfold PostgresConfigAdapter.findStreams, LRUCache.get.
  destruct (List.find _ _) as [e|] eqn:E; [| done].
  apply List.find_some in E as [He Hk].
  apply list_elem_of_In in He. apply bool_decide_eq_true in Hk.
  rewrite (Honly e He Hk).
  unfold LRUCache.isStale. cbn [LRUCache.start]. rewrite Httl.
  rewrite (proj2 (Z.ltb_lt _ _)) by lia.
  rewrite (proj2 (Z.eqb_neq _ _)) by done.
  by rewrite (proj2 (Z.eqb_neq _ _)) by done.
Qed.

(** C8 (amended).  [findStreams] of the Postgres config adapter caches
    every answer, the empty list included.  A lookup of a type that misses
    the cache returns the streams registered for the type at that moment.
    From then on, whatever [saveStream] registers and whatever is looked up
    in between, every [findStreams] for the type on the same adapter
    instance made no later than [cacheTTL] (not negative) after that lookup
    returns that same list, as long as fewer than [cacheMax] other types
    are looked up (so that the entry is not evicted).  A [findStreams] for
    the type made later than a [cacheTTL] other than 0 after that lookup
    (the clock not having read 0 at it), with no lookup of the type in
    between, asks the database again and returns the streams registered by
    then. *)
Theorem findStreams_caches_every_answer a (event : Z) :
  (LRUCache.get event (config_clock a) (cache a)).1 = None →
  let found := streams_of event (registrations a) in
  let a1 := (PostgresConfigAdapter.findStreams event a).1 in
  let t0 := config_clock a in
  let ttl := LRUCache.ttl (cache a) in
  let max := LRUCache.max (cache a) in
  (PostgresConfigAdapter.findStreams event a).2 = inr found
  ∧ (∀ calls others t1,
       Forall (keeps_cached event others t0 ttl) calls →
       max = 0%nat ∨ (length others < max)%nat →
       0 ≤ ttl → t1 - t0 ≤ ttl →
       (PostgresConfigAdapter.findStreams event
          (at_time t1 (config_history calls a1))).2 = inr found)
  ∧ (∀ calls t1,
       Forall (λ call, call ≠ CallFindStreams event) calls →
       ttl ≠ 0 → t0 ≠ 0 → ttl < t1 - t0 →
       (PostgresConfigAdapter.findStreams event
          (at_time t1 (config_history calls a1))).2
       = inr (streams_of event (registrations (config_history calls a1)))).
Proof.
  intros Hmiss found a1 t0 ttl max.
  destruct (findStreams_miss a event Hmiss)
    as (a1' & rest & Hrun & Hregs & Hclock & Httl & Hent).
  assert (a1 = a1') as Ha1 by (unfold a1; by rewrite Hrun).
  destruct (findStreams_entries event a)
    as (_ & _ & _ & Hmax & e0 & rest0 & _ & Hent0 & Hrest).
  cbv zeta in Hmax, Hent0. fold a1 in Hmax, Hent0.
  rewrite Ha1, Hent in Hent0. injection Hent0 as _ <-.
  split; [by rewrite Hrun |]. split.
  - intros calls others t1 Hcalls Hroom Hpos Hage.
    assert (cached_at event found t0 others ttl max a1) as Hinv.
    { rewrite Ha1. split; [done |]. split; [by rewrite <- Ha1 |].
      split; [unfold t0; rewrite Hclock; lia |].
      exists [], rest. split; [done |]. split; [constructor |].
      intros e He. by apply not_elem_of_nil in He. }
    apply (cached_at_history _ _ _ _ _ _ calls) in Hinv; [| done | done].
    apply (cached_at_lookup event found t0 others ttl max).
    destruct Hinv as (H1 & H2 & _ & H4).
    split; [done |]. split; [done |]. split; [done |]. done.
  - intros calls t1 Hcalls Hnz Hstart Hage.
    assert (only_cached_at event found t0 ttl a1) as Hinv.
    { rewrite Ha1. split; [done |]. rewrite Hent. intros e He Hk.
      apply elem_of_cons in He as [-> | He]; [done |].
      exfalso. destruct Hrest as [-> | [_ ->]].
      - by apply list_elem_of_filter in He as [? _].
      - apply subseteq_take in He.
        by apply list_elem_of_filter in He as [? _]. }
    apply (only_cached_at_history _ _ _ _ calls) in Hinv; [| done].
    by apply (only_cached_at_expired event found t0 ttl
                (at_time t1 (config_history calls a1)) Hinv).
Qed.

(** A fresh adapter with the default options at time 1000: within the
    hour the empty answer is served, whatever is registered and looked up
    meanwhile; a millisecond after the hour the registration is seen. *)
Lemma findStreams_caches_every_answer_witness :
  (PostgresConfigAdapter.findStreams 257
     (at_time 3601000
        (config_history
           [CallSaveStream (StreamParams.mk "accounts" [257]);
            CallFindStreams 258; CallWait 5000; CallFindStreams 257;
            CallFindStreams 259]
           (PostgresConfigAdapter.findStreams 257
              (PostgresConfigAdapter.constructor ConfigOptions.none [] 1000)).1))).2
  = inr []
  ∧ (PostgresConfigAdapter.findStreams 257
       (at_time 3601001
          (config_history
             [CallSaveStream (StreamParams.mk "accounts" [257]);
              CallFindStreams 258]
             (PostgresConfigAdapter.findStreams 257
                (PostgresConfigAdapter.constructor ConfigOptions.none [] 1000)).1))).2
    = inr ["accounts"%string].
Proof.
  pose proof (findStreams_caches_every_answer
                (PostgresConfigAdapter.constructor ConfigOptions.none [] 1000)
                257 eq_refl) as H.
  cbv zeta in H. destruct H as (_ & Hin & Hout). split.
  - apply (Hin _ [258; 259]).
    + repeat apply Forall_cons_2; [exact I | | | | | apply Forall_nil_2].
      * right. compute_done.
      * vm_compute. discriminate.
      * by left.
      * right. compute_done.
    + right. vm_compute. lia.
    + vm_compute. discriminate.
    + vm_compute. discriminate.
  - apply Hout.
    + repeat constructor; discriminate.
    + vm_compute. discriminate.
    + vm_compute. discriminate.
    + vm_compute. reflexivity.
Defined.

End config_cache.

(** ** An in-memory stream adapter

    For the examples: it keeps the topic and the id of every event sent, and
    the subscriptions made. *)
Record MemoryStream := mkMemoryStream {
  published : list (string * EventId.t);
  subscriptions : list (string * bool)
}.

#[global] Instance MemoryStream_StreamAdapter : StreamAdapter MemoryStream :=
  {| sendEvents B batches raw :=
       modify (λ s, mkMemoryStream
                      (published s ++
                       flat_map (λ b, (λ e, (Batch.stream b, Event.id e))
                                        <$> Batch.events b) batches)
                      (subscriptions s));
     subscribe stream raw :=
       λ s, (mkMemoryStream (published s) (subscriptions s ++ [(stream, raw)]),
             inr (Subscriber.mk stream));
     stop subscriber := ret tt |}.

(** ** Broker *)

Section broker_props.
Context {C S : Type} `{ConfigAdapter C} `{StreamAdapter S}.

(** The calls of [sendEvents] among some effects. *)
Definition sendEvents_calls (effs : list Broker.Effect)
  : list (list (Batch.t Buffer) * bool) :=
  omap (λ e, match e with
             | Broker.SendEvents batches raw => Some (batches, raw)
             | _ => None
             end) effs.

(** The calls of [subscribe] among some effects. *)
Definition subscribe_calls (effs : list Broker.Effect) : list (string * bool) :=
  omap (λ e, match e with
             | Broker.Subscribe stream raw => Some (stream, raw)
             | _ => None
             end) effs.

(** The effects of a step from [w] to [w']. *)
Definition broker_effects (w w' : Broker.Env C S) : list Broker.Effect :=
  drop (length (Broker.effects w)) (Broker.effects w').

Lemma onEvent_routes (w : Broker.Env C S) (event : Event.t Buffer) c1 streams :
  findStreams (Event.type event) (Broker.config w) = (c1, inr streams) →
  streams ≠ [] →
  let batches := (λ stream, Batch.mk stream [event]) <$> streams in
  ∃ tail,
    Broker.onEvent event w
    = (Broker.mkEnv (Broker.self w) c1
         (sendEvents batches true (Broker.stream w)).1
         (Broker.effects w ++
          [Broker.ConsoleLog "Broker received event from main:";
           Broker.FindStreams (Event.type event);
           Broker.ConsoleLog "Found streams for event type";
           Broker.ConsoleLog "Broker routing event to streams:";
           Broker.SendEvents batches true] ++ tail),
       (sendEvents batches true (Broker.stream w)).2)
    ∧ sendEvents_calls tail = [].
Proof.
  intros Hfind Hne batches.
  assert ((length streams =? 0)%nat = false) as Hlen
    by (by destruct streams).
  unfold Broker.onEvent, bind, Broker.emit, modify, Broker.on_config,
    Broker.on_stream, ret. simpl. rewrite Hfind. simpl. rewrite Hlen.
  cbn [Broker.stream Broker.self Broker.config Broker.effects]. fold batches.
  destruct (sendEvents batches true (Broker.stream w)) as [s1 [e|[]]]; simpl.
  - exists []. rewrite <- !app_assoc. done.
  - exists [Broker.ConsoleLog "Broker successfully routed event"].
    rewrite <- !app_assoc. done.
Qed.

Lemma onEvent_drops (w : Broker.Env C S) (event : Event.t Buffer) c1 :
  findStreams (Event.type event) (Broker.config w) = (c1, inr []) →
  Broker.onEvent event w
  = (Broker.mkEnv (Broker.self w) c1 (Broker.stream w)
       (Broker.effects w ++
        [Broker.ConsoleLog "Broker received event from main:";
         Broker.FindStreams (Event.type event);
         Broker.ConsoleLog "Found streams for event type";
         Broker.LoggerWarn "no streams found for event type:" (Event.type event)]),
     inr tt).
Proof.
  intros Hfind.
  unfold Broker.onEvent, bind, Broker.emit, modify, Broker.on_config, ret.
  simpl. rewrite Hfind. simpl. by rewrite <- !app_assoc.
Qed.

Lemma start_subscribes (w : Broker.Env C S) :
  subscribe_calls (broker_effects w (Broker.start w).1) = [("main"%string, true)].
Proof.
  unfold Broker.start, bind, Broker.emit, modify, Broker.on_stream, broker_effects.
  simpl.
  destruct (subscribe "main" true (Broker.stream w)) as [s1 [e|sub]]; simpl;
    rewrite <- !app_assoc, drop_app_length; done.
Qed.

(** C5.  The broker subscribes to the stream "main" in raw mode.  For an
    event it receives there, when [config.findStreams(event.type)] returns a
    non-empty list the handler calls [stream.sendEvents] exactly once, in raw
    mode, with one batch per returned stream, in order, each batch holding
    exactly that event, and ends as that call ends; when the list is empty
    the handler calls [sendEvents] not at all, leaves the stream adapter as
    it was, and returns after the warning it logs last. *)
Theorem broker_fan_out (w : Broker.Env C S) (event : Event.t Buffer) c1 streams :
  findStreams (Event.type event) (Broker.config w) = (c1, inr streams) →
  let w' := (Broker.onEvent event w).1 in
  let batches := (λ stream, Batch.mk stream [event]) <$> streams in
  subscribe_calls (broker_effects w (Broker.start w).1) = [("main"%string, true)]
  ∧ (streams ≠ [] →
       sendEvents_calls (broker_effects w w') = [(batches, true)]
       ∧ Batch.stream <$> batches = streams
       ∧ Forall (λ b, Batch.events b = [event]) batches
       ∧ Broker.stream w' = (sendEvents batches true (Broker.stream w)).1
       ∧ (Broker.onEvent event w).2
         = (sendEvents batches true (Broker.stream w)).2)
  ∧ (streams = [] →
       sendEvents_calls (broker_effects w w') = []
       ∧ Broker.stream w' = Broker.stream w
       ∧ (Broker.onEvent event w).2 = inr tt
       ∧ last (broker_effects w w')
         = Some (Broker.LoggerWarn "no streams found for event type:"
                   (Event.type event))).
Proof.
  intros Hfind w' batches. split; [apply start_subscribes |]. split.
  - intros Hne.
    destruct (onEvent_routes w event c1 streams Hfind Hne)
      as (tail & Hrun & Htail).
    unfold w', broker_effects. rewrite Hrun. simpl.
    rewrite drop_app_length. simpl. rewrite Htail.
    split; [done |]. split.
    { unfold batches. rewrite <- list_fmap_compose. apply list_fmap_id. }
    split; [| done].
    unfold batches. apply Forall_fmap, Forall_forall. done.
  - intros ->. unfold w', broker_effects.
    rewrite (onEvent_drops w event c1 Hfind). simpl.
    rewrite drop_app_length. done.
Qed.

End broker_props.

(** A broker on a config adapter that knows two projections: an event of
    type 258 goes to both, one of type 300 to none. *)
Definition two_projections : ConfigState :=
  PostgresConfigAdapter.constructor ConfigOptions.none
    [streams.mk "A" [257; 258]%Z 0; streams.mk "B" [258; 259]%Z 0] 1000.

Definition raw_event (type : Z) : Event.t Buffer :=
  Event.mk (EventId.mk ["010"%byte]) type (Aggregate.mk ["001"%byte] 1)
           (Some ["123"%byte]) ∅ 0.

Lemma broker_fan_out_witness :
  published (Broker.stream
               (Broker.onEvent (raw_event 258)
                  (Broker.constructor two_projections
                     (mkMemoryStream [] []))).1)
  = [("A"%string, EventId.mk ["010"%byte]); ("B"%string, EventId.mk ["010"%byte])]
  ∧ published (Broker.stream
                 (Broker.onEvent (raw_event 300)
                    (Broker.constructor two_projections
                       (mkMemoryStream [] []))).1)
    = [].
Proof.
  split.
  - pose proof (broker_fan_out
                  (Broker.constructor two_projections (mkMemoryStream [] []))
                  (raw_event 258) _ ["A"; "B"]%string eq_refl) as H.
    cbv zeta in H. destruct H as (_ & H & _).
    destruct (H ltac:(discriminate)) as (_ & _ & _ & -> & _). reflexivity.
  - pose proof (broker_fan_out
                  (Broker.constructor two_projections (mkMemoryStream [] []))
                  (raw_event 300) _ [] eq_refl) as H.
    cbv zeta in H. destruct H as (_ & _ & H).
    destruct (H eq_refl) as (_ & -> & _). reflexivity.
Defined.

(** ** saveStream and the registry of streams *)

Section registry.
Local Open Scope Z_scope.

(** The rows after an upsert: the new row, and the rows of the other
    streams. *)
Lemma elem_of_upsert_stream params now rows r :
  r ∈ upsert_stream params now rows
  ↔ r = streams.mk (StreamParams.id params) (StreamParams.events params) now
    ∨ (r ∈ rows ∧ streams.id r ≠ StreamParams.id params).
Proof.
  unfold upsert_stream. cbv zeta. case_bool_decide as Hex.
  - rewrite list_elem_of_fmap. split.
    + intros (r0 & -> & Hr0). case_bool_decide; [by left | by right].
    + intros [-> | [Hr Hn]].
      * apply Exists_exists in Hex as (r0 & Hr0 & Hsame).
        exists r0. by rewrite bool_decide_eq_true_2.
      * exists r. by rewrite bool_decide_eq_false_2.
  - rewrite elem_of_app, list_elem_of_singleton. split.
    + intros [Hr | ->]; [right | by left].
      split; [done |]. intros Hsame. apply Hex, Exists_exists. by exists r.
    + intros [-> | [Hr _]]; [by right | by left].
Qed.

Lemma elem_of_streams_of (event : Z) rows id :
  id ∈ streams_of event rows
  ↔ ∃ r, r ∈ rows ∧ streams.id r = id ∧ event ∈ streams.events r.
Proof.
  unfold streams_of. rewrite list_elem_of_fmap. split.
  - intros (r & -> & Hr). apply list_elem_of_filter in Hr as [He Hr]. by exists r.
  - intros (r & Hr & <- & He). exists r. split; [done |].
    by apply list_elem_of_filter.
Qed.

(** The streams of an event type after a registration. *)
Lemma streams_of_upsert params now rows (event : Z) id :
  id ∈ streams_of event (upsert_stream params now rows)
  ↔ (id = StreamParams.id params ∧ event ∈ StreamParams.events params)
    ∨ (id ≠ StreamParams.id params ∧ id ∈ streams_of event rows).
Proof.
  rewrite !elem_of_streams_of. split.
  - intros (r & Hr & <- & He).
    apply elem_of_upsert_stream in Hr as [-> | [Hr Hn]]; [by left |].
    right. split; [done |]. by exists r.
  - intros [[-> He] | [Hn (r & Hr & <- & He)]].
    + eexists. split; [apply elem_of_upsert_stream; by left | done].
    + exists r. split; [| done]. apply elem_of_upsert_stream. by right.
Qed.

(** X13.  [saveStream] replaces the registration of a stream: after
    [saveStream({id, events})], a [findStreams(type)] that is not served
    from the cache returns [id] exactly when [type] is among [events]
    (whatever [id] was registered for before), and returns every other
    stream exactly when it was registered for the type before.  This holds
    for the Postgres and for the Mongo adapter. *)
Theorem saveStream_then_findStreams params (event : Z) a :
  (LRUCache.get event (config_clock a) (cache a)).1 = None →
  let a1 := (PostgresConfigAdapter.saveStream params a).1 in
  ∃ found,
    (PostgresConfigAdapter.findStreams event a1).2 = inr found
    ∧ (MongoConfigAdapter.findStreams event
         (MongoConfigAdapter.saveStream params a).1).2 = inr found
    ∧ (StreamParams.id params ∈ found ↔ event ∈ StreamParams.events params)
    ∧ ∀ id, id ≠ StreamParams.id params →
            (id ∈ found ↔ id ∈ streams_of event (registrations a)).
Proof.
  intros Hmiss a1.
  destruct (findStreams_miss a1 event Hmiss) as (a2 & rest & Hrun & _).
  eexists. split; [by rewrite Hrun |].
  split.
  { change MongoConfigAdapter.findStreams with PostgresConfigAdapter.findStreams.
    change (MongoConfigAdapter.saveStream params a).1 with a1.
    by rewrite Hrun. }
  unfold a1. simpl. split.
  - rewrite streams_of_upsert. split; [intros [[_ He] | [Hn _]]; done |].
    intros He. by left.
  - intros id Hid. rewrite streams_of_upsert. split.
    + intros [[-> _] | [_ Hin]]; done.
    + intros Hin. by right.
Qed.

Lemma saveStream_then_findStreams_witness :
  ∃ found,
    (PostgresConfigAdapter.findStreams 257
       (PostgresConfigAdapter.saveStream (StreamParams.mk "A" [259; 260])
          two_projections).1).2 = inr found
    ∧ (MongoConfigAdapter.findStreams 257
         (MongoConfigAdapter.saveStream (StreamParams.mk "A" [259; 260])
            two_projections).1).2 = inr found
    ∧ ("A"%string ∈ found ↔ 257 ∈ [259; 260])
    ∧ ∀ id, id ≠ "A"%string →
            (id ∈ found ↔ id ∈ streams_of 257 (registrations two_projections)).
Proof.
  exact (saveStream_then_findStreams (StreamParams.mk "A" [259; 260]) 257
           two_projections eq_refl).
Defined.

(** *** No stream twice *)

(** Stream ids are a key of the registry, and no cached answer names a
    stream twice. *)
Definition registry_keyed (a : ConfigState) : Prop :=
  NoDup (streams.id <$> registrations a)
  ∧ Forall (λ e, NoDup (LRUCache.value e)) (LRUCache.entries (cache a)).

Lemma upsert_stream_keyed params now rows :
  NoDup (streams.id <$> rows) →
  NoDup (streams.id <$> upsert_stream params now rows).
Proof.
  intros Hnd. unfold upsert_stream. cbv zeta. case_bool_decide as Hex.
  - rewrite <- list_fmap_compose.
    erewrite list_fmap_ext; [exact Hnd |].
    intros _ r _. simpl. by case_bool_decide.
  - rewrite fmap_app. apply NoDup_app. split; [done |]. split.
    + intros id Hid Hnew. simpl in Hnew. apply list_elem_of_singleton in Hnew.
      apply list_elem_of_fmap in Hid as (r & -> & Hr).
      apply Hex, Exists_exists. by exists r.
    + apply NoDup_singleton.
Qed.

Lemma get_keyed {V} (P : V → Prop) k now (c : LRUCache.t V) :
  Forall (λ e, P (LRUCache.value e)) (LRUCache.entries c) →
  Forall (λ e, P (LRUCache.value e))
         (LRUCache.entries (LRUCache.get k now c).2)
  ∧ ∀ v, (LRUCache.get k now c).1 = Some v → P v.
Proof.
  intros Hall. unfold LRUCache.get.
  assert (Forall (λ e, P (LRUCache.value e))
                 (LRUCache.without k (LRUCache.entries c))) as Hrest.
  { rewrite Forall_forall in *. intros e He.
    apply list_elem_of_filter in He as [_ He]. by apply Hall. }
  destruct (List.find _ _) as [e|] eqn:E; [| done].
  apply List.find_some in E as [He _]. apply list_elem_of_In in He.
  rewrite Forall_forall in Hall. specialize (Hall e He).
  destruct (LRUCache.isStale c now e); simpl; [done |].
  split; [by apply Forall_cons | by intros v [= <-]].
Qed.

Lemma set_keyed {V} (P : V → Prop) k v now (c : LRUCache.t V) :
  P v →
  Forall (λ e, P (LRUCache.value e)) (LRUCache.entries c) →
  Forall (λ e, P (LRUCache.value e)) (LRUCache.entries (LRUCache.set k v now c)).
Proof.
  intros Hv Hall. unfold LRUCache.set. cbv zeta. simpl.
  assert (Forall (λ e, P (LRUCache.value e))
                 (LRUCache.without k (LRUCache.entries c))) as Hrest.
  { rewrite Forall_forall in *. intros e He.
    apply list_elem_of_filter in He as [_ He]. by apply Hall. }
  apply Forall_cons. split; [done |].
  case_bool_decide; [by apply Forall_take | done].
Qed.

Lemma findStreams_keyed (event : Z) a :
  registry_keyed a →
  ∃ a1 found,
    PostgresConfigAdapter.findStreams event a = (a1, inr found)
    ∧ NoDup found ∧ registry_keyed a1.
Proof.
  intros [Hreg Hcache]. unfold PostgresConfigAdapter.findStreams.
  destruct (get_keyed (λ v : list string, NoDup v) event (config_clock a)
              (cache a) Hcache) as [Hc1 Hv].
  destruct (LRUCache.get event (config_clock a) (cache a)) as [[found|] c1];
    simpl in *.
  - eexists. eexists. split; [reflexivity |]. split; [by apply Hv |]. done.
  - assert (NoDup (streams_of event (registrations a))) as Hnd
      by (by apply NoDup_fmap_filter).
    eexists. eexists. split; [reflexivity |]. split; [done |].
    split; [done |]. simpl. by apply set_keyed.
Qed.

Lemma config_step_keyed call a : registry_keyed a → registry_keyed (config_step call a).
Proof.
  intros Hk. destruct call as [params|event|until]; simpl.
  - destruct Hk as [Hreg Hcache]. split; [| done]. simpl.
    by apply upsert_stream_keyed.
  - destruct (findStreams_keyed event a Hk) as (a1 & found & -> & _ & Hk1). done.
  - done.
Qed.

Lemma config_history_keyed calls a :
  registry_keyed a → registry_keyed (config_history calls a).
Proof.
  revert a. induction calls as [|call calls IH]; intros a Hk; [done |].
  simpl. apply IH. by apply config_step_keyed.
Qed.

(** X14.  [findStreams] never names a stream twice: on an adapter created
    over a table whose stream ids are distinct, after any sequence of
    [saveStream] and [findStreams] calls and any passing of time, the list
    [findStreams] returns has no duplicate, whether it comes from the cache
    or from the database. *)
Theorem findStreams_no_duplicates opts rows now calls (event : Z) :
  NoDup (streams.id <$> rows) →
  let a := config_history calls (PostgresConfigAdapter.constructor opts rows now) in
  ∃ found,
    (PostgresConfigAdapter.findStreams event a).2 = inr found
    ∧ (MongoConfigAdapter.findStreams event a).2 = inr found
    ∧ NoDup found.
Proof.
  intros Hnd a.
  assert (registry_keyed a) as Hk.
  { apply config_history_keyed. split; [done | constructor]. }
  destruct (findStreams_keyed event a Hk) as (a1 & found & Hrun & Hfound & _).
  exists found.
  change MongoConfigAdapter.findStreams with PostgresConfigAdapter.findStreams.
  by rewrite Hrun.
Qed.

Lemma findStreams_no_duplicates_witness :
  ∃ found,
    (PostgresConfigAdapter.findStreams 258
       (config_history
          [CallFindStreams 258; CallSaveStream (StreamParams.mk "B" [258]);
           CallWait 4000000; CallSaveStream (StreamParams.mk "C" [258; 258])]
          (PostgresConfigAdapter.constructor ConfigOptions.none
             [streams.mk "A" [257; 258] 0; streams.mk "B" [258; 259] 0]
             1000))).2 = inr found
    ∧ (MongoConfigAdapter.findStreams 258
         (config_history
            [CallFindStreams 258; CallSaveStream (StreamParams.mk "B" [258]);
             CallWait 4000000; CallSaveStream (StreamParams.mk "C" [258; 258])]
            (PostgresConfigAdapter.constructor ConfigOptions.none
               [streams.mk "A" [257; 258] 0; streams.mk "B" [258; 259] 0]
               1000))).2 = inr found
    ∧ NoDup found.
Proof.
  apply (findStreams_no_duplicates ConfigOptions.none
           [streams.mk "A" [257; 258] 0; streams.mk "B" [258; 259] 0] 1000
           [CallFindStreams 258; CallSaveStream (StreamParams.mk "B" [258]);
            CallWait 4000000; CallSaveStream (StreamParams.mk "C" [258; 258])]
           258).
  compute_done.
Defined.

End registry.

(** ** The broker on a config adapter, and its [start] *)

Section broker_on_registry.
Context {S : Type} `{StreamAdapter S}.
Local Open Scope Z_scope.

(** X15.  The broker sends an event at most once to a stream: with a
    config adapter created over a table whose stream ids are distinct,
    after any registrations, lookups and passing of time, the handler of
    the broker calls [sendEvents] once with one batch per stream of a list
    without duplicate, or not at all when that list is empty; when the
    lookup is not served from the cache, the list is the list of the
    streams registered for the type of the event, in table order. *)
Theorem broker_sends_once_per_stream opts rows now calls (s : S) self effs
    (event : Event.t Buffer) :
  NoDup (streams.id <$> rows) →
  let a := config_history calls (PostgresConfigAdapter.constructor opts rows now) in
  let w := Broker.mkEnv self a s effs in
  let w' := (Broker.onEvent event w).1 in
  ∃ streams,
    NoDup streams
    ∧ sendEvents_calls (broker_effects w w')
      = (if decide (streams = []) then []
         else [((λ stream, Batch.mk stream [event]) <$> streams, true)])
    ∧ ((LRUCache.get (Event.type event) (config_clock a) (cache a)).1 = None →
       streams = streams_of (Event.type event) (registrations a)).
Proof.
  intros Hnd a w w'.
  assert (registry_keyed a) as Hk.
  { apply config_history_keyed. split; [done | constructor]. }
  destruct (findStreams_keyed (Event.type event) a Hk)
    as (a1 & found & Hrun & Hfound & _).
  exists found. split; [done |]. split.
  - destruct (decide (found = [])) as [-> | Hne].
    + unfold w', broker_effects.
      rewrite (@onEvent_drops ConfigState S PostgresConfigAdapter_ConfigAdapter
                 _ w event a1 Hrun). simpl.
      by rewrite drop_app_length.
    + destruct (@onEvent_routes ConfigState S PostgresConfigAdapter_ConfigAdapter
                  _ w event a1 found Hrun Hne)
        as (tail & Hon & Htail).
      unfold w', broker_effects. rewrite Hon. simpl.
      rewrite drop_app_length. simpl. by rewrite Htail.
  - intros Hmiss.
    destruct (findStreams_miss a (Event.type event) Hmiss)
      as (a2 & rest & Hrun2 & _).
    rewrite Hrun in Hrun2. by injection Hrun2 as _ ->.
Qed.

End broker_on_registry.

(** The two projections, and a third stream registered twice for the type
    258. *)
Definition three_streams : ConfigState :=
  config_history [CallSaveStream (StreamParams.mk "C" [258; 258]%Z)]
    (PostgresConfigAdapter.constructor ConfigOptions.none
       [streams.mk "A" [257; 258]%Z 0; streams.mk "B" [258; 259]%Z 0] 1000).

Lemma broker_sends_once_per_stream_witness :
  ∃ streams,
    NoDup streams
    ∧ sendEvents_calls
        (broker_effects
           (Broker.mkEnv (Broker.mk None) three_streams (mkMemoryStream [] []) [])
           (Broker.onEvent (raw_event 258)
              (Broker.mkEnv (Broker.mk None) three_streams
                 (mkMemoryStream [] []) [])).1)
      = (if decide (streams = []) then []
         else [((λ stream, Batch.mk stream [raw_event 258]) <$> streams, true)])
    ∧ ((LRUCache.get 258%Z (config_clock three_streams)
          (cache three_streams)).1 = None →
       streams = streams_of 258 (registrations three_streams)).
Proof.
  apply (broker_sends_once_per_stream ConfigOptions.none
           [streams.mk "A" [257; 258]%Z 0; streams.mk "B" [258; 259]%Z 0] 1000
           [CallSaveStream (StreamParams.mk "C" [258; 258]%Z)]
           (mkMemoryStream [] []) (Broker.mk None) [] (raw_event 258)).
  compute_done.
Defined.

Section broker_start.
Context {C S : Type} `{ConfigAdapter C} `{StreamAdapter S}.

(** The calls of [subscriber.stop] among some effects. *)
Definition broker_stop_calls (effs : list Broker.Effect) : list Subscriber.t :=
  omap (λ e, match e with
             | Broker.Stop subscriber => Some subscriber
             | _ => None
             end) effs.

Lemma broker_start_inr (w w1 : Broker.Env C S) :
  Broker.start w = (w1, inr tt) →
  ∃ s1 sub,
    subscribe "main" true (Broker.stream w) = (s1, inr sub)
    ∧ w1 = Broker.mkEnv (Broker.mk (Some sub)) (Broker.config w) s1
             (Broker.effects w ++
              [Broker.ConsoleLog "Broker starting, subscribing to main stream...";
               Broker.Subscribe "main" true]).
Proof.
  unfold Broker.start, bind, Broker.emit, modify, Broker.on_stream. simpl.
  destruct (subscribe "main" true (Broker.stream w)) as [s1 [e|sub]]; [done |].
  intros [= <-]. exists s1, sub. by rewrite <- app_assoc.
Qed.

(** X16.  [Broker.start] has no guard: a second call subscribes to "main"
    again and the broker keeps only the subscriber of the last call, so
    that [stop] stops that one and the subscription of the first call is
    never stopped. *)
Theorem broker_start_unguarded (w w1 w2 : Broker.Env C S) :
  Broker.start w = (w1, inr tt) →
  Broker.start w1 = (w2, inr tt) →
  ∃ first second,
    (subscribe "main" true (Broker.stream w)).2 = inr first
    ∧ (subscribe "main" true (Broker.stream w1)).2 = inr second
    ∧ subscribe_calls (broker_effects w w2)
      = [("main"%string, true); ("main"%string, true)]
    ∧ Broker.subscriber (Broker.self w2) = Some second
    ∧ broker_stop_calls (broker_effects w2 (Broker.stop w2).1) = [second].
Proof.
  intros H1 H2.
  apply broker_start_inr in H1 as (s1 & first & Hsub1 & ->).
  apply broker_start_inr in H2 as (s2 & second & Hsub2 & ->).
  simpl in Hsub2. exists first, second.
  split; [by rewrite Hsub1 |]. split; [simpl; by rewrite Hsub2 |].
  split; [| split; [done |]].
  - unfold broker_effects. simpl. rewrite <- app_assoc, drop_app_length. done.
  - unfold Broker.stop, broker_effects, bind, Broker.emit, modify,
      Broker.on_stream. simpl.
    destruct (stop second s2) as [s3 [e|[]]]; simpl;
      by rewrite drop_app_length.
Qed.

End broker_start.

Lemma broker_start_unguarded_witness :
  ∃ first second,
    (subscribe "main" true (mkMemoryStream [] [])).2 = inr first
    ∧ (subscribe "main" true
         (Broker.stream
            (Broker.start
               (Broker.constructor two_projections (mkMemoryStream [] []))).1)).2
      = inr second
    ∧ subscribe_calls
        (broker_effects
           (Broker.constructor two_projections (mkMemoryStream [] []))
           (Broker.start
              (Broker.start
                 (Broker.constructor two_projections (mkMemoryStream [] []))).1).1)
      = [("main"%string, true); ("main"%string, true)]
    ∧ Broker.subscriber
        (Broker.self
           (Broker.start
              (Broker.start
                 (Broker.constructor two_projections (mkMemoryStream [] []))).1).1)
      = Some second
    ∧ broker_stop_calls
        (broker_effects
           (Broker.start
              (Broker.start
                 (Broker.constructor two_projections (mkMemoryStream [] []))).1).1
           (Broker.stop
              (Broker.start
                 (Broker.start
                    (Broker.constructor two_projections
                       (mkMemoryStream [] []))).1).1).1)
      = [second].
Proof.
  exact (broker_start_unguarded
           (Broker.constructor two_projections (mkMemoryStream [] []))
           _ _ eq_refl eq_refl).
Defined.

(** ** Projection *)

Section projection_props.
Context {TState Store Stream Config : Type}.
Context `{StoreAdapter Store} `{StreamAdapter Stream} `{ConfigAdapter Config}.

Notation World := (Projection.World TState Store Stream Config).

(** The effects of a step from [w] to [w']. *)
Definition projection_effects (w w' : World) : list Projection.Effect :=
  drop (length (Projection.effects w)) (Projection.effects w').

(** The calls of [store.saveProjectionCheckpoint] among some effects. *)
Definition checkpoint_saves (effs : list Projection.Effect)
  : list CheckpointParams.t :=
  omap (λ e, match e with
             | Projection.SaveProjectionCheckpoint params => Some params
             | _ => None
             end) effs.

(** The calls of a handler among some effects. *)
Definition handler_calls (effs : list Projection.Effect)
  : list (Z * Event.t JsObject) :=
  omap (λ e, match e with
             | Projection.Handle type event => Some (type, event)
             | _ => None
             end) effs.

(** The calls of [config.saveStream] among some effects. *)
Definition registration_calls (effs : list Projection.Effect)
  : list StreamParams.t :=
  omap (λ e, match e with
             | Projection.SaveStream params => Some params
             | _ => None
             end) effs.

(** The calls of [stream.subscribe] among some effects. *)
Definition subscription_calls (effs : list Projection.Effect)
  : list (string * bool) :=
  omap (λ e, match e with
             | Projection.Subscribe stream raw => Some (stream, raw)
             | _ => None
             end) effs.

Ltac run_projection :=
  unfold Projection.handleEvent, Projection.start, Projection.stop,
    Projection.call_handle, Projection.set_self, Projection.emit,
    Projection.on_store, Projection.on_stream, Projection.on_config,
    bind, try_catch, modify, throw, ret;
  cbn [Projection.self Projection.store Projection.stream Projection.config
       Projection.effects Projection.date_now Projection.eventHandlers
       Projection.subscriber Projection._id Projection._state
       Projection.disableSaveStream Projection.timestampLastEventReceived].

Ltac since_start :=
  unfold projection_effects;
  cbn [fst snd Projection.self Projection.store Projection.stream
       Projection.config Projection.effects Projection.date_now
       Projection.eventHandlers Projection.subscriber Projection._id
       Projection._state Projection.disableSaveStream
       Projection.timestampLastEventReceived];
  rewrite <- ?app_assoc, ?drop_app_length, ?drop_all;
  cbn [app omap checkpoint_saves handler_calls registration_calls
       subscription_calls].

(** C6.  In [handleEvent], [saveProjectionCheckpoint] is called, once and
    for the aggregate of the event, if and only if a handler exists for the
    type of the event, [checkProjectionCheckpoint] returned true and the
    handler returned without throwing; the store of the projection is then
    the one that call leaves, on the store the check left, and the outcome
    of [handleEvent] is the outcome of that call.  When the handler throws,
    the error is the outcome of [handleEvent] (it reaches the retry loop of
    the subscriber) and the store is left as the check left it.  When there
    is no handler, or the check returned false, neither a handler nor
    [saveProjectionCheckpoint] is called, the state of the projection is
    untouched, and the store is as it was, or as the check left it. *)
Theorem handleEvent_checkpoint (w : World) (event : Event.t JsObject) :
  let params :=
    CheckpointParams.mk (Projection._id (Projection.self w))
                        (Event.aggregate event) in
  let handler :=
    JsMap.get (Event.type event) (Projection.eventHandlers (Projection.self w)) in
  let checked := checkProjectionCheckpoint params (Projection.store w) in
  let state := Projection._state (Projection.self w) in
  let w' := (Projection.handleEvent event w).1 in
  let outcome := (Projection.handleEvent event w).2 in
  let done := projection_effects w w' in
  (checkpoint_saves done = [params]
   ↔ ∃ h, handler = Some h ∧ checked.2 = inr true
          ∧ (Projection.handle h state event).2 = inr tt)
  ∧ (checkpoint_saves done = [params] ∨ checkpoint_saves done = [])
  ∧ (∀ h state',
       handler = Some h → checked.2 = inr true →
       Projection.handle h state event = (state', inr tt) →
       (Projection.store w', outcome) = saveProjectionCheckpoint params checked.1
       ∧ Projection._state (Projection.self w') = state'
       ∧ handler_calls done = [(Projection.type h, event)])
  ∧ (∀ h err,
       handler = Some h → checked.2 = inr true →
       (Projection.handle h state event).2 = inl err →
       outcome = inl err ∧ checkpoint_saves done = []
       ∧ Projection.store w' = checked.1)
  ∧ (handler = None ∨ checked.2 = inr false →
       outcome = inr tt ∧ handler_calls done = [] ∧ checkpoint_saves done = []
       ∧ Projection._state (Projection.self w') = state
       ∧ Projection.store w'
         = match handler with
           | None => Projection.store w
           | Some _ => checked.1
           end).
Proof.
  intros params handler checked state w' outcome done.
  unfold done, w', outcome, checked, handler, state. clear.
  run_projection.
  destruct (JsMap.get (Event.type event)
              (Projection.eventHandlers (Projection.self w))) as [h|] eqn:Hh.
  2:{ since_start. split; [| split; [| split; [| split]]].
      - split; [done | intros (h & Hsome & _); done].
      - by right.
      - intros h state' Hsome. done.
      - intros h err Hsome. done.
      - done. }
  cbn [Projection.self Projection.store Projection.stream Projection.config
       Projection.effects Projection._id Projection._state].
  fold params.
  destruct (checkProjectionCheckpoint params (Projection.store w))
    as [s1 [e|[|]]] eqn:Hc;
    cbn [fst snd Projection.self Projection.store Projection.stream
         Projection.config Projection.effects Projection._id Projection._state
         Projection.eventHandlers Projection.subscriber Projection.date_now
         Projection.disableSaveStream Projection.timestampLastEventReceived].
  - (* the check itself fails *)
    since_start. split; [| split; [| split; [| split]]].
    + split; [done | intros (h' & _ & Htrue & _); done].
    + by right.
    + intros h' state' _ Htrue. done.
    + intros h' err _ Htrue. done.
    + intros [Hnone|Hfalse]; done.
  - (* to be processed *)
    destruct (Projection.handle h (Projection._state (Projection.self w)) event)
      as [st [err|[]]] eqn:Hrun;
      cbn [fst snd Projection.self Projection.store Projection.stream
           Projection.config Projection.effects Projection._id
           Projection._state Projection.eventHandlers Projection.subscriber
           Projection.date_now Projection.disableSaveStream
           Projection.timestampLastEventReceived].
    + since_start. split; [| split; [| split; [| split]]].
      * split; [done |]. intros (h' & [= <-] & _ & Hok).
        rewrite Hrun in Hok. done.
      * by right.
      * intros h' state' [= <-] _. rewrite Hrun. done.
      * intros h' err' [= <-] _. rewrite Hrun. intros [= <-]. done.
      * intros [Hnone|Hfalse]; done.
    + destruct (saveProjectionCheckpoint params s1) as [s2 [e|[]]] eqn:Hsave;
        cbn [fst snd Projection.self Projection.store Projection.stream
             Projection.config Projection.effects Projection._id
             Projection._state Projection.eventHandlers Projection.subscriber
             Projection.date_now Projection.disableSaveStream
             Projection.timestampLastEventReceived];
        since_start;
        (split; [| split; [| split; [| split]]];
         [ split; [intros _; exists h; by rewrite Hrun | done]
         | by left
         | intros h' state' [= <-] _; rewrite Hrun; by intros [= <-]
         | intros h' err' [= <-] _; rewrite Hrun; done
         | intros [Hnone|Hfalse]; done ]).
  - (* a duplicate *)
    since_start. split; [| split; [| split; [| split]]].
    + split; [done | intros (h' & _ & Htrue & _); done].
    + by right.
    + intros h' state' _ Htrue. done.
    + intros h' err _ Htrue. done.
    + done.
Qed.

(** The methods called on a projection. *)
Inductive ProjectionCall :=
| CallStart
| CallHandleEvent (event : Event.t JsObject)
| CallStop.

Definition perform_call (call : ProjectionCall) : M World unit :=
  match call with
  | CallStart => Projection.start
  | CallHandleEvent event => Projection.handleEvent event
  | CallStop => Projection.stop
  end.

(** The world after a sequence of calls, whatever their outcomes. *)
Definition after_calls (calls : list ProjectionCall) (w : World) : World :=
  fold_left (λ w' call, (perform_call call w').1) calls w.

Lemma start_started (w : World) :
  is_Some (Projection.subscriber (Projection.self w)) →
  Projection.start w = (w, inl (JsError "already started")).
Proof. intros [s Hs]. unfold Projection.start. by rewrite Hs. Qed.

Lemma start_installs (w w1 : World) :
  Projection.start w = (w1, inr tt) →
  Projection.subscriber (Projection.self w) = None
  ∧ is_Some (Projection.subscriber (Projection.self w1))
  ∧ subscription_calls (projection_effects w w1)
    = [(Projection._id (Projection.self w), false)]
  ∧ registration_calls (projection_effects w w1)
    = if Projection.disableSaveStream (Projection.self w)
      then []
      else [StreamParams.mk (Projection._id (Projection.self w))
              (distinct (Projection.type <$>
                           JsMap.values
                             (Projection.eventHandlers (Projection.self w))))].
Proof.
  run_projection.
  destruct (Projection.subscriber (Projection.self w)) as [s|] eqn:Hs; [done |].
  destruct (Projection.disableSaveStream (Projection.self w)) eqn:Hd;
    cbn [fst snd Projection.self Projection.store Projection.stream
         Projection.config Projection.effects Projection._id].
  - destruct (subscribe _ false (Projection.stream w)) as [s1 [e|sub]];
      [done |].
    intros [= <-]. since_start. done.
  - destruct (saveStream _ (Projection.config w)) as [c1 [e|[]]]; [done |].
    cbn [fst snd Projection.self Projection.store Projection.stream
         Projection.config Projection.effects Projection._id].
    destruct (subscribe _ false (Projection.stream w)) as [s1 [e|sub]];
      [done |].
    intros [= <-]. since_start. done.
Qed.

Lemma perform_call_subscriber call (w : World) :
  is_Some (Projection.subscriber (Projection.self w)) →
  Projection.subscriber (Projection.self (perform_call call w).1)
  = Projection.subscriber (Projection.self w).
Proof.
  intros Hs. destruct call as [|event|]; simpl.
  - by rewrite start_started.
  - clear Hs. run_projection.
    destruct (JsMap.get _ _) as [h|]; [| done].
    cbn [Projection.self Projection.store Projection._id].
    destruct (checkProjectionCheckpoint _ _) as [s1 [e|[|]]]; try done.
    cbn [Projection.self Projection.store Projection._id Projection._state].
    destruct (Projection.handle h _ event) as [st [err|[]]]; try done.
    cbn [Projection.self Projection.store Projection._id Projection._state].
    destruct (saveProjectionCheckpoint _ _) as [s2 [e|[]]]; done.
  - clear Hs. run_projection.
    destruct (Projection.subscriber (Projection.self w)) as [s|] eqn:E.
    + cbn [Projection.stream].
      destruct (stop s (Projection.stream w)) as [s1 [e|[]]]; simpl;
        by rewrite E.
    + simpl. by rewrite E.
Qed.

Lemma after_calls_subscriber calls (w : World) :
  is_Some (Projection.subscriber (Projection.self w)) →
  is_Some (Projection.subscriber (Projection.self (after_calls calls w))).
Proof.
  revert w. induction calls as [|call calls IH]; intros w Hs; [done |].
  simpl. apply IH. by rewrite perform_call_subscriber.
Qed.

(** C10.  [start] is not re-entrant.  A call that succeeds finds no
    subscriber installed, registers the event types of the projection with
    the config adapter (unless [disableSaveStream] is set), subscribes once
    and installs the subscriber.  After it, whatever has been called on the
    projection since ([start], [handleEvent], [stop]), a call to [start]
    throws "already started" and leaves everything as it is: no
    registration, no second subscription. *)
Theorem start_not_reentrant (w w1 : World) (calls : list ProjectionCall) :
  Projection.start w = (w1, inr tt) →
  let w2 := after_calls calls w1 in
  Projection.start w2 = (w2, inl (JsError "already started"))
  ∧ registration_calls (projection_effects w2 (Projection.start w2).1) = []
  ∧ subscription_calls (projection_effects w2 (Projection.start w2).1) = []
  ∧ Projection.subscriber (Projection.self w) = None
  ∧ subscription_calls (projection_effects w w1)
    = [(Projection._id (Projection.self w), false)]
  ∧ registration_calls (projection_effects w w1)
    = if Projection.disableSaveStream (Projection.self w)
      then []
      else [StreamParams.mk (Projection._id (Projection.self w))
              (distinct (Projection.type <$>
                           JsMap.values
                             (Projection.eventHandlers (Projection.self w))))].
Proof.
  intros Hstart w2.
  apply start_installs in Hstart as (Hnone & Hsome & Hsub & Hreg).
  assert (Projection.start w2 = (w2, inl (JsError "already started"))) as Hagain.
  { apply start_started. by apply after_calls_subscriber. }
  rewrite Hagain. unfold projection_effects at 1 2. simpl.
  rewrite drop_all. done.
Qed.

End projection_props.

(** A projection of accounts on the Postgres store and config adapters and
    the in-memory stream: its handler for type 257 counts events, its
    handler for type 258 throws. *)
Definition counting : Projection.ProjectionEventHandler Z :=
  Projection.mkHandler 257%Z (λ state _, ((state + 1)%Z, inr tt)).

Definition failing : Projection.ProjectionEventHandler Z :=
  Projection.mkHandler 258%Z (λ state _, (state, inl (JsError "boom"))).

Definition accounts : Projection.World Z Pg MemoryStream ConfigState :=
  Projection.constructor checkpoint_store (mkMemoryStream [] [])
    (PostgresConfigAdapter.constructor ConfigOptions.none [] 1000)
    [counting; failing] "accounts" 0%Z false 1000.

Definition account_event (type version : Z) : Event.t JsObject :=
  Event.mk (EventId.mk ["010"%byte]) type (Aggregate.mk ["001"%byte] version)
           None ∅ 0.

(** Version 4 is new and handled: the checkpoint is saved, and the store
    is the one [saveProjectionCheckpoint] leaves.  Version 3 is a duplicate:
    nothing is called.  The handler of type 258 throws: the error comes out
    and the checkpoint stays at version 3. *)
Lemma handleEvent_checkpoint_witness :
  checkpoint_saves
    (projection_effects accounts
       (Projection.handleEvent (account_event 257 4) accounts).1)
  = [CheckpointParams.mk "accounts" (Aggregate.mk ["001"%byte] 4)]
  ∧ (Projection.store (Projection.handleEvent (account_event 257 4) accounts).1,
     (Projection.handleEvent (account_event 257 4) accounts).2)
    = saveProjectionCheckpoint
        (CheckpointParams.mk "accounts" (Aggregate.mk ["001"%byte] 4))
        checkpoint_store
  ∧ handler_calls
      (projection_effects accounts
         (Projection.handleEvent (account_event 257 3) accounts).1) = []
  ∧ (Projection.handleEvent (account_event 258 4) accounts).2
    = inl (JsError "boom")
  ∧ Projection.store (Projection.handleEvent (account_event 258 4) accounts).1
    = checkpoint_store.
Proof.
  pose proof (handleEvent_checkpoint accounts (account_event 257 4)) as H4.
  pose proof (handleEvent_checkpoint accounts (account_event 257 3)) as H3.
  pose proof (handleEvent_checkpoint accounts (account_event 258 4)) as H8.
  cbv zeta in H4, H3, H8.
  destruct H4 as ((_ & H4) & _ & H4' & _).
  destruct H3 as (_ & _ & _ & _ & H3).
  destruct H8 as (_ & _ & _ & H8 & _).
  split; [| split; [| split]].
  - apply H4. exists counting. repeat split; reflexivity.
  - exact (proj1 (H4' counting 1%Z eq_refl eq_refl eq_refl)).
  - apply H3. right. reflexivity.
  - destruct (H8 failing (JsError "boom") eq_refl eq_refl eq_refl)
      as (Hout & _ & Hstore).
    split; [exact Hout | exact Hstore].
Defined.

(** The projection is started, receives an event and is stopped; a second
    [start] throws and changes nothing. *)
Lemma start_not_reentrant_witness :
  Projection.start
    (after_calls [CallHandleEvent (account_event 257 4); CallStop]
       (Projection.start accounts).1)
  = (after_calls [CallHandleEvent (account_event 257 4); CallStop]
       (Projection.start accounts).1,
     inl (JsError "already started"))
  ∧ registration_calls
      (projection_effects accounts (Projection.start accounts).1)
    = [StreamParams.mk "accounts" [257; 258]%Z].
Proof.
  pose proof (start_not_reentrant accounts (Projection.start accounts).1
                [CallHandleEvent (account_event 257 4); CallStop] eq_refl) as H.
  cbv zeta in H. destruct H as (Hagain & _ & _ & _ & _ & Hreg).
  split; [exact Hagain | exact Hreg].
Defined.

(** ** A projection on the Postgres store: redelivery *)

Section delivery.
Context {TState Stream Config : Type}.
Context `{StreamAdapter Stream} `{ConfigAdapter Config}.
Local Open Scope Z_scope.

Notation World := (Projection.World TState Pg Stream Config).

#[local] Existing Instance covered_dec.

Ltac unfold_projection :=
  unfold Projection.handleEvent, Projection.call_handle, Projection.set_self,
    Projection.emit, Projection.on_store, bind, try_catch, modify, throw, ret;
  cbn [Projection.self Projection.store Projection.stream Projection.config
       Projection.effects Projection.date_now Projection.eventHandlers
       Projection.subscriber Projection._id Projection._state
       Projection.disableSaveStream Projection.timestampLastEventReceived
       checkProjectionCheckpoint saveProjectionCheckpoint
       PostgresStoreAdapter_StoreAdapter].

Ltac effects_since :=
  unfold projection_effects;
  cbn [fst snd Projection.self Projection.store Projection.stream
       Projection.config Projection.effects Projection.date_now
       Projection.eventHandlers Projection.subscriber Projection._id
       Projection._state Projection.disableSaveStream
       Projection.timestampLastEventReceived];
  rewrite <- ?app_assoc, ?drop_app_length, ?drop_all;
  cbn [app omap checkpoint_saves handler_calls].

(** The checkpoint parameters [handleEvent] builds for an event. *)
Definition checkpoint_of (w : World) (event : Event.t JsObject)
  : CheckpointParams.t :=
  CheckpointParams.mk (Projection._id (Projection.self w)) (Event.aggregate event).

Lemma covered_below d p id v v' :
  covered d (CheckpointParams.mk p (Aggregate.mk id v)) → v' ≤ v →
  covered d (CheckpointParams.mk p (Aggregate.mk id v')).
Proof.
  intros (r & Hr & Hp & Hid & Hv) Hle. exists r. simpl in *.
  split; [done |]. split; [done |]. split; [done | lia].
Qed.

(** An event whose version the checkpoint covers is skipped. *)
Lemma handleEvent_skips (w : World) (event : Event.t JsObject) :
  faults (Projection.store w) = [] →
  covered (tables (Projection.store w)) (checkpoint_of w event) →
  let w' := (Projection.handleEvent event w).1 in
  (Projection.handleEvent event w).2 = inr tt
  ∧ handler_calls (projection_effects w w') = []
  ∧ checkpoint_saves (projection_effects w w') = []
  ∧ Projection._state (Projection.self w') = Projection._state (Projection.self w)
  ∧ Projection.store w' = Projection.store w.
Proof.
  intros Hf Hcov. unfold checkpoint_of in Hcov. unfold_projection.
  destruct (JsMap.get (Event.type event)
              (Projection.eventHandlers (Projection.self w))) as [h|].
  2:{ effects_since. done. }
  cbn [Projection.self Projection.store Projection._id Projection.effects].
  rewrite checkProjectionCheckpoint_no_fault by done.
  rewrite bool_decide_eq_false_2 by (intros Hn; by apply Hn).
  effects_since. done.
Qed.

(** After [handleEvent] returned for an event that has a handler, the
    checkpoint covers the version of the event. *)
Lemma handleEvent_covers (w : World) (event : Event.t JsObject) h :
  faults (Projection.store w) = [] →
  JsMap.get (Event.type event) (Projection.eventHandlers (Projection.self w))
  = Some h →
  (Projection.handleEvent event w).2 = inr tt →
  let w' := (Projection.handleEvent event w).1 in
  faults (Projection.store w') = []
  ∧ covered (tables (Projection.store w')) (checkpoint_of w event)
  ∧ Projection.eventHandlers (Projection.self w')
    = Projection.eventHandlers (Projection.self w)
  ∧ Projection._id (Projection.self w') = Projection._id (Projection.self w).
Proof.
  intros Hf Hh. unfold checkpoint_of. unfold_projection. rewrite Hh.
  cbn [Projection.self Projection.store Projection._id Projection.effects].
  rewrite checkProjectionCheckpoint_no_fault by done.
  destruct (decide (covered (tables (Projection.store w))
                      (CheckpointParams.mk (Projection._id (Projection.self w))
                         (Event.aggregate event)))) as [Hcov | Hnew].
  { rewrite bool_decide_eq_false_2 by (intros Hn; by apply Hn).
    cbn [fst snd Projection.self Projection.store Projection._id
         Projection.eventHandlers]. done. }
  rewrite bool_decide_eq_true_2 by done.
  cbn [Projection.self Projection.store Projection._id Projection._state
       Projection.effects].
  destruct (Projection.handle h (Projection._state (Projection.self w)) event)
    as [st [err|[]]]; [done |].
  cbn [Projection.self Projection.store Projection._id Projection._state
       Projection.effects].
  rewrite saveProjectionCheckpoint_no_fault by done.
  cbn [fst snd Projection.self Projection.store Projection._id
       Projection.eventHandlers faults tables].
  intros _. split; [done |]. split; [| done].
  destruct (Event.aggregate event) as [id v].
  apply covered_after. rewrite decide_True by done. simpl. lia.
Qed.

(** X17.  A projection on the Postgres store handles an event at most
    once: when [handleEvent] returned normally for an event that has a
    handler, every later delivery of an event of the same aggregate at that
    version or below (the same event again, or an older one) returns
    without calling a handler, without saving a checkpoint, and leaves the
    state of the projection and the store as they are. *)
Theorem handleEvent_at_most_once (w : World) (event event' : Event.t JsObject) h :
  faults (Projection.store w) = [] →
  JsMap.get (Event.type event) (Projection.eventHandlers (Projection.self w))
  = Some h →
  (Projection.handleEvent event w).2 = inr tt →
  Aggregate.id (Event.aggregate event') = Aggregate.id (Event.aggregate event) →
  Aggregate.version (Event.aggregate event')
  ≤ Aggregate.version (Event.aggregate event) →
  let w1 := (Projection.handleEvent event w).1 in
  let w2 := (Projection.handleEvent event' w1).1 in
  (Projection.handleEvent event' w1).2 = inr tt
  ∧ handler_calls (projection_effects w1 w2) = []
  ∧ checkpoint_saves (projection_effects w1 w2) = []
  ∧ Projection._state (Projection.self w2) = Projection._state (Projection.self w1)
  ∧ Projection.store w2 = Projection.store w1.
Proof.
  intros Hf Hh Hok Hid Hle w1 w2.
  destruct (handleEvent_covers w event h Hf Hh Hok) as (Hf1 & Hcov & _ & Hpid).
  apply handleEvent_skips; [done |].
  unfold checkpoint_of in *. fold w1 in Hcov, Hpid. rewrite Hpid.
  destruct (Event.aggregate event) as [id v].
  destruct (Event.aggregate event') as [id' v']. simpl in *. subst id'.
  by apply (covered_below _ _ _ v).
Qed.

(** X18.  A projection on the Postgres store is handed an event again
    after its handler threw: the error is the outcome of [handleEvent], the
    store is left as it was, and the next delivery of the event calls the
    handler again. *)
Theorem handleEvent_again_after_failure (w : World) (event : Event.t JsObject)
    h err :
  faults (Projection.store w) = [] →
  JsMap.get (Event.type event) (Projection.eventHandlers (Projection.self w))
  = Some h →
  ¬ covered (tables (Projection.store w)) (checkpoint_of w event) →
  (Projection.handle h (Projection._state (Projection.self w)) event).2
  = inl err →
  let w1 := (Projection.handleEvent event w).1 in
  let w2 := (Projection.handleEvent event w1).1 in
  (Projection.handleEvent event w).2 = inl err
  ∧ Projection.store w1 = Projection.store w
  ∧ handler_calls (projection_effects w w1) = [(Projection.type h, event)]
  ∧ handler_calls (projection_effects w1 w2) = [(Projection.type h, event)].
Proof.
  intros Hf Hh Hnew Hthrows. unfold checkpoint_of in Hnew.
  assert (∀ w0 : World,
            faults (Projection.store w0) = [] →
            JsMap.get (Event.type event)
              (Projection.eventHandlers (Projection.self w0)) = Some h →
            ¬ covered (tables (Projection.store w0))
                (CheckpointParams.mk (Projection._id (Projection.self w0))
                   (Event.aggregate event)) →
            handler_calls
              (projection_effects w0 (Projection.handleEvent event w0).1)
            = [(Projection.type h, event)]) as Hcalls.
  { intros w0 Hf0 Hh0 Hnew0. unfold_projection. rewrite Hh0.
    cbn [Projection.self Projection.store Projection._id Projection.effects].
    rewrite checkProjectionCheckpoint_no_fault by done.
    rewrite bool_decide_eq_true_2 by done.
    cbn [Projection.self Projection.store Projection._id Projection._state
         Projection.effects].
    destruct (Projection.handle h (Projection._state (Projection.self w0)) event)
      as [st [e|[]]].
    - effects_since. done.
    - cbn [Projection.self Projection.store Projection._id Projection._state
           Projection.effects].
      destruct (PostgresStoreAdapter.saveProjectionCheckpoint _ _)
        as [s2 [e|[]]]; effects_since; done. }
  assert ((Projection.handleEvent event w).2 = inl err
          ∧ Projection.store (Projection.handleEvent event w).1
            = Projection.store w
          ∧ Projection.eventHandlers
              (Projection.self (Projection.handleEvent event w).1)
            = Projection.eventHandlers (Projection.self w)
          ∧ Projection._id (Projection.self (Projection.handleEvent event w).1)
            = Projection._id (Projection.self w)) as (Hout & Hstore & Hhs & Hpid).
  { unfold_projection. rewrite Hh.
    cbn [Projection.self Projection.store Projection._id Projection.effects].
    rewrite checkProjectionCheckpoint_no_fault by done.
    rewrite bool_decide_eq_true_2 by done.
    cbn [Projection.self Projection.store Projection._id Projection._state
         Projection.effects].
    destruct (Projection.handle h (Projection._state (Projection.self w)) event)
      as [st [e|[]]]; [| done].
    simpl in Hthrows. injection Hthrows as ->. done. }
  intros w1 w2. split; [done |]. split; [done |].
  split; [by apply Hcalls |].
  apply Hcalls; fold w1 in Hstore, Hhs, Hpid.
  - by rewrite Hstore.
  - by rewrite Hhs.
  - by rewrite Hstore, Hpid.
Qed.

End delivery.

(** The counting handler handles version 4 once; the failing handler is
    called at every delivery. *)
Lemma handleEvent_at_most_once_witness :
  (Projection.handleEvent (account_event 257 4)
     (Projection.handleEvent (account_event 257 4) accounts).1).2 = inr tt
  ∧ handler_calls
      (projection_effects
         (Projection.handleEvent (account_event 257 4) accounts).1
         (Projection.handleEvent (account_event 257 4)
            (Projection.handleEvent (account_event 257 4) accounts).1).1) = []
  ∧ checkpoint_saves
      (projection_effects
         (Projection.handleEvent (account_event 257 4) accounts).1
         (Projection.handleEvent (account_event 257 4)
            (Projection.handleEvent (account_event 257 4) accounts).1).1) = []
  ∧ Projection._state
      (Projection.self
         (Projection.handleEvent (account_event 257 4)
            (Projection.handleEvent (account_event 257 4) accounts).1).1)
    = Projection._state
        (Projection.self (Projection.handleEvent (account_event 257 4) accounts).1)
  ∧ Projection.store
      (Projection.handleEvent (account_event 257 4)
         (Projection.handleEvent (account_event 257 4) accounts).1).1
    = Projection.store (Projection.handleEvent (account_event 257 4) accounts).1.
Proof.
  apply (handleEvent_at_most_once accounts (account_event 257 4)
           (account_event 257 4) counting).
  - reflexivity.
  - reflexivity.
  - reflexivity.
  - reflexivity.
  - vm_compute. discriminate.
Defined.

Lemma handleEvent_again_after_failure_witness :
  (Projection.handleEvent (account_event 258 4) accounts).2
  = inl (JsError "boom")
  ∧ Projection.store (Projection.handleEvent (account_event 258 4) accounts).1
    = Projection.store accounts
  ∧ handler_calls
      (projection_effects accounts
         (Projection.handleEvent (account_event 258 4) accounts).1)
    = [(258%Z, account_event 258 4)]
  ∧ handler_calls
      (projection_effects
         (Projection.handleEvent (account_event 258 4) accounts).1
         (Projection.handleEvent (account_event 258 4)
            (Projection.handleEvent (account_event 258 4) accounts).1).1)
    = [(258%Z, account_event 258 4)].
Proof.
  apply (handleEvent_again_after_failure accounts (account_event 258 4)
           failing (JsError "boom")).
  - reflexivity.
  - reflexivity.
  - intros (r & Hr & _ & _ & Hv). vm_compute in Hr.
    apply list_elem_of_singleton in Hr. subst r. vm_compute in Hv. by apply Hv.
  - reflexivity.
Defined.

(** ** Projection.start: failures, and what the broker sees of it *)

Section start_failures.
Context {TState Store Stream Config : Type}.
Context `{StoreAdapter Store} `{StreamAdapter Stream} `{ConfigAdapter Config}.

Notation World := (Projection.World TState Store Stream Config).

(** The registration [start] sends to the config adapter. *)
Definition registration_of (w : World) : StreamParams.t :=
  StreamParams.mk (Projection._id (Projection.self w))
    (distinct (Projection.type <$>
                 JsMap.values (Projection.eventHandlers (Projection.self w)))).

Ltac unfold_start :=
  unfold Projection.start, Projection.set_self, Projection.emit,
    Projection.on_stream, Projection.on_config, bind, modify, ret;
  cbn [Projection.self Projection.store Projection.stream Projection.config
       Projection.effects Projection.date_now Projection.eventHandlers
       Projection.subscriber Projection._id Projection._state
       Projection.disableSaveStream Projection.timestampLastEventReceived].

Ltac start_effects :=
  unfold projection_effects;
  cbn [fst snd Projection.self Projection.store Projection.stream
       Projection.config Projection.effects Projection.subscriber];
  rewrite <- ?app_assoc, ?drop_app_length, ?drop_all;
  cbn [app omap registration_calls subscription_calls].

(** X19.  A [start] that fails leaves the projection unstarted: whatever
    the error, no subscriber is installed by a failed call, so a later
    [start] is not refused as "already started"; and when the registration
    with the config adapter is what fails, [start] ends with that error
    without having called [subscribe]. *)
Theorem start_failure_leaves_unstarted (w : World) :
  (∀ err, (Projection.start w).2 = inl err →
     Projection.subscriber (Projection.self (Projection.start w).1)
     = Projection.subscriber (Projection.self w))
  ∧ (∀ c1 err,
       Projection.subscriber (Projection.self w) = None →
       Projection.disableSaveStream (Projection.self w) = false →
       saveStream (registration_of w) (Projection.config w) = (c1, inl err) →
       (Projection.start w).2 = inl err
       ∧ registration_calls (projection_effects w (Projection.start w).1)
         = [registration_of w]
       ∧ subscription_calls (projection_effects w (Projection.start w).1) = []
       ∧ Projection.stream (Projection.start w).1 = Projection.stream w).
Proof.
  split.
  - intros err. unfold_start.
    destruct (Projection.subscriber (Projection.self w)) as [s|] eqn:Hs;
      [simpl; intros _; exact Hs |].
    destruct (Projection.disableSaveStream (Projection.self w));
      cbn [fst snd Projection.self Projection.store Projection.stream
           Projection.config Projection.effects Projection._id].
    + destruct (subscribe _ false (Projection.stream w)) as [s1 [e|sub]];
        simpl; [intros _; exact Hs | done].
    + destruct (saveStream _ (Projection.config w)) as [c1 [e|[]]];
        simpl; [intros _; exact Hs |].
      destruct (subscribe _ false (Projection.stream w)) as [s1 [e|sub]];
        simpl; [intros _; exact Hs | done].
  - intros c1 err Hs Hd Hsave. unfold registration_of in *. unfold_start.
    rewrite Hs, Hd.
    cbn [fst snd Projection.self Projection.store Projection.stream
         Projection.config Projection.effects Projection._id].
    rewrite Hsave. start_effects. done.
Qed.

Lemma start_registers (w w1 : World) :
  Projection.start w = (w1, inr tt) →
  Projection.disableSaveStream (Projection.self w) = false →
  Projection.config w1 = (saveStream (registration_of w) (Projection.config w)).1.
Proof.
  intros Hstart Hd. revert Hstart. unfold registration_of. unfold_start.
  destruct (Projection.subscriber (Projection.self w)) as [s|]; [done |].
  rewrite Hd.
  cbn [fst snd Projection.self Projection.store Projection.stream
       Projection.config Projection.effects Projection._id].
  destruct (saveStream _ (Projection.config w)) as [c1 [e|[]]]; [done |].
  cbn [fst snd Projection.self Projection.store Projection.stream
       Projection.config Projection.effects Projection._id].
  destruct (subscribe _ false (Projection.stream w)) as [s1 [e|sub]]; [done |].
  by intros [= <-].
Qed.

(** *** The event types the constructor keeps *)

Lemma elem_of_distinct (x : Z) items : x ∈ distinct items ↔ x ∈ items.
Proof.
  induction items as [|y items IH]; [done |].
  simpl. rewrite !elem_of_cons, list_elem_of_filter, IH.
  destruct (decide (x = y)); tauto.
Qed.

Lemma JsMap_set_keys {V} (k k' : Z) (v : V) (m : JsMap.t V) :
  k' ∈ (fst <$> JsMap.set k v m) ↔ k' = k ∨ k' ∈ (fst <$> m).
Proof.
  induction m as [|[k0 v0] m IH]; simpl.
  - rewrite list_elem_of_singleton, elem_of_nil. tauto.
  - destruct (decide (k0 = k)) as [-> | Hne]; simpl.
    + rewrite !elem_of_cons. tauto.
    + rewrite !elem_of_cons, IH. tauto.
Qed.

Lemma JsMap_set_typed {V} (typ : V → Z) (k : Z) (v : V) (m : JsMap.t V) :
  typ v = k →
  Forall (λ kv, typ kv.2 = kv.1) m →
  Forall (λ kv, typ kv.2 = kv.1) (JsMap.set k v m).
Proof.
  intros Hv. induction m as [|[k0 v0] m IH]; simpl; intros Hm.
  - by constructor.
  - apply Forall_cons in Hm as [Hhd Hm].
    destruct (decide (k0 = k)); constructor; auto.
Qed.

Lemma JsMap_of_handlers (hs : list (Projection.ProjectionEventHandler TState))
    (m : JsMap.t (Projection.ProjectionEventHandler TState)) :
  Forall (λ kv, Projection.type kv.2 = kv.1) m →
  let m' := fold_left (λ m kv, JsMap.set kv.1 kv.2 m)
              ((λ item, (Projection.type item, item)) <$> hs) m in
  Forall (λ kv, Projection.type kv.2 = kv.1) m'
  ∧ ∀ k, k ∈ (fst <$> m') ↔ k ∈ (fst <$> m) ∨ k ∈ (Projection.type <$> hs).
Proof.
  revert m. induction hs as [|h hs IH]; intros m Hm; simpl.
  - split; [done |]. intros k. rewrite elem_of_nil. tauto.
  - destruct (IH (JsMap.set (Projection.type h) h m)) as [Ht Hk].
    { by apply JsMap_set_typed. }
    split; [done |]. intros k. rewrite Hk, JsMap_set_keys, elem_of_cons.
    simpl. tauto.
Qed.

(** The event types a constructed projection registers are the types of
    the handlers it was given. *)
Lemma constructor_types store stream config
    (hs : list (Projection.ProjectionEventHandler TState)) id state disable now
    (k : Z) :
  k ∈ StreamParams.events
        (registration_of
           (Projection.constructor store stream config hs id state disable now))
  ↔ k ∈ (Projection.type <$> hs).
Proof.
  unfold registration_of, Projection.constructor, JsMap.of_entries. simpl.
  destruct (JsMap_of_handlers hs []) as [Ht Hk]; [constructor |].
  cbv zeta in Ht, Hk. rewrite elem_of_distinct.
  unfold JsMap.values. rewrite <- list_fmap_compose.
  erewrite (list_fmap_ext (Projection.type ∘ snd) fst).
  - rewrite Hk, elem_of_nil. tauto.
  - intros i kv Hkv. apply list_elem_of_lookup_2 in Hkv.
    rewrite Forall_forall in Ht. by apply Ht.
Qed.

End start_failures.

Section start_and_broker.
Context {TState Store Stream S : Type}.
Context `{StoreAdapter Store} `{StreamAdapter Stream} `{StreamAdapter S}.
Local Open Scope Z_scope.

(** X20.  What a projection handles is what the broker sends it: after
    [start] of a projection built from a list of handlers went through, a
    broker on the same config adapter whose lookup for the type of an event
    is not served from the cache sends the event to the stream of the
    projection if and only if one of the handlers is for that type. *)
Theorem started_projection_is_routed store stream (a : ConfigState)
    (hs : list (Projection.ProjectionEventHandler TState)) id state now
    (w1 : Projection.World TState Store Stream ConfigState)
    (s : S) self effs (event : Event.t Buffer) :
  Projection.start (Projection.constructor store stream a hs id state false now)
  = (w1, inr tt) →
  (LRUCache.get (Event.type event) (config_clock (Projection.config w1))
     (cache (Projection.config w1))).1 = None →
  let b := Broker.mkEnv self (Projection.config w1) s effs in
  ∃ streams,
    sendEvents_calls (broker_effects b (Broker.onEvent event b).1)
    = (if decide (streams = []) then []
       else [((λ stream, Batch.mk stream [event]) <$> streams, true)])
    ∧ (id ∈ streams ↔ Event.type event ∈ (Projection.type <$> hs)).
Proof.
  intros Hstart Hmiss b.
  pose proof (start_registers _ _ Hstart eq_refl) as Hconfig.
  destruct (findStreams_miss (Projection.config w1) (Event.type event) Hmiss)
    as (a1 & rest & Hrun & _).
  exists (streams_of (Event.type event) (registrations (Projection.config w1))).
  split.
  - destruct (decide (streams_of (Event.type event)
                        (registrations (Projection.config w1)) = []))
      as [Hnil | Hne].
    + rewrite Hnil in Hrun. unfold broker_effects.
      rewrite (@onEvent_drops ConfigState S PostgresConfigAdapter_ConfigAdapter
                 _ b event a1 Hrun). simpl.
      by rewrite drop_app_length.
    + destruct (@onEvent_routes ConfigState S PostgresConfigAdapter_ConfigAdapter
                  _ b event a1 _ Hrun Hne) as (tail & Hon & Htail).
      unfold broker_effects. rewrite Hon. simpl.
      rewrite drop_app_length. simpl. by rewrite Htail.
  - rewrite Hconfig. cbn [saveStream PostgresConfigAdapter_ConfigAdapter].
    unfold PostgresConfigAdapter.saveStream, modify. cbn [fst registrations].
    rewrite streams_of_upsert.
    rewrite (constructor_types store stream a hs id state false now).
    cbn [StreamParams.id registration_of Projection.constructor
         Projection.self Projection._id].
    split; [intros [[_ Ht] | [Hne _]]; done | intros Ht; by left].
Qed.

End start_and_broker.

(** A config adapter whose [saveStream] is refused by its database. *)
Record DownConfig := mkDownConfig { down_calls : nat }.

#[global] Instance DownConfig_ConfigAdapter : ConfigAdapter DownConfig :=
  {| saveStream params :=
       λ c, (mkDownConfig (S (down_calls c)), inl (DatabaseError "08006"));
     findStreams event := ret [] |}.

Lemma start_failure_leaves_unstarted_witness :
  (Projection.start
     (Projection.constructor checkpoint_store (mkMemoryStream [] [])
        (mkDownConfig 0) [counting; failing] "accounts" 0%Z false 1000)).2
  = inl (DatabaseError "08006")
  ∧ subscription_calls
      (projection_effects
         (Projection.constructor checkpoint_store (mkMemoryStream [] [])
            (mkDownConfig 0) [counting; failing] "accounts" 0%Z false 1000)
         (Projection.start
            (Projection.constructor checkpoint_store (mkMemoryStream [] [])
               (mkDownConfig 0) [counting; failing] "accounts" 0%Z false
               1000)).1) = []
  ∧ Projection.subscriber
      (Projection.self
         (Projection.start
            (Projection.constructor checkpoint_store (mkMemoryStream [] [])
               (mkDownConfig 0) [counting; failing] "accounts" 0%Z false
               1000)).1) = None.
Proof.
  pose proof (start_failure_leaves_unstarted
                (Projection.constructor checkpoint_store (mkMemoryStream [] [])
                   (mkDownConfig 0) [counting; failing] "accounts" 0%Z false
                   1000)) as [Hany Hreg].
  destruct (Hreg (mkDownConfig 1) (DatabaseError "08006") eq_refl eq_refl eq_refl)
    as (Hout & _ & Hsub & _).
  split; [exact Hout |]. split; [exact Hsub |].
  exact (Hany (DatabaseError "08006") Hout).
Defined.

Lemma started_projection_is_routed_witness :
  ∃ streams,
    sendEvents_calls
      (broker_effects
         (Broker.mkEnv (Broker.mk None)
            (Projection.config (Projection.start accounts).1)
            (mkMemoryStream [] []) [])
         (Broker.onEvent (raw_event 257)
            (Broker.mkEnv (Broker.mk None)
               (Projection.config (Projection.start accounts).1)
               (mkMemoryStream [] []) [])).1)
    = (if decide (streams = []) then []
       else [((λ stream, Batch.mk stream [raw_event 257]) <$> streams, true)])
    ∧ ("accounts"%string ∈ streams
       ↔ Event.type (raw_event 257) ∈ (Projection.type <$> [counting; failing])).
Proof.
  exact (started_projection_is_routed checkpoint_store (mkMemoryStream [] [])
           (PostgresConfigAdapter.constructor ConfigOptions.none [] 1000)
           [counting; failing] "accounts" 0%Z 1000
           (Projection.start accounts).1
           (mkMemoryStream [] []) (Broker.mk None) [] (raw_event 257)
           eq_refl eq_refl).
Defined.
(** ** The canonical encoding round-trips *)

Section canonical_roundtrip.
Import Canonical.
Local Open Scope Z_scope.

(** The kinds of values the encoding supports: [null], numbers, strings,
    booleans, byte strings and timestamps. *)
Definition supported_kind (v : Value) : Prop :=
  match v with
  | VArray _ | VObject _ => False
  | _ => True
  end.

Lemma parse_escaped_step (b : byte) (input : list byte) :
  parse_escaped (escaped b ++ input)
  = '(bytes, rest) ← parse_escaped input; Some (b :: bytes, rest).
Proof. destruct b; reflexivity. Qed.

Lemma parse_escaped_text (bytes rest : list byte) :
  parse_escaped (mbind escaped bytes ++ quote :: rest) = Some (bytes, rest).
Proof.
  induction bytes as [|b bytes IH]; [done |].
  rewrite bind_cons, <- app_assoc, parse_escaped_step, IH. done.
Qed.

Lemma parse_text_of (bytes rest : list byte) :
  parse_text (text_of bytes ++ rest) = Some (bytes, rest).
Proof.
  unfold text_of, parse_text. cbn [app]. rewrite decide_True by done.
  rewrite <- app_assoc. apply parse_escaped_text.
Qed.

Lemma after_app (expected rest : list byte) :
  after expected (expected ++ rest) = Some rest.
Proof.
  induction expected as [|e expected IH]; [by destruct rest |].
  simpl. by rewrite decide_True.
Qed.

Lemma uint_numeric (d : Decimal.uint) :
  Forall (λ c, numeric c = true) (bytes_of (NilEmpty.string_of_uint d)).
Proof. induction d; constructor; done. Qed.

Lemma number_text_numeric (n : Z) :
  Forall (λ c, numeric c = true) (number_text n)
  ∧ number_text n ≠ [].
Proof.
  unfold number_text.
  destruct (Z.to_int n) as [d|d]; simpl.
  - destruct d; try (split; [constructor; [done | apply uint_numeric] | done]).
    split; [by repeat constructor | done].
  - split; [| done]. constructor; [done |].
    destruct d; try (constructor; [done | apply uint_numeric]).
    by repeat constructor.
Qed.

Lemma span_numeric_app (digits : list byte) c rest :
  Forall (λ c, numeric c = true) digits → numeric c = false →
  span_numeric (digits ++ c :: rest) = (digits, c :: rest).
Proof.
  intros Hd Hc. induction Hd as [|d digits Hdn _ IH]; simpl.
  - by rewrite Hc.
  - by rewrite Hdn, IH.
Qed.

Lemma to_int_proper (n : Z) :
  Z.to_int n ≠ Decimal.Pos Decimal.Nil ∧ Z.to_int n ≠ Decimal.Neg Decimal.Nil.
Proof.
  destruct n as [|p|p]; simpl; split; try done;
    intros [= Hp]; by apply (Unsigned.to_uint_nonnil p).
Qed.

Lemma parse_number_text (n : Z) c rest :
  numeric c = false →
  parse_number (number_text n ++ c :: rest) = Some (n, c :: rest).
Proof.
  intros Hc. unfold parse_number.
  rewrite span_numeric_app; [| apply number_text_numeric | done].
  unfold number_text, bytes_of. rewrite String.string_of_list_byte_of_string.
  destruct (to_int_proper n) as [Hpos Hneg].
  rewrite NilZero.isi by done. simpl. by rewrite DecimalZ.of_to.
Qed.


Lemma number_text_head (n : Z) :
  ∃ d digits, number_text n = d :: digits ∧ numeric d = true.
Proof.
  destruct (number_text_numeric n) as [Hall Hne].
  destruct (number_text n) as [|d digits]; [done |].
  exists d, digits. split; [done |]. by apply Forall_cons in Hall as [? _].
Qed.

(** A numeric character opens nothing but a number. *)
Lemma after_numeric (expected : list byte) d rest e expected' :
  expected = e :: expected' → numeric e = false → numeric d = true →
  after expected (d :: rest) = None.
Proof.
  intros -> He Hd. simpl. rewrite decide_False; [done |]. congruence.
Qed.

Lemma parse_text_numeric d rest :
  numeric d = true → parse_text (d :: rest) = None.
Proof.
  intros Hd. simpl. rewrite decide_False; [done |]. intros ->. done.
Qed.

Lemma parse_value_text (v : Value) c rest :
  supported_kind v → numeric c = false →
  parse_value (value_text v ++ c :: rest) = Some (v, c :: rest).
Proof.
  intros Hv Hc. destruct v as [|n|s|[|]|b|ms|items|fields]; try done.
  - (* a number *)
    destruct (number_text_head n) as (d & digits & Hn & Hd).
    unfold parse_value. cbn [value_text]. rewrite Hn. cbn [app].
    rewrite (after_numeric (bytes_of "null") d _ _ _ eq_refl eq_refl Hd).
    rewrite (after_numeric (bytes_of "true") d _ _ _ eq_refl eq_refl Hd).
    rewrite (after_numeric (bytes_of "false") d _ _ _ eq_refl eq_refl Hd).
    rewrite (after_numeric bytes_tag d _ _ _ eq_refl eq_refl Hd).
    rewrite (after_numeric date_tag d _ _ _ eq_refl eq_refl Hd).
    rewrite parse_text_numeric by done.
    change (d :: digits ++ c :: rest) with ((d :: digits) ++ c :: rest).
    rewrite <- Hn, parse_number_text by done. done.
  - (* a string *)
    unfold parse_value. cbn [value_text].
    change (after (bytes_of "null") (text_of (bytes_of s) ++ c :: rest))
      with (@None (list byte)).
    change (after (bytes_of "true") (text_of (bytes_of s) ++ c :: rest))
      with (@None (list byte)).
    change (after (bytes_of "false") (text_of (bytes_of s) ++ c :: rest))
      with (@None (list byte)).
    change (after bytes_tag (text_of (bytes_of s) ++ c :: rest))
      with (@None (list byte)).
    change (after date_tag (text_of (bytes_of s) ++ c :: rest))
      with (@None (list byte)).
    rewrite parse_text_of. unfold bytes_of.
    by rewrite String.string_of_list_byte_of_string.
  - (* a byte string *)
    unfold parse_value. cbn [value_text]. rewrite <- !app_assoc.
    change (after (bytes_of "null") (bytes_tag ++ _)) with (@None (list byte)).
    change (after (bytes_of "true") (bytes_tag ++ _)) with (@None (list byte)).
    change (after (bytes_of "false") (bytes_tag ++ _)) with (@None (list byte)).
    rewrite after_app, parse_text_of. cbn [mbind option_bind].
    by rewrite after_app.
  - (* a timestamp *)
    unfold parse_value. cbn [value_text]. rewrite <- !app_assoc.
    change (after (bytes_of "null") (date_tag ++ _)) with (@None (list byte)).
    change (after (bytes_of "true") (date_tag ++ _)) with (@None (list byte)).
    change (after (bytes_of "false") (date_tag ++ _)) with (@None (list byte)).
    change (after bytes_tag (date_tag ++ ?x)) with (@None (list byte)).
    rewrite after_app.
    change (bytes_of "}" ++ c :: rest) with ("}"%byte :: c :: rest).
    rewrite parse_number_text by done. done.
Qed.


Lemma parse_entry_text (entry : string * Value) c rest :
  supported_kind entry.2 → numeric c = false →
  parse_entry (entry_text entry ++ c :: rest) = Some (entry, c :: rest).
Proof.
  intros Hv Hc. destruct entry as [k v]. unfold parse_entry, entry_text.
  cbn [fst snd] in *. rewrite <- !app_assoc, parse_text_of.
  cbn [mbind option_bind]. rewrite after_app. cbn [mbind option_bind].
  rewrite parse_value_text by done. cbn [mbind option_bind].
  unfold bytes_of. by rewrite String.string_of_list_byte_of_string.
Qed.

Lemma parse_entries_text (entries : list (string * Value)) :
  entries ≠ [] → Forall (λ entry, supported_kind entry.2) entries →
  ∀ (fuel : nat) rest,
    (length entries ≤ fuel)%nat →
    parse_entries fuel (entries_text entries ++ "}"%byte :: rest)
    = Some (entries, rest).
Proof.
  intros Hne Hall. induction Hall as [|entry entries Hentry Hall IH]; [done |].
  intros fuel rest Hfuel. destruct fuel as [|fuel]; [simpl in Hfuel; lia |].
  destruct entries as [|next entries].
  - cbn [entries_text parse_entries].
    rewrite parse_entry_text by done. done.
  - change (entries_text (entry :: next :: entries))
      with (entry_text entry ++ bytes_of "," ++ entries_text (next :: entries)).
    rewrite <- !app_assoc. cbn [parse_entries].
    change (bytes_of "," ++ ?x) with (","%byte :: x).
    rewrite parse_entry_text by done. cbn [mbind option_bind].
    change (after (bytes_of ",") (","%byte :: ?x)) with (Some x).
    cbv iota beta. rewrite IH by (done || (simpl in *; lia)). done.
Qed.

Lemma entries_text_length (entries : list (string * Value)) :
  (length entries ≤ length (entries_text entries))%nat.
Proof.
  induction entries as [|entry [|next entries] IH]; [done | |].
  - simpl. unfold entry_text, text_of. simpl. lia.
  - change (entries_text (entry :: next :: entries))
      with (entry_text entry ++ bytes_of "," ++ entries_text (next :: entries)).
    rewrite !length_app. simpl in *. lia.
Qed.

Lemma entries_text_head (entries : list (string * Value)) :
  entries ≠ [] → ∃ text, entries_text entries = quote :: text.
Proof.
  destruct entries as [|entry [|next entries]]; [done | |]; intros _;
    eexists; reflexivity.
Qed.

Lemma parse_object_text (entries : list (string * Value)) :
  Forall (λ entry, supported_kind entry.2) entries →
  parse_object (object_text entries) = Some entries.
Proof.
  intros Hall. destruct (decide (entries = [])) as [-> | Hne]; [done |].
  unfold parse_object, object_text.
  change (bytes_of "{" ++ ?x) with ("{"%byte :: x).
  change (after (bytes_of "{") ("{"%byte :: ?x)) with (Some x).
  cbn [mbind option_bind].
  destruct (entries_text_head entries Hne) as [text Htext].
  assert (after (bytes_of "}") (entries_text entries ++ bytes_of "}") = None)
    as -> by (by rewrite Htext).
  change (bytes_of "}") with ["}"%byte].
  rewrite parse_entries_text; [done | done | done |].
  pose proof (entries_text_length entries). simpl. rewrite length_app. lia.
Qed.

(** The encoding brings back every object whose values are of the
    supported kinds. *)
Lemma decode_encode (value : JsObject) :
  map_Forall (λ _, supported_kind) value → decode (encode value) = value.
Proof.
  intros Hall. unfold decode, encode. rewrite parse_object_text.
  - apply list_to_map_to_list.
  - apply Forall_forall. intros [k v] Hkv.
    apply elem_of_map_to_list in Hkv. by apply (Hall k v).
Qed.

End canonical_roundtrip.

(** ** The wire codec *)

Section codec.
Import Serialization.
Local Open Scope Z_scope.

(** The event with its timestamp cut to whole seconds. *)
Definition truncated {B} (event : Event.t B) : Event.t B :=
  Event.mk (Event.id event) (Event.type event) (Event.aggregate event)
           (Event.body event) (Event.meta event)
           (Event.timestamp event / 1000 * 1000).

(** The fields the data model declares as uint32 are. *)
Definition uint32_fields {B} (event : Event.t B) : Prop :=
  0 ≤ Event.type event < 2 ^ 32
  ∧ 0 ≤ Aggregate.version (Event.aggregate event) < 2 ^ 32.

(** The timestamp is within the seconds a u32 counts from the epoch:
    from 1970-01-01T00:00:00Z to 2106-02-07T06:28:15.999Z. *)
Definition in_u32_seconds {B} (event : Event.t B) : Prop :=
  0 ≤ Event.timestamp event < 2 ^ 32 * 1000.

(** The metadata of the event, and the fields of its body on a stream that
    is not raw, are of the kinds the serializer table supports: [null],
    numbers, strings, booleans, byte strings and timestamps.  A raw body is
    bytes, which the codec does not hand to the table. *)
Definition supported_kinds (raw : bool) : Event.t (Body raw) → Prop :=
  match raw with
  | true => λ event, map_Forall (λ _, supported_kind) (Event.meta event)
  | false => λ event,
      map_Forall (λ _, supported_kind) (Event.meta event)
      ∧ ∀ b, Event.body event = Some b → map_Forall (λ _, supported_kind) b
  end.

Lemma u32_small n : 0 ≤ n < 2 ^ 32 → u32 n = n.
Proof. intros Hn. unfold u32. by apply Z.mod_small. Qed.

Section table.
Variable encode : JsObject → Buffer.
Variable decode : Buffer → JsObject.

(** What a serializer table and the seconds of the wire leave of an event:
    the body and the metadata are decoded from what the table encoded, and
    the timestamp is cut to whole seconds. *)
Definition through (raw : bool) (event : Event.t (Body raw))
  : Event.t (Body raw) :=
  Event.mk (Event.id event) (Event.type event) (Event.aggregate event)
           ((λ b, decode_body decode raw (encode_body encode raw b))
              <$> Event.body event)
           (decode (encode (Event.meta event)))
           (Event.timestamp event / 1000 * 1000).

Lemma roundtrip_through (raw : bool) (event : Event.t (Body raw)) :
  uint32_fields event →
  in_u32_seconds event →
  deserialize decode raw (serialize encode raw event) = through raw event.
Proof.
  intros [Htype Hversion] Hrange.
  unfold deserialize, serialize, through, in_u32_seconds in *.
  destruct event as [[id] type [aid version] body meta timestamp].
  simpl in *. rewrite !u32_small; try done.
  - f_equal. by destruct body.
  - split; [apply Z.div_pos; lia |].
    apply Z.div_lt_upper_bound; lia.
Qed.

End table.

Lemma through_canonical (raw : bool) (event : Event.t (Body raw)) :
  supported_kinds raw event →
  through Canonical.encode Canonical.decode raw event = truncated event.
Proof.
  intros Hkinds. unfold through, truncated.
  destruct event as [id type agg body meta timestamp]. simpl.
  destruct raw; simpl in *.
  - rewrite decode_encode by done. f_equal. by destruct body.
  - destruct Hkinds as [Hmeta Hbody]. rewrite decode_encode by done.
    f_equal. destruct body as [b|]; [| done]. simpl.
    by rewrite decode_encode by by apply Hbody.
Qed.

Lemma truncated_whole {B} (event : Event.t B) :
  Event.timestamp event mod 1000 = 0 → truncated event = event.
Proof.
  intros Hwhole. unfold truncated.
  destruct event as [id type agg body meta timestamp].
  simpl in *. f_equal.
  rewrite (Z.div_mod timestamp 1000) at 2 by lia. lia.
Qed.

(** C9 (amended).  For every event whose type and aggregate version are
    uint32, whose body and metadata hold only values of the kinds the
    serializer table supports (null, numbers, strings, booleans, byte
    strings, timestamps), and whose timestamp lies within the seconds a u32
    counts from the epoch, [deserialize(serialize(event))] under the
    canonical encoding is the event with its timestamp truncated to whole
    seconds: sub-second information is lost, and an event whose timestamp
    falls on a whole second comes back as it was.  This holds in raw mode as
    well, where the body is bytes and only the metadata goes through the
    table. *)
Theorem codec_roundtrip (raw : bool) (event : Event.t (Body raw)) :
  uint32_fields event →
  supported_kinds raw event →
  in_u32_seconds event →
  deserialize Canonical.decode raw (serialize Canonical.encode raw event)
  = truncated event
  ∧ (Event.timestamp event mod 1000 = 0 →
     deserialize Canonical.decode raw (serialize Canonical.encode raw event)
     = event).
Proof.
  intros Hfields Hkinds Hrange.
  rewrite roundtrip_through, through_canonical by done.
  split; [done |]. apply truncated_whole.
Qed.

End codec.

(** An event at 2106-02-07T06:28:16Z, a whole second, with a body and
    metadata of supported kinds. *)
Definition late_event : Event.t (Serialization.Body false) :=
  Event.mk (EventId.mk ["010"%byte]) 257 (Aggregate.mk ["001"%byte] 1)
           (Some {[ "amount" := VNumber 10 ]})
           {[ "user" := VString "ada" ]} 4294967296000.

(** C9 as the spec states it does not hold for a timestamp the u32 seconds
    field cannot hold: the event is on a whole second, its type and version
    are uint32, its body and metadata are of supported kinds, and yet it
    returns at the epoch. *)
Lemma codec_wraps_late_timestamps :
  (Event.timestamp late_event mod 1000 = 0)%Z
  ∧ uint32_fields late_event
  ∧ supported_kinds false late_event
  ∧ Serialization.deserialize Canonical.decode false
      (Serialization.serialize Canonical.encode false late_event)
    = Event.mk (EventId.mk ["010"%byte]) 257 (Aggregate.mk ["001"%byte] 1)
           (Some {[ "amount" := VNumber 10 ]})
           {[ "user" := VString "ada" ]} 0
  ∧ Serialization.deserialize Canonical.decode false
      (Serialization.serialize Canonical.encode false late_event) ≠ late_event.
Proof.
  assert (supported_kinds false late_event) as Hkinds.
  { split; simpl.
    - by intros k v [_ <-]%lookup_singleton_Some.
    - by intros b [= <-] k v [_ <-]%lookup_singleton_Some. }
  assert (Serialization.deserialize Canonical.decode false
            (Serialization.serialize Canonical.encode false late_event)
          = Event.mk (EventId.mk ["010"%byte]) 257
              (Aggregate.mk ["001"%byte] 1)
              (Some {[ "amount" := VNumber 10 ]})
              {[ "user" := VString "ada" ]} 0%Z) as Hback.
  { unfold Serialization.deserialize, Serialization.serialize, late_event.
    simpl.
    rewrite !decode_encode by by intros k v [_ <-]%lookup_singleton_Some.
    done. }
  split; [reflexivity |].
  split; [split; split; vm_compute; (reflexivity || discriminate) |].
  split; [done |]. split; [done |].
  rewrite Hback. intros [=].
Qed.

(** The six kinds of values, with a key, a string and bytes that need
    escapes. *)
Definition all_kinds : JsObject :=
  {[ "none" := VNull;
     "amount" := VNumber (-1250);
     "note" := VString "a \ b";
     "open" := VBoolean true;
     "key" := VBuffer ["000"%byte; "255"%byte; "034"%byte];
     "at" := VDate 1793664000250 ]}.

(** An event at 2026-11-03T00:00:00.250Z comes back at 2026-11-03T00:00:00Z
    with its body and its metadata. *)
Definition kinds_sample : Event.t (Serialization.Body false) :=
  Event.mk (EventId.mk ["010"%byte]) 257 (Aggregate.mk ["001"%byte] 1)
           (Some all_kinds) (<["__ctx" := VBuffer ["007"%byte]]> all_kinds)
           1793664000250.

(** The same in raw mode, with its bytes. *)
Definition raw_sample : Event.t (Serialization.Body true) :=
  Event.mk (EventId.mk ["010"%byte]) 257 (Aggregate.mk ["001"%byte] 1)
           (Some ["001"%byte; "002"%byte]) ∅ 1793664000250.

Lemma all_kinds_supported : map_Forall (λ _, supported_kind) all_kinds.
Proof.
  unfold all_kinds. repeat (apply map_Forall_insert_2; [done |]).
  apply map_Forall_empty.
Qed.

Lemma kinds_sample_supported : supported_kinds false kinds_sample.
Proof.
  split.
  - apply map_Forall_insert_2; [done | apply all_kinds_supported].
  - intros b [= <-]. apply all_kinds_supported.
Qed.

Lemma codec_roundtrip_witness :
  Serialization.deserialize Canonical.decode false
    (Serialization.serialize Canonical.encode false kinds_sample)
  = Event.mk (EventId.mk ["010"%byte]) 257 (Aggregate.mk ["001"%byte] 1)
             (Some all_kinds) (<["__ctx" := VBuffer ["007"%byte]]> all_kinds)
             1793664000000.
Proof.
  refine (proj1 (codec_roundtrip false kinds_sample _ _ _)).
  - split; split; vm_compute; (reflexivity || discriminate).
  - exact kinds_sample_supported.
  - split; vm_compute; (reflexivity || discriminate).
Defined.

(** ** KafkaStreamAdapter: from sendEvents to the handler *)

Section wire.
Import Serialization KafkaStreamAdapter.
Local Open Scope Z_scope.

Variable encode : JsObject → Buffer.
Variable decode : Buffer → JsObject.

(** X21.  What [sendEvents] sends is what the handler of a subscriber is
    called with.  For batches of events whose type and aggregate version
    are uint32 and whose timestamp lies within the seconds a u32 counts,
    [sendEvents] builds one entry per batch, in order, for the topic
    "prefix.stream", and on the messages of that entry, one per event and
    in order, [eachMessage] of a subscriber in the same mode runs the retry
    loop of the handler on the event sent, with its id, type and aggregate,
    with the body and the metadata the serializer table decodes from what
    it encoded, and with the timestamp cut to whole seconds. *)
Theorem sent_events_reach_the_handler {St : Type} (sleep : Z → St → St)
    (prefix : string) (raw : bool) (opts : option RetryOptions)
    (handle : Event.t (Body raw) → M St unit)
    (params : list (Batch.t (Body raw))) :
  Forall (λ b, Forall (λ event, uint32_fields event ∧ in_u32_seconds event)
                      (Batch.events b)) params →
  (λ tm, (topic tm, eachMessage decode sleep raw opts handle <$> messages tm))
    <$> topicMessages encode prefix raw params
  = (λ b, (topic_of prefix (Batch.stream b),
           (λ event, ExponentialBackoff.backOff sleep
                       (handle (through encode decode raw event))
                       (subscribe_backoff opts)) <$> Batch.events b))
      <$> params.
Proof.
  intros Hall. unfold topicMessages. rewrite <- !list_fmap_compose.
  apply list_fmap_ext. intros i b Hb. simpl. f_equal.
  apply list_elem_of_lookup_2 in Hb.
  rewrite Forall_forall in Hall. specialize (Hall b Hb).
  rewrite <- list_fmap_compose. apply list_fmap_ext.
  intros j event He. apply list_elem_of_lookup_2 in He.
  rewrite Forall_forall in Hall. destruct (Hall event He) as [H1 H2].
  simpl. unfold eachMessage. simpl. by rewrite roundtrip_through.
Qed.

Lemma u32_u32 n : u32 (u32 n) = u32 n.
Proof. unfold u32. by rewrite Z.mod_mod. Qed.

(** The event a raw subscriber sees for an event sent in either mode: its
    body is the bytes sent. *)
Definition as_raw (raw : bool) (event : Event.t (Body raw))
  : Event.t (Body true) :=
  Event.mk (Event.id event) (Event.type event) (Event.aggregate event)
           (encode_body encode raw <$> Event.body event) (Event.meta event)
           (Event.timestamp event).

Lemma message_as_raw (raw : bool) (event : Event.t (Body raw)) :
  message encode raw event = message encode true (as_raw raw event).
Proof.
  unfold message, serialize, as_raw. simpl. do 3 f_equal.
  by destruct (Event.body event).
Qed.

(** A raw event received and sent again gives the message it came in. *)
Lemma message_of_received (event : Event.t (Body true)) :
  decode (encode (Event.meta event)) = Event.meta event →
  message encode true (deserialize decode true (serialize encode true event))
  = message encode true event.
Proof.
  intros Hmeta. unfold message, deserialize, serialize. simpl in *.
  rewrite Hmeta, !u32_u32. do 2 f_equal.
  f_equal.
  - by destruct (Event.body event).
  - rewrite Z.div_mul by done. apply u32_u32.
Qed.

(** X22.  The fan-out of the broker is transparent on the wire: the event
    a raw subscriber decodes from a message (sent in either mode), handed
    to [sendEvents] in raw mode, one batch per stream as the broker does,
    gives for every stream the very message it was decoded from (its bytes
    and its [__ctx] header, which the partitioner hashes), whatever the
    type, version and timestamp of the event, provided the serializer
    table brings back its metadata. *)
Theorem broker_forwards_the_message (prefix : string) (raw : bool)
    (event : Event.t (Body raw)) (streams : list string) :
  decode (encode (Event.meta event)) = Event.meta event →
  let received := deserialize decode true (serialize encode raw event) in
  topicMessages encode prefix true
    ((λ stream, Batch.mk stream [received]) <$> streams)
  = (λ stream, mkTopicMessages (topic_of prefix stream)
                 [message encode raw event]) <$> streams.
Proof.
  intros Hmeta received. unfold topicMessages.
  rewrite <- list_fmap_compose. apply list_fmap_ext.
  intros i stream _. simpl. unfold received.
  rewrite (message_as_raw raw event).
  rewrite <- (message_of_received (as_raw raw event)) by done.
  do 4 f_equal. unfold serialize, as_raw. simpl. f_equal.
  by destruct (Event.body event).
Qed.

End wire.

(** A handler that keeps the events it is called with. *)
Definition keep (event : Event.t (Serialization.Body false))
  : M (list (Event.t JsObject)) unit :=
  λ seen, (seen ++ [event], inr tt).

(** An event on a whole second, without a body. *)
Definition whole_sample : Event.t (Serialization.Body false) :=
  Event.mk (EventId.mk ["011"%byte]) 258 (Aggregate.mk ["001"%byte] 2)
           None {[ "user" := VString "ada" ]} 1793664001000.

(** Two batches, for two streams, of events with structured bodies and
    metadata. *)
Definition sent_batches : list (Batch.t (Serialization.Body false)) :=
  [Batch.mk "accounts" [kinds_sample; whole_sample];
   Batch.mk "ledger" [kinds_sample]].

Lemma whole_sample_supported : supported_kinds false whole_sample.
Proof.
  split; simpl.
  - by intros k v [_ <-]%lookup_singleton_Some.
  - by intros b [=].
Qed.

Lemma sent_events_reach_the_handler_witness :
  (λ tm, (KafkaStreamAdapter.topic tm,
          KafkaStreamAdapter.eachMessage Canonical.decode (λ _ seen, seen)
            false None keep <$> KafkaStreamAdapter.messages tm))
    <$> KafkaStreamAdapter.topicMessages Canonical.encode "arque" false
          sent_batches
  = (λ entry, (entry.1,
               (λ event, ExponentialBackoff.backOff (λ _ seen, seen)
                           (keep event)
                           (KafkaStreamAdapter.subscribe_backoff None))
                 <$> entry.2))
      <$> [("arque.accounts"%string, [truncated kinds_sample; whole_sample]);
           ("arque.ledger"%string, [truncated kinds_sample])].
Proof.
  rewrite (sent_events_reach_the_handler Canonical.encode Canonical.decode
             (λ _ seen, seen) "arque" false None keep sent_batches).
  - simpl.
    rewrite !through_canonical
      by (exact kinds_sample_supported || exact whole_sample_supported).
    by rewrite (truncated_whole whole_sample).
  - repeat constructor; vm_compute; (reflexivity || discriminate).
Defined.

Lemma broker_forwards_the_message_witness :
  KafkaStreamAdapter.topicMessages Canonical.encode "arque" true
    ((λ stream,
        Batch.mk stream
          [Serialization.deserialize Canonical.decode true
             (Serialization.serialize Canonical.encode false kinds_sample)])
       <$> ["A"; "B"]%string)
  = (λ stream,
       KafkaStreamAdapter.mkTopicMessages
         (KafkaStreamAdapter.topic_of "arque" stream)
         [KafkaStreamAdapter.message Canonical.encode false kinds_sample])
      <$> ["A"; "B"]%string.
Proof.
  apply (broker_forwards_the_message Canonical.encode Canonical.decode "arque"
           false kinds_sample ["A"; "B"]%string).
  apply decode_encode. exact (proj1 kinds_sample_supported).
Defined.

(** ** KafkaStreamAdapter: how often a handler is tried *)

Section attempts.
Import Serialization KafkaStreamAdapter ExponentialBackoff.
Context {St : Type}.
Variable sleep : Z → St → St.
Variable decode : Buffer → JsObject.

(** A handler run on a state that counts its calls. *)
Definition counted (h : M St unit) : M (St * nat) unit :=
  λ sn, let '(s', r) := h sn.1 in ((s', S sn.2), r).

Definition sleep_counted (d : Z) (sn : St * nat) : St * nat :=
  (sleep d sn.1, sn.2).

Lemma applyDelay_counted o a (sn : St * nat) :
  (applyDelay sleep_counted o a sn).2 = sn.2.
Proof. unfold applyDelay. by destruct (delay o a). Qed.

(** A loop of [S k] attempts calls the request at least once and at most
    [S k] times. *)
Lemma execute_calls o (h : M St unit) (k a : nat) (sn : St * nat) :
  (sn.2 + 1 ≤ (execute sleep_counted o (counted h) (S k) a sn).1.2 ≤ sn.2 + S k)%nat.
Proof.
  revert a sn. induction k as [|k IH]; intros a sn;
    remember (execute sleep_counted o (counted h) _ a sn) as r eqn:Hr;
    rewrite execute_S in Hr; unfold counted at 1 in Hr;
    pose proof (applyDelay_counted o a sn) as Hd;
    destruct (h (applyDelay sleep_counted o a sn).1) as [s' [e|[]]];
    rewrite Hd in Hr.
  - rewrite andb_false_r in Hr. subst r. simpl. lia.
  - subst r. simpl. lia.
  - destruct (retry o e && negb (S k =? 0)%nat).
    + specialize (IH (S a) (s', S sn.2)). rewrite <- Hr in IH.
      cbn [fst snd] in IH. lia.
    + subst r. simpl. lia.
  - subst r. simpl. lia.
Qed.

(** A loop whose request fails every time with an error it retries uses
    all its attempts. *)
Lemma execute_calls_all o (h : M St unit) (k a : nat) (sn : St * nat) :
  (∀ s, ∃ e, (h s).2 = inl e ∧ retry o e = true) →
  (execute sleep_counted o (counted h) (S k) a sn).1.2 = (sn.2 + S k)%nat
  ∧ ∃ e, (execute sleep_counted o (counted h) (S k) a sn).2 = inl e.
Proof.
  intros Hfails. revert a sn.
  induction k as [|k IH]; intros a sn;
    remember (execute sleep_counted o (counted h) _ a sn) as r eqn:Hr;
    rewrite execute_S in Hr; unfold counted at 1 in Hr;
    pose proof (applyDelay_counted o a sn) as Hd;
    destruct (Hfails (applyDelay sleep_counted o a sn).1) as (e & He & Hretry);
    destruct (h (applyDelay sleep_counted o a sn).1) as [s' r'];
    simpl in He; subst r'; rewrite Hretry, Hd in Hr;
    cbn [andb negb Nat.eqb] in Hr.
  - subst r. simpl. split; [lia | by exists e].
  - destruct (IH (S a) (s', S sn.2)) as [Hn Herr]. rewrite <- Hr in Hn, Herr.
    cbn [fst snd] in Hn. split; [lia | done].
Qed.

(** X23.  [eachMessage] tries the handler at least once and at most
    [numOfAttempts] times (24 unless the subscriber says otherwise, and
    never less than once), whatever the handler does; and a handler that
    fails every time with an error the retry callback accepts (every error,
    by default) is tried exactly that often before the error leaves
    [eachMessage]. *)
Theorem eachMessage_attempts (raw : bool) (opts : option RetryOptions)
    (handle : Event.t (Body raw) → M St unit) (m : Message) data (s : St) :
  value m = Some data →
  let attempts :=
    Z.to_nat (Z.max 1 (default 24 (opts ≫= KafkaStreamAdapter.numOfAttempts)))%Z in
  let run := eachMessage decode sleep_counted raw opts
               (λ event, counted (handle event)) m (s, 0%nat) in
  (1 ≤ run.1.2 ≤ attempts)%nat
  ∧ ((∀ s', ∃ e, (handle (deserialize decode raw data) s').2 = inl e
                 ∧ retry (subscribe_backoff opts) e = true) →
     run.1.2 = attempts ∧ ∃ e, run.2 = inl e).
Proof.
  intros Hvalue attempts run. unfold run, eachMessage. rewrite Hvalue.
  unfold backOff. cbv zeta.
  assert (∃ k, Z.to_nat (ExponentialBackoff.numOfAttempts
                           (sanitize (subscribe_backoff opts))) = S k
               ∧ attempts = S k) as (k & -> & ->).
  { unfold attempts, sanitize, subscribe_backoff. simpl.
    destruct (Z.ltb_spec (default 24 (opts ≫= KafkaStreamAdapter.numOfAttempts)) 1)%Z; simpl.
    - exists 0%nat. split; [done | lia].
    - exists (Z.to_nat (default 24%Z (opts ≫= KafkaStreamAdapter.numOfAttempts))
              - 1)%nat.
      split; lia. }
  assert (ExponentialBackoff.retry (sanitize (subscribe_backoff opts))
          = ExponentialBackoff.retry (subscribe_backoff opts)) as Hretry.
  { unfold sanitize.
    by destruct (ExponentialBackoff.numOfAttempts (subscribe_backoff opts) <? 1)%Z. }
  split.
  - apply (execute_calls _ _ k 0 (s, 0%nat)).
  - intros Hfails.
    apply (execute_calls_all _ _ k 0 (s, 0%nat)).
    intros s'. destruct (Hfails s') as (e & He & Hacc).
    exists e. by rewrite Hretry.
Qed.

End attempts.

(** A message whose handler always throws is tried 24 times. *)
Lemma eachMessage_attempts_witness :
  (KafkaStreamAdapter.eachMessage Canonical.decode (sleep_counted sleep) true None
     (λ event, counted (λ s, (s, inl (JsError "boom"))))
     (KafkaStreamAdapter.message Canonical.encode true raw_sample)
     (empty_store, 0%nat)).1.2 = 24%nat
  ∧ ∃ e,
      (KafkaStreamAdapter.eachMessage Canonical.decode (sleep_counted sleep) true
         None (λ event, counted (λ s, (s, inl (JsError "boom"))))
         (KafkaStreamAdapter.message Canonical.encode true raw_sample)
         (empty_store, 0%nat)).2 = inl e.
Proof.
  apply (eachMessage_attempts sleep Canonical.decode true None
           (λ _ s, (s, inl (JsError "boom")))
           (KafkaStreamAdapter.message Canonical.encode true raw_sample) _
           empty_store eq_refl).
  intros s'. exists (JsError "boom"). split; reflexivity.
Defined.

(** ** arrayToAsyncIterableIterator *)

Section iterator.
Import AsyncIterator.
Context {T : Type}.

(** The values of an array up to its first [undefined]. *)
Fixpoint defined_prefix (items : list (option T)) : list T :=
  match items with
  | Some x :: rest => x :: defined_prefix rest
  | _ => []
  end.

Lemma defined_prefix_all (l : list T) : defined_prefix (Some <$> l) = l.
Proof. induction l as [|x l IH]; [done |]. csimpl. by rewrite IH. Qed.

(** The loop from any position of the iterator. *)
Lemma for_await_from (fuel : nat) (it : AsyncIterator.t T) :
  length (items it) - index it < fuel →
  for_await fuel it
  = Some (defined_prefix (drop (index it) (items it)),
          mk (items it)
             (S (index it
                 + length (defined_prefix (drop (index it) (items it)))))).
Proof.
  revert it. induction fuel as [|fuel IH]; intros [l i] Hfuel; [simpl in *; lia |].
  simpl in *. unfold next. simpl.
  destruct (l !! i) as [[x|]|] eqn:Hi; simpl.
  - rewrite (drop_S l (Some x) i Hi). simpl.
    apply lookup_lt_Some in Hi.
    rewrite IH by (simpl; lia). simpl. do 3 f_equal. lia.
  - rewrite (drop_S l None i Hi). simpl. do 3 f_equal. lia.
  - apply lookup_ge_None in Hi. rewrite drop_ge by done. simpl.
    do 3 f_equal. lia.
Qed.

(** X24.  A [for await] over [arrayToAsyncIterableIterator(items)] ends,
    after at most one call of [next] more than the array is long, and its
    body sees the values of the array up to the first [undefined], in
    order: all of them when the array holds none, as for the events sliced
    from a log in the reload tests; and a value that follows an
    [undefined] is never seen. *)
Theorem for_await_array (items : list (option T)) (spare : nat) :
  fst <$> for_await (S (length items) + spare) (arrayToAsyncIterableIterator items)
  = Some (defined_prefix items)
  ∧ (∀ (events : list T) (version : nat),
       fst <$> for_await (S (length events))
                 (arrayToAsyncIterableIterator (Some <$> drop version events))
       = Some (drop version events))
  ∧ (∀ (before : list T) (after : list (option T)),
       fst <$> for_await (2 + length before + length after)
                 (arrayToAsyncIterableIterator
                    ((Some <$> before) ++ None :: after))
       = Some before).
Proof.
  split; [| split].
  - unfold arrayToAsyncIterableIterator.
    rewrite for_await_from by (simpl; lia). done.
  - intros events version. unfold arrayToAsyncIterableIterator.
    rewrite for_await_from.
    + cbn [AsyncIterator.index AsyncIterator.items]. by rewrite drop_0, defined_prefix_all.
    + simpl. rewrite length_fmap, length_drop. lia.
  - intros before after. unfold arrayToAsyncIterableIterator.
    rewrite for_await_from.
    + cbn [AsyncIterator.index AsyncIterator.items]. rewrite drop_0. simpl. f_equal.
      induction before as [|x before IH]; [done |].
      csimpl. by rewrite IH.
    + simpl. rewrite length_app, length_fmap. simpl. lia.
Qed.

End iterator.
